(** * State synchronisation of the multiplayer template: relay and client

  A shallow embedding of the two Go programs of the repository:

  - the client ([src/main.go]): [Character], [Game], the per-tick
    publisher [handleInput] / [Update] and the receive loop
    [receiveUpdates] that maintains the cache [otherPlayers];
  - the relay ([src/unnamed/part_000]): [Server], [handleClient] and
    [broadcast].

  Go's standard library ([strings], [strconv], [fmt]) is not part of the
  repository; the functions the programs call are modelled first, from
  their documented behaviour.  A Go [string] is a byte sequence and is
  modelled as a Rocq [string]; a [float64] is a [spec_float] at
  precision 53; an [int] is a 64-bit integer kept as a [Z].

  Both programs run several goroutines.  Each is modelled as a
  transition system whose events are the atomic actions of the
  goroutines: the statements between two uses of the mutex, and the
  read of [len(s.clients)] at line 26 of the relay, which is made
  outside the mutex.  What the network does (a read that fails, a write
  that fails, the keys that are pressed) comes with the event. *)

From Stdlib Require Import ZArith NArith List String Ascii Bool Lia Permutation.
From Stdlib Require Import Floats.SpecFloat.
From stdpp Require Import base gmap list strings fin_maps.

Set Warnings "-clear-no-such-hyp".

Local Open Scope string_scope.
Local Open Scope list_scope.

(** ** Go's [strings] package *)

Module GoStrings.

(** [strings.Split(s, sep)] for a separator of one byte, which is what
    both call sites pass ([";"] and [","]).  The result always has one
    more element than [s] has separators; [Split "" sep] is [[""]]. *)
Fixpoint Split (s : string) (sep : ascii) : list string :=
  match s with
  | EmptyString => [EmptyString]
  | String c rest =>
      if Ascii.eqb c sep then EmptyString :: Split rest sep
      else match Split rest sep with
           | [] => [String c EmptyString]
           | field :: fields => String c field :: fields
           end
  end.

(** The six ASCII bytes of Go's [asciiSpace] table. *)
Definition asciiSpace (c : ascii) : bool :=
  match c with
  | "009" | "010" | "011" | "012" | "013" | " " => true
  | _ => false
  end%char.

(** UTF-8 encodings of the white space runes above U+007F
    ([unicode.IsSpace]): U+0085, U+00A0 on two bytes; U+1680,
    U+2000..U+200A, U+2028, U+2029, U+202F, U+205F, U+3000 on three. *)
Definition isSpace2 (b1 b2 : N) : bool :=
  ((b1 =? 0xC2) && ((b2 =? 0x85) || (b2 =? 0xA0)))%N.

Definition isSpace3 (b1 b2 b3 : N) : bool :=
  (((b1 =? 0xE1) && (b2 =? 0x9A) && (b3 =? 0x80))
   || ((b1 =? 0xE2) && (b2 =? 0x80)
       && (((0x80 <=? b3) && (b3 <=? 0x8A))
           || (b3 =? 0xA8) || (b3 =? 0xA9) || (b3 =? 0xAF)))
   || ((b1 =? 0xE2) && (b2 =? 0x81) && (b3 =? 0x9F))
   || ((b1 =? 0xE3) && (b2 =? 0x80) && (b3 =? 0x80)))%N.

(** Drop the white space runes at the front of a byte list. *)
Fixpoint trimLeft (s : list ascii) : list ascii :=
  match s with
  | [] => []
  | c1 :: r1 =>
      if asciiSpace c1 then trimLeft r1
      else match r1 with
           | [] => s
           | c2 :: r2 =>
               if isSpace2 (N_of_ascii c1) (N_of_ascii c2) then trimLeft r2
               else match r2 with
                    | [] => s
                    | c3 :: r3 =>
                        if isSpace3 (N_of_ascii c1) (N_of_ascii c2)
                                    (N_of_ascii c3)
                        then trimLeft r3 else s
                    end
           end
  end.

(** The same from the back, on the reversed byte list: the last rune is
    white space exactly when the bytes end with one of the encodings. *)
Fixpoint trimLeftRev (s : list ascii) : list ascii :=
  match s with
  | [] => []
  | c1 :: r1 =>
      if asciiSpace c1 then trimLeftRev r1
      else match r1 with
           | [] => s
           | c2 :: r2 =>
               if isSpace2 (N_of_ascii c2) (N_of_ascii c1)
               then trimLeftRev r2
               else match r2 with
                    | [] => s
                    | c3 :: r3 =>
                        if isSpace3 (N_of_ascii c3) (N_of_ascii c2)
                                    (N_of_ascii c1)
                        then trimLeftRev r3 else s
                    end
           end
  end.

Definition trimRight (s : list ascii) : list ascii :=
  rev (trimLeftRev (rev s)).

(** [strings.TrimSpace]: leading white space is removed first, then
    trailing white space of what is left. *)
Definition TrimSpace (s : string) : string :=
  string_of_list_ascii (trimRight (trimLeft (list_ascii_of_string s))).

End GoStrings.

(** ** Go's [strconv] package *)

Module Strconv.

(** The two errors a [*NumError] of [strconv] can wrap. *)
Inductive NumError := ErrSyntax | ErrRange.

Definition float64 := spec_float.
Definition prec : Z := 53.
Definition emax : Z := 1024.

Definition isDigit (c : ascii) : bool :=
  ((48 <=? N_of_ascii c) && (N_of_ascii c <=? 57))%N.

Definition digitVal (c : ascii) : N := (N_of_ascii c - 48)%N.

(** [lower(c)] is [c | ('x' - 'X')]. *)
Definition lower (c : ascii) : N := N.lor (N_of_ascii c) 0x20.

Definition isHexLetter (c : ascii) : bool :=
  ((97 <=? lower c) && (lower c <=? 102))%N.

(** *** [ParseBool] *)
Definition ParseBool (str : string) : bool * option NumError :=
  if (String.eqb str "1" || String.eqb str "t" || String.eqb str "T"
      || String.eqb str "TRUE" || String.eqb str "true"
      || String.eqb str "True")%bool
  then (true, None)
  else if (String.eqb str "0" || String.eqb str "f" || String.eqb str "F"
           || String.eqb str "FALSE" || String.eqb str "false"
           || String.eqb str "False")%bool
  then (false, None)
  else (false, Some ErrSyntax).

(** *** [Atoi]

    [Atoi(s)] with [int] of 64 bits.  A string of 1 to 18 bytes takes the
    fast path: an optional sign, then every byte must be a digit.  Any
    other string goes through [ParseInt(s, 10, 0)], whose loop
    ([ParseUint]) looks at one byte at a time: a byte that is not a digit
    is a syntax error, value 0; a digit that takes the value beyond
    [uint64] is a range error at once, whatever follows, and the value is
    then the largest or the smallest [int]. *)
Fixpoint readDigits (s : string) (acc : N) : option N :=
  match s with
  | EmptyString => Some acc
  | String c rest =>
      if isDigit c then readDigits rest (acc * 10 + digitVal c)%N
      else None
  end.

Definition maxInt : Z := 2 ^ 63 - 1.
Definition minInt : Z := - 2 ^ 63.
Definition maxUint64 : N := 2 ^ 64 - 1.

(** The sign picked off the front: [Some true] for a minus, [Some
    false] for a plus. *)
Definition pickSign (s : string) : option bool * string :=
  match s with
  | String "-" rest => (Some true, rest)
  | String "+" rest => (Some false, rest)
  | _ => (None, s)
  end.

(** The loop of [ParseUint(s, 10, 64)]; [cutoff] is
    [maxUint64/10 + 1]. *)
Fixpoint parseUintLoop (s : string) (n : N) : N * option NumError :=
  match s with
  | EmptyString => (n, None)
  | String c rest =>
      if isDigit c then
        if (maxUint64 / 10 + 1 <=? n)%N then (maxUint64, Some ErrRange)
        else
          let n1 := (n * 10 + digitVal c)%N in
          if (maxUint64 <? n1)%N then (maxUint64, Some ErrRange)
          else parseUintLoop rest n1
      else (0%N, Some ErrSyntax)
  end.

Definition ParseUint (s : string) : N * option NumError :=
  match s with
  | EmptyString => (0%N, Some ErrSyntax)
  | _ => parseUintLoop s 0
  end.

(** [ParseInt(s, 10, 0)]; [cutoff] is [1 << 63]. *)
Definition ParseInt (s : string) : Z * option NumError :=
  match s with
  | EmptyString => (0%Z, Some ErrSyntax)
  | _ =>
      let (sign, rest) := pickSign s in
      let neg := match sign with Some true => true | _ => false end in
      match ParseUint rest with
      | (_, Some ErrSyntax) => (0%Z, Some ErrSyntax)
      | (un, _) =>
          if (negb neg && (2 ^ 63 <=? un)%N)%bool
          then (maxInt, Some ErrRange)
          else if (neg && (2 ^ 63 <? un)%N)%bool
          then (minInt, Some ErrRange)
          else (if neg then (- Z.of_N un)%Z else Z.of_N un, None)
      end
  end.

Definition Atoi (s : string) : Z * option NumError :=
  let sLen := String.length s in
  if ((0 <? sLen) && (sLen <? 19))%nat then
    let (sign, rest) := pickSign s in
    match sign, rest with
    | Some _, EmptyString => (0%Z, Some ErrSyntax)
    | _, _ =>
        match readDigits rest 0 with
        | None => (0%Z, Some ErrSyntax)
        | Some n =>
            (match sign with
             | Some true => (- Z.of_N n)%Z
             | _ => Z.of_N n
             end, None)
        end
    end
  else ParseInt s.

(** *** [ParseFloat]

    [special]: the possibly signed, case-insensitive spellings of the
    infinities and of NaN.  The result carries the number of bytes
    consumed. *)
Fixpoint commonPrefixLenIgnoreCase (s pre : string) : nat :=
  match s, pre with
  | String c s', String p pre' =>
      let n := N_of_ascii c in
      let n' := if ((65 <=? n) && (n <=? 90))%N then (n + 32)%N else n in
      if (n' =? N_of_ascii p)%N
      then S (commonPrefixLenIgnoreCase s' pre') else O
  | _, _ => O
  end.

Definition specialInf (sign : bool) (nsign : nat) (s : string)
  : option (float64 * nat) :=
  let n := commonPrefixLenIgnoreCase s "infinity" in
  let n := if ((3 <? n) && (n <? 8))%nat then 3%nat else n in
  if ((n =? 3) || (n =? 8))%nat
  then Some (S754_infinity sign, (nsign + n)%nat) else None.

Definition special (s : string) : option (float64 * nat) :=
  match s with
  | String "+" rest => specialInf false 1 rest
  | String "-" rest => specialInf true 1 rest
  | String "i" _ | String "I" _ => specialInf false 0 s
  | String "n" _ | String "N" _ =>
      if (commonPrefixLenIgnoreCase s "nan" =? 3)%nat
      then Some (S754_nan, 3%nat) else None
  | _ => None
  end.

(** [readFloat]: the mantissa loop.  [nd] counts the digits after the
    leading zeros, [dp] is the position of the decimal point.  Go keeps
    the first 19 (16 in base 16) digits in a [uint64] and, when more
    digits follow, takes the value from the exact fallback
    ([decimal.set], or the sticky bit of [atofHex]); here the mantissa
    is accumulated exactly in [N], which gives that same value. *)
Record mantState := {
  mantissa : N; nd : Z; dp : Z;
  sawdot : bool; sawdigits : bool; underscores : bool }.

Definition mantInit : mantState :=
  {| mantissa := 0; nd := 0; dp := 0;
     sawdot := false; sawdigits := false; underscores := false |}.

Definition mantDigit (base : N) (d : N) (st : mantState) : mantState :=
  {| mantissa := (mantissa st * base + d)%N; nd := (nd st + 1)%Z;
     dp := dp st; sawdot := sawdot st; sawdigits := true;
     underscores := underscores st |}.

Definition mantLeadingZero (st : mantState) : mantState :=
  {| mantissa := mantissa st; nd := nd st; dp := (dp st - 1)%Z;
     sawdot := sawdot st; sawdigits := true;
     underscores := underscores st |}.

Definition mantDot (st : mantState) : mantState :=
  {| mantissa := mantissa st; nd := nd st; dp := nd st;
     sawdot := true; sawdigits := sawdigits st;
     underscores := underscores st |}.

Definition mantUnderscore (st : mantState) : mantState :=
  {| mantissa := mantissa st; nd := nd st; dp := dp st;
     sawdot := sawdot st; sawdigits := sawdigits st;
     underscores := true |}.

Fixpoint readMantissa (hex : bool) (s : string) (st : mantState)
  : mantState * string :=
  match s with
  | EmptyString => (st, s)
  | String c rest =>
      if Ascii.eqb c "_" then readMantissa hex rest (mantUnderscore st)
      else if Ascii.eqb c "." then
        if sawdot st then (st, s)
        else readMantissa hex rest (mantDot st)
      else if isDigit c then
        if (Ascii.eqb c "0" && (nd st =? 0)%Z)%bool
        then readMantissa hex rest (mantLeadingZero st)
        else readMantissa hex rest
               (mantDigit (if hex then 16 else 10) (digitVal c) st)
      else if (hex && isHexLetter c)%bool then
        readMantissa hex rest (mantDigit 16 (lower c - 97 + 10)%N st)
      else (st, s)
  end.

(** The digits of the exponent; as in Go the value stops growing once it
    has reached 10000. *)
Fixpoint readExpDigits (s : string) (e : Z) (us : bool)
  : Z * bool * string :=
  match s with
  | EmptyString => (e, us, s)
  | String c rest =>
      if Ascii.eqb c "_" then readExpDigits rest e true
      else if isDigit c then
        readExpDigits rest
          (if (e <? 10000)%Z then (e * 10 + Z.of_N (digitVal c))%Z else e)
          us
      else (e, us, s)
  end.

(** The optional exponent: [None] is a syntax error, otherwise the
    signed exponent, whether an underscore was seen, and what is left. *)
Definition readExponent (hex : bool) (s : string)
  : option (Z * bool * string) :=
  match s with
  | String c rest =>
      if (lower c =? (if hex then 112 else 101))%N then
        let (esign, rest') :=
          match rest with
          | String "+" r => (1%Z, r)
          | String "-" r => ((-1)%Z, r)
          | _ => (1%Z, rest)
          end in
        match rest' with
        | String d _ =>
            if isDigit d then
              let '(e, us, rest'') := readExpDigits rest' 0 false in
              Some ((e * esign)%Z, us, rest'')
            else None
        | EmptyString => None
        end
      else if hex then None else Some (0%Z, false, s)
  | EmptyString => if hex then None else Some (0%Z, false, s)
  end.

Record readResult := {
  r_mantissa : N; r_exp : Z; r_neg : bool; r_hex : bool;
  r_underscores : bool; r_rest : string }.

Definition hasHexPrefix (s : string) : option string :=
  match s with
  | String "0" (String x (String c rest)) =>
      if (lower x =? 120)%N then Some (String c rest) else None
  | _ => None
  end.

(** [readFloat] after the optional sign. *)
Definition readUnsigned (neg : bool) (s1 : string) : option readResult :=
let (hex, s2) :=
  match hasHexPrefix s1 with
  | Some r => (true, r)
  | None => (false, s1)
  end in
let (st, s3) := readMantissa hex s2 mantInit in
if negb (sawdigits st) then None
else
  let dp0 := if sawdot st then dp st else nd st in
  let scale := if hex then 4%Z else 1%Z in
  match readExponent hex s3 with
  | None => None
  | Some (e, us, s4) =>
      Some {| r_mantissa := mantissa st;
              r_exp := if (mantissa st =? 0)%N then 0%Z
                       else (dp0 * scale + e - nd st * scale)%Z;
              r_neg := neg; r_hex := hex;
              r_underscores := (underscores st || us)%bool;
              r_rest := s4 |}
  end.

Definition readFloat (s : string) : option readResult :=
match s with
| EmptyString => None
| String c0 rest0 =>
    if Ascii.eqb c0 "+" then readUnsigned false rest0
    else if Ascii.eqb c0 "-" then readUnsigned true rest0
    else readUnsigned false s
end.

(** [underscoreOK]: underscores only between digits (the base prefix
    counts as a digit). *)
Inductive sawKind := SawStart | SawDigit | SawUnderscore | SawOther.

Fixpoint underscoreLoop (hex : bool) (s : string) (saw : sawKind) : bool :=
  match s with
  | EmptyString => match saw with SawUnderscore => false | _ => true end
  | String c rest =>
      if (isDigit c || (hex && isHexLetter c))%bool
      then underscoreLoop hex rest SawDigit
      else if Ascii.eqb c "_" then
        match saw with
        | SawDigit => underscoreLoop hex rest SawUnderscore
        | _ => false
        end
      else match saw with
           | SawUnderscore => false
           | _ => underscoreLoop hex rest SawOther
           end
  end.

Definition underscoreOK (s : string) : bool :=
  let s1 := match s with
            | String "+" r | String "-" r => r
            | _ => s
            end in
  match s1 with
  | String "0" (String x rest) =>
      if ((lower x =? 98) || (lower x =? 111) || (lower x =? 120))%N
      then underscoreLoop (lower x =? 120)%N rest SawDigit
      else underscoreLoop false s1 SawStart
  | _ => underscoreLoop false s1 SawStart
  end.

(** The nearest [float64], ties to even, of [m * 10 ^ e] and of
    [m * 2 ^ e] ("the nearest floating-point number rounded using
    IEEE754 unbiased rounding"); a value too large rounds to an
    infinity. *)
Definition decimalToFloat (neg : bool) (m : N) (e : Z) : float64 :=
  match m with
  | N0 => S754_zero neg
  | Npos p =>
      if (0 <=? e)%Z
      then binary_round prec emax neg (p * Z.to_pos (10 ^ e)) 0
      else
        let '(q, e', l) :=
          SFdiv_core_binary prec emax (Zpos p) 0 (10 ^ (- e)) 0 in
        binary_round_aux prec emax neg q e' l
  end.

Definition hexToFloat (neg : bool) (m : N) (e : Z) : float64 :=
  match m with
  | N0 => S754_zero neg
  | Npos p => binary_round prec emax neg p e
  end.

Definition isInf (x : float64) : bool :=
  match x with S754_infinity _ => true | _ => false end.

(** Neither an infinity nor NaN. *)
Definition isFinite (x : float64) : bool :=
  match x with S754_zero _ | S754_finite _ _ _ => true | _ => false end.

(** [ParseFloat(s, 64)].  A syntax error, which includes input left
    over after the number, returns 0; a range error returns the
    infinity of the right sign. *)
Definition ParseFloat (s : string) : float64 * option NumError :=
  match special s with
  | Some (f, n) =>
      if (n =? String.length s)%nat then (f, None)
      else (S754_zero false, Some ErrSyntax)
  | None =>
      match readFloat s with
      | None => (S754_zero false, Some ErrSyntax)
      | Some r =>
          if negb (String.eqb (r_rest r) "") then
            (S754_zero false, Some ErrSyntax)
          else if (r_underscores r && negb (underscoreOK s))%bool then
            (S754_zero false, Some ErrSyntax)
          else
            let f := if r_hex r
                     then hexToFloat (r_neg r) (r_mantissa r) (r_exp r)
                     else decimalToFloat (r_neg r) (r_mantissa r) (r_exp r)
            in (f, if isInf f then Some ErrRange else None)
      end
  end.

End Strconv.

(** ** Go's [fmt] verbs used by the programs *)

Module Fmt.
Import Strconv.

Definition digitChar (d : N) : ascii := ascii_of_N (48 + d).

Fixpoint formatUintAux (fuel : nat) (n : N) (acc : string) : string :=
  match fuel with
  | O => acc
  | S fuel' =>
      if (n <? 10)%N then String (digitChar n) acc
      else formatUintAux fuel' (n / 10)%N
             (String (digitChar (n mod 10)%N) acc)
  end.

(** The decimal digits of [n], without leading zeros. *)
Definition formatUint (n : N) : string :=
  formatUintAux (S (N.to_nat (N.log2 n))) n "".

(** [%d] of an [int]. *)
Definition formatInt (z : Z) : string :=
  if (z <? 0)%Z then String "-" (formatUint (Z.abs_N z))
  else formatUint (Z.abs_N z).

(** [%v] of a [bool]. *)
Definition formatBool (b : bool) : string :=
  if b then "true" else "false".

(** [m * 2 ^ e * 100] rounded to the nearest integer, ties to even:
    the digits [%.2f] prints. *)
Definition round100 (m : positive) (e : Z) : N :=
  if (0 <=? e)%Z then (Npos m * 2 ^ Z.to_N e * 100)%N
  else
    let num := (Npos m * 100)%N in
    let den := (2 ^ Z.to_N (- e))%N in
    let q := (num / den)%N in
    let r := (num mod den)%N in
    match (2 * r ?= den)%N with
    | Lt => q
    | Gt => (q + 1)%N
    | Eq => if N.even q then q else (q + 1)%N
    end.

Definition fixed2 (n : N) : string :=
  formatUint (n / 100)%N
  ++ String "." (String (digitChar ((n / 10) mod 10)%N)
                   (String (digitChar (n mod 10)%N) "")).

(** [%.2f] of a [float64]. *)
Definition formatFloat2 (x : float64) : string :=
  match x with
  | S754_nan => "NaN"
  | S754_infinity s => if s then "-Inf" else "+Inf"
  | S754_zero s => (if s then "-" else "") ++ "0.00"
  | S754_finite s m e => (if s then "-" else "") ++ fixed2 (round100 m e)
  end.

(** The sign [%.2f] prints and, for a finite value, the hundredths. *)
Definition signOf (x : float64) : bool :=
  match x with
  | S754_zero s | S754_infinity s | S754_finite s _ _ => s
  | S754_nan => false
  end.

Definition hundredths (x : float64) : N :=
  match x with
  | S754_finite _ m e => round100 m e
  | _ => 0%N
  end.

(** What [%.2f] keeps of a [float64]: the nearest [float64] to the value
    rounded to two decimals.  Infinities, NaN and zeros are kept. *)
Definition round2 (x : float64) : float64 :=
  match x with
  | S754_finite s m e => decimalToFloat s (round100 m e) (-2)
  | _ => x
  end.

End Fmt.

(** ** The client ([src/main.go]) *)

Module Client.
Import GoStrings Strconv Fmt.

(** A [*ebiten.Image]: an opaque handle. *)
Definition Image := positive.

(** A floating-point literal of the source, converted exactly as the
    compiler does. *)
Definition lit (s : string) : float64 := fst (ParseFloat s).

Definition wrapInt (z : Z) : Z := ((z + 2 ^ 63) mod 2 ^ 64 - 2 ^ 63)%Z.

Record Vector2f := { X : float64; Y : float64 }.

Record Character := {
  bodyTexture : Image;
  headTexture : Image;
  position : Vector2f;
  moveSpeed : float64;
  animationSpeed : float64;
  frameIndex : Z;
  direction : Z;
  timeSinceLastFrame : float64;
  isMoving : bool }.

Definition NewCharacter (bodyTexture headTexture : Image)
    (startPos : Vector2f) : Character :=
  {| bodyTexture := bodyTexture;
     headTexture := headTexture;
     position := startPos;
     moveSpeed := lit "200.0";
     animationSpeed := lit "0.1";
     frameIndex := 0;
     direction := 0;
     timeSinceLastFrame := S754_zero false;
     isMoving := false |}.

(** Assignments to one field through the pointer. *)
Definition setPosition (p : Vector2f) (c : Character) : Character :=
  {| bodyTexture := bodyTexture c; headTexture := headTexture c;
     position := p; moveSpeed := moveSpeed c;
     animationSpeed := animationSpeed c; frameIndex := frameIndex c;
     direction := direction c;
     timeSinceLastFrame := timeSinceLastFrame c; isMoving := isMoving c |}.

Definition setDirection (d : Z) (c : Character) : Character :=
  {| bodyTexture := bodyTexture c; headTexture := headTexture c;
     position := position c; moveSpeed := moveSpeed c;
     animationSpeed := animationSpeed c; frameIndex := frameIndex c;
     direction := d;
     timeSinceLastFrame := timeSinceLastFrame c; isMoving := isMoving c |}.

Definition setIsMoving (b : bool) (c : Character) : Character :=
  {| bodyTexture := bodyTexture c; headTexture := headTexture c;
     position := position c; moveSpeed := moveSpeed c;
     animationSpeed := animationSpeed c; frameIndex := frameIndex c;
     direction := direction c;
     timeSinceLastFrame := timeSinceLastFrame c; isMoving := b |}.

Definition setAnimation (frame : Z) (t : float64) (c : Character)
  : Character :=
  {| bodyTexture := bodyTexture c; headTexture := headTexture c;
     position := position c; moveSpeed := moveSpeed c;
     animationSpeed := animationSpeed c; frameIndex := frame;
     direction := direction c;
     timeSinceLastFrame := t; isMoving := isMoving c |}.

Definition updateAnimation (c : Character) (deltaTime : float64)
  : Character :=
  let t := SFadd prec emax (timeSinceLastFrame c) deltaTime in
  if isMoving c then
    if SFleb (animationSpeed c) t
    then setAnimation (Z.rem (wrapInt (frameIndex c + 1)) 5)
           (S754_zero false) c
    else setAnimation (frameIndex c) t c
  else setAnimation 0 t c.

(** The method [Update] of [Character]. *)
Definition CharacterUpdate (c : Character) (deltaTime : float64)
  : Character :=
  updateAnimation c deltaTime.

(** The client's end of the connection.  Every [Write] is recorded in
    [attempts]; once the connection is broken a [Write] fails. *)
Inductive netError := ErrConn.

Record Conn := { broken : bool; attempts : list string }.

Definition connWrite (c : Conn) (data : string) : Conn * option netError :=
  ({| broken := broken c; attempts := attempts c ++ [data] |},
   if broken c then Some ErrConn else None).

Record Game := {
  localPlayer : Character;
  otherPlayers : gmap string Character;
  conn : Conn;
  tilesImage : Image;
  layers : list (list Z) }.

Definition NewGame (conn : Conn) (bodyTexture headTexture tilesImage : Image)
    (layers : list (list Z)) : Game :=
  {| localPlayer :=
       NewCharacter bodyTexture headTexture
         {| X := lit "400"; Y := lit "300" |};
     otherPlayers := ∅;
     conn := conn;
     tilesImage := tilesImage;
     layers := layers |}.

(** What [ebiten.IsKeyPressed] answers during one tick. *)
Record Keys := { KeyUp : bool; KeyDown : bool; KeyLeft : bool;
                 KeyRight : bool }.

(** The record of line 151:
    [Fprintf(conn, "%.2f,%.2f,%d,%v\n", x, y, direction, isMoving)]. *)
Definition encode (c : Character) : string :=
  formatFloat2 (X (position c)) ++ "," ++ formatFloat2 (Y (position c))
  ++ "," ++ formatInt (direction c) ++ "," ++ formatBool (isMoving c)
  ++ String "010" "".

Definition fmul := SFmul prec emax.
Definition fadd := SFadd prec emax.
Definition fsub := SFsub prec emax.

(** One arrow key of [handleInput]: the movement, then direction and
    [isMoving] of the local player. *)
Definition pressKey (pressed : bool) (move : Vector2f -> Vector2f)
    (dir : Z) (st : Vector2f * Character) : Vector2f * Character :=
  if pressed
  then (move (fst st), setIsMoving true (setDirection dir (snd st)))
  else st.

(** [handleInput] returns the new game and, for the record only, what
    [Fprintf] returned: the source discards it.  Each product of lines
    128 to 143 is rounded before it is subtracted or added; for the
    builds that fuse the two operations see [handleInputWriteWith]. *)
Definition handleInputWrite (g : Game) (keys : Keys) (deltaTime : float64)
  : Game * option netError :=
  let movement := {| X := S754_zero false; Y := S754_zero false |} in
  let lp := setIsMoving false (localPlayer g) in
  let step := fmul (moveSpeed lp) deltaTime in
  let st := (movement, lp) in
  let st := pressKey (KeyUp keys)
              (fun m => {| X := X m; Y := fsub (Y m) step |}) 0 st in
  let st := pressKey (KeyDown keys)
              (fun m => {| X := X m; Y := fadd (Y m) step |}) 2 st in
  let st := pressKey (KeyLeft keys)
              (fun m => {| X := fsub (X m) step; Y := Y m |}) 1 st in
  let st := pressKey (KeyRight keys)
              (fun m => {| X := fadd (X m) step; Y := Y m |}) 3 st in
  let (movement, lp) := st in
  let lp := setPosition
              {| X := fadd (X (position lp)) (X movement);
                 Y := fadd (Y (position lp)) (Y movement) |} lp in
  let (conn', err) := connWrite (conn g) (encode lp) in
  ({| localPlayer := lp; otherPlayers := otherPlayers g; conn := conn';
      tilesImage := tilesImage g; layers := layers g |}, err).

Definition handleInput (g : Game) (keys : Keys) (deltaTime : float64)
  : Game :=
  fst (handleInputWrite g keys deltaTime).

(** *** Fused evaluation of lines 128, 133, 138 and 143

    Go lets an implementation fuse [x*y + z] into one operation that
    rounds once, and the compilers for arm64, ppc64le, s390x and riscv64
    do.  [handleInputWrite] above rounds each product before it is
    subtracted or added, which is what amd64 does.  Below, each of the
    four products is rounded or fused with its subtraction or addition,
    as a [Fusion] says; with no fusion this is [handleInputWrite]. *)

(** The product of two finite numbers other than zero, exact: it is
    not rounded, so its mantissa can have up to 106 bits. *)
Definition mulExact (x y : float64) : option spec_float :=
  match x, y with
  | S754_finite sx mx ex, S754_finite sy my ey =>
      Some (S754_finite (xorb sx sy) (mx * my) (ex + ey))
  | _, _ => None
  end.

(** [z + x*y] rounded once.  When the product is a zero, an infinity or
    NaN it is exact as [fmul] gives it; when [z] is a zero the sum is the
    product, rounded. *)
Definition fusedMulAdd (z x y : float64) : float64 :=
  match mulExact x y with
  | Some p =>
      match z with
      | S754_zero _ => fmul x y
      | _ => SFadd prec emax z p
      end
  | None => fadd z (fmul x y)
  end.

(** [z - x*y] rounded once. *)
Definition fusedMulSub (z x y : float64) : float64 :=
  match mulExact x y with
  | Some p =>
      match z with
      | S754_zero _ => SFopp (fmul x y)
      | _ => SFsub prec emax z p
      end
  | None => fsub z (fmul x y)
  end.

(** Which of the four products the build fuses. *)
Record Fusion := {
  fuseUp : bool; fuseDown : bool; fuseLeft : bool; fuseRight : bool }.

Definition noFusion : Fusion :=
  {| fuseUp := false; fuseDown := false; fuseLeft := false;
     fuseRight := false |}.

Definition mulSub (fused : bool) (z x y : float64) : float64 :=
  if fused then fusedMulSub z x y else fsub z (fmul x y).

Definition mulAdd (fused : bool) (z x y : float64) : float64 :=
  if fused then fusedMulAdd z x y else fadd z (fmul x y).

Definition handleInputWriteWith (f : Fusion) (g : Game) (keys : Keys)
    (deltaTime : float64) : Game * option netError :=
  let movement := {| X := S754_zero false; Y := S754_zero false |} in
  let lp := setIsMoving false (localPlayer g) in
  let speed := moveSpeed lp in
  let st := (movement, lp) in
  let st := pressKey (KeyUp keys)
              (fun m => {| X := X m;
                           Y := mulSub (fuseUp f) (Y m) speed deltaTime |})
              0 st in
  let st := pressKey (KeyDown keys)
              (fun m => {| X := X m;
                           Y := mulAdd (fuseDown f) (Y m) speed deltaTime |})
              2 st in
  let st := pressKey (KeyLeft keys)
              (fun m => {| X := mulSub (fuseLeft f) (X m) speed deltaTime;
                           Y := Y m |})
              1 st in
  let st := pressKey (KeyRight keys)
              (fun m => {| X := mulAdd (fuseRight f) (X m) speed deltaTime;
                           Y := Y m |})
              3 st in
  let (movement, lp) := st in
  let lp := setPosition
              {| X := fadd (X (position lp)) (X movement);
                 Y := fadd (Y (position lp)) (Y movement) |} lp in
  let (conn', err) := connWrite (conn g) (encode lp) in
  ({| localPlayer := lp; otherPlayers := otherPlayers g; conn := conn';
      tilesImage := tilesImage g; layers := layers g |}, err).

(** [deltaTime := 1.0 / 120.0], a constant expression. *)
Definition tickTime : float64 :=
  SFdiv prec emax (lit "1.0") (lit "120.0").

(** The method [Update] of [Game]: one tick.  The result is the game and the
    returned [error], with [None] for [nil]. *)
Definition Update (g : Game) (keys : Keys) : Game * option netError :=
  let deltaTime := tickTime in
  let g := handleInput g keys deltaTime in
  let lp := CharacterUpdate (localPlayer g) deltaTime in
  let others := (fun player => CharacterUpdate player deltaTime)
                  <$> otherPlayers g in
  ({| localPlayer := lp; otherPlayers := others; conn := conn g;
      tilesImage := tilesImage g; layers := layers g |}, None).

(** *** The receive loop

    Lines 203 to 209: the fields of one record.  There is no error
    result: a record that does not have five fields gives nothing, and
    the errors of the three parsers are dropped. *)
Record Decoded := {
  d_id : string; d_x : float64; d_y : float64;
  d_direction : Z; d_isMoving : bool }.

Definition decode (playerData : string) : option Decoded :=
  let data := Split playerData "," in
  if (length data =? 5)%nat then
    Some {| d_id := nth 0 data "";
            d_x := fst (ParseFloat (nth 1 data ""));
            d_y := fst (ParseFloat (nth 2 data ""));
            d_direction := fst (Atoi (nth 3 data ""));
            d_isMoving := fst (ParseBool (nth 4 data "")) |}
  else None.

Definition setOthers (g : Game) (others : gmap string Character) : Game :=
  {| localPlayer := localPlayer g; otherPlayers := others; conn := conn g;
     tilesImage := tilesImage g; layers := layers g |}.

(** Lines 211 to 218. *)
Definition apply (g : Game) (d : Decoded) : Game :=
  if String.eqb (d_id d) "local" then g
  else
    let pos := {| X := d_x d; Y := d_y d |} in
    let others :=
      match otherPlayers g !! d_id d with
      | Some _ => otherPlayers g
      | None =>
          <[d_id d := NewCharacter (bodyTexture (localPlayer g))
                        (headTexture (localPlayer g)) pos]> (otherPlayers g)
      end in
    let others := alter (setPosition pos) (d_id d) others in
    let others := alter (setDirection (d_direction d)) (d_id d) others in
    let others := alter (setIsMoving (d_isMoving d)) (d_id d) others in
    setOthers g others.

(** The body of the loop over [players]. *)
Definition applyRecord (g : Game) (playerData : string) : Game :=
  match decode playerData with
  | Some d => apply g d
  | None => g
  end.

(** One iteration of [receiveUpdates] after a successful read. *)
Definition receiveMessage (g : Game) (message : string) : Game :=
  fold_left applyRecord (Split (TrimSpace message) ";") g.

(** What [reader.ReadString] returns. *)
Inductive readResult := ReadOK (message : string) | ReadErr.

(** [receiveUpdates] on the results of its successive reads: the loop
    returns at the first error. *)
Fixpoint receiveUpdates (g : Game) (reads : list readResult) : Game :=
  match reads with
  | [] => g
  | ReadErr :: _ => g
  | ReadOK message :: reads' => receiveUpdates (receiveMessage g message) reads'
  end.

(** *** The two goroutines of the client, interleaved

    The update loop and the receive loop take the mutex around every
    access to [otherPlayers], so each event below is atomic. *)
Inductive event :=
| EvTick (keys : Keys)
| EvRead (r : readResult)
| EvBreak.

Record State := { game : Game; receiving : bool }.

Definition breakConn (g : Game) : Game :=
  {| localPlayer := localPlayer g; otherPlayers := otherPlayers g;
     conn := {| broken := true; attempts := attempts (conn g) |};
     tilesImage := tilesImage g; layers := layers g |}.

Definition step (st : State) (ev : event) : State :=
  match ev with
  | EvTick keys =>
      {| game := fst (Update (game st) keys); receiving := receiving st |}
  | EvRead (ReadOK message) =>
      if receiving st
      then {| game := receiveMessage (game st) message; receiving := true |}
      else st
  | EvRead ReadErr => {| game := game st; receiving := false |}
  | EvBreak => {| game := breakConn (game st); receiving := receiving st |}
  end.

Definition run (st : State) (evs : list event) : State :=
  fold_left step evs st.

Definition start (g : Game) : State := {| game := g; receiving := true |}.

(** What an update sets: position, direction and movement flag. *)
Definition pose (c : Character) : Vector2f * Z * bool :=
  (position c, direction c, isMoving c).

(** The identities whose update a message carries past the two tests
    of the loop: a record of five fields, an identity other than
    ["local"]. *)
Definition updateOf (playerData : string) : option string :=
  match decode playerData with
  | Some d => if String.eqb (d_id d) "local" then None else Some (d_id d)
  | None => None
  end.

Definition updatesIn (message : string) : list string :=
  omap updateOf (Split (TrimSpace message) ";").

(** The identities updated by a run of events; a message that arrives
    after the receive loop has returned is never read. *)
Fixpoint updatesOf (receiving : bool) (evs : list event) : list string :=
  match evs with
  | [] => []
  | EvRead (ReadOK message) :: evs' =>
      (if receiving then updatesIn message else [])
      ++ updatesOf receiving evs'
  | EvRead ReadErr :: evs' => updatesOf false evs'
  | _ :: evs' => updatesOf receiving evs'
  end.

End Client.

(** ** Drawing ([src/main.go])

    The calls made on the screen are recorded, in the order they are
    made. *)

Module Render.
Import Strconv Client.

Definition screenWidth : Z := 800.
Definition screenHeight : Z := 600.
Definition frameWidth : Z := 32.
Definition frameHeight : Z := 32.
Definition tileSize : Z := 256.

(** [+] and [*] on [int]. *)
Definition addInt (a b : Z) : Z := wrapInt (a + b).
Definition mulInt (a b : Z) : Z := wrapInt (a * b).

(** The conversion [float64(n)] of an [int], correctly rounded. *)
Definition floatOfInt (n : Z) : float64 := binary_normalize prec emax n 0 false.

(** An [image.Rectangle]: [Min] and [Max]. *)
Record Rectangle := { MinX : Z; MinY : Z; MaxX : Z; MaxY : Z }.

(** [image.Rect(x0, y0, x1, y1)]: the corners are put in order. *)
Definition Rect (x0 y0 x1 y1 : Z) : Rectangle :=
  {| MinX := if (x1 <? x0)%Z then x1 else x0;
     MinY := if (y1 <? y0)%Z then y1 else y0;
     MaxX := if (x1 <? x0)%Z then x0 else x1;
     MaxY := if (y1 <? y0)%Z then y0 else y1 |}.

(** One [screen.DrawImage(img.SubImage(r), op)]: the image, the
    rectangle asked of [SubImage], and the arguments of the one
    [op.GeoM.Translate] made on the fresh options. *)
Record DrawCall := {
  source : Image; region : Rectangle; tx : float64; ty : float64 }.

(** The method [Draw] of [Character]: the body, then the head. *)
Definition CharacterDraw (c : Character) (cameraOffset : Vector2f)
  : list DrawCall :=
  let bodyRow := if isMoving c then addInt (frameIndex c) 1 else 0%Z in
  let bodyRect :=
    Rect (mulInt frameWidth (direction c)) (mulInt frameHeight bodyRow)
         (mulInt frameWidth (addInt (direction c) 1))
         (mulInt frameHeight (addInt bodyRow 1)) in
  let headRect :=
    Rect 0 (mulInt frameHeight (direction c)) frameWidth
         (mulInt frameHeight (addInt (direction c) 1)) in
  [ {| source := bodyTexture c; region := bodyRect;
       tx := fsub (X (position c)) (X cameraOffset);
       ty := fsub (Y (position c)) (Y cameraOffset) |};
    {| source := headTexture c; region := headRect;
       tx := fsub (X (position c)) (X cameraOffset);
       ty := fsub (fsub (Y (position c)) (lit "16")) (Y cameraOffset) |} ].

Definition tileXCount : Z := 400.

(** [const xCount = screenWidth / tileSize], an integer division. *)
Definition xCount : Z := Z.quot screenWidth tileSize.

(** Where tile number [i] of a layer goes: [x] and [y] of lines 176
    and 177. *)
Definition tileOrigin (i : Z) : Z * Z :=
  (mulInt (Z.rem i xCount) tileSize, mulInt (Z.quot i xCount) tileSize).

(** The body of the inner loop of [drawBackground]. *)
Definition drawTile (tilesImage : Image) (cameraOffset : Vector2f)
    (i tile : Z) : DrawCall :=
  let (x, y) := tileOrigin i in
  let sx := mulInt (Z.rem tile tileXCount) tileSize in
  let sy := mulInt (Z.quot tile tileXCount) tileSize in
  {| source := tilesImage;
     region := Rect sx sy (addInt sx tileSize) (addInt sy tileSize);
     tx := fsub (floatOfInt x) (X cameraOffset);
     ty := fsub (floatOfInt y) (Y cameraOffset) |}.

Definition drawLayer (tilesImage : Image) (cameraOffset : Vector2f)
    (layer : list Z) : list DrawCall :=
  imap (λ i tile, drawTile tilesImage cameraOffset (Z.of_nat i) tile) layer.

Definition drawBackground (g : Game) (cameraOffset : Vector2f)
  : list DrawCall :=
  flat_map (drawLayer (tilesImage g) cameraOffset) (layers g).

(** The method [Draw] of [Game].  [screenWidth/2] and [screenHeight/2]
    are the constants 400 and 300.  The cached players are drawn in the
    order the map is ranged over (which Go leaves unspecified; here the
    order of [map_to_list]). *)
Definition GameDraw (g : Game) : list DrawCall :=
  let cameraOffset :=
    {| X := fsub (X (position (localPlayer g))) (lit "400");
       Y := fsub (Y (position (localPlayer g))) (lit "300") |} in
  drawBackground g cameraOffset
  ++ CharacterDraw (localPlayer g) cameraOffset
  ++ flat_map (λ kv, CharacterDraw kv.2 cameraOffset)
       (map_to_list (otherPlayers g)).

Definition Layout (outsideWidth outsideHeight : Z) : Z * Z :=
  (screenWidth, screenHeight).

End Render.

(** ** The relay ([src/unnamed/part_000]) *)

Module Relay.
Import Fmt.

(** A [net.Conn] accepted by the listener: a handle, the key of the
    registry. *)
Definition Conn := positive.

Record Server := { clients : gmap Conn string }.

Definition NewServer : Server := {| clients := ∅ |}.

(** Line 26: [Sprintf("player%d", len(s.clients)+1)]. *)
Definition clientID (s : Server) : string :=
  "player" ++ formatInt (Z.of_nat (size (clients s) + 1)).

(** Lines 27 to 29. *)
Definition register (s : Server) (conn : Conn) (id : string) : Server :=
  {| clients := <[conn := id]> (clients s) |}.

(** Lines 35 to 37. *)
Definition unregister (s : Server) (conn : Conn) : Server :=
  {| clients := delete conn (clients s) |}.

(** The registry's membership at one instant. *)
Definition snapshot (s : Server) : gset Conn := dom (clients s).

(** One [Fprint] of [broadcast] and whether it succeeded. *)
Record Write := { w_conn : Conn; w_data : string; w_ok : bool }.

Definition logSendError : string := "Error sending to client:".
Definition logReadError : string := "Error reading from client:".

(** [broadcast]: one write to every registered endpoint, in the order
    the map is ranged over (which Go leaves unspecified; here the order
    of [map_to_list]); a failed write adds a line to the log and nothing
    else.  [failing] tells for which endpoints [Fprint] fails. *)
Definition broadcast (s : Server) (message : string) (failing : gset Conn)
  : list Write * list string :=
  let targets := (map_to_list (clients s)).*1 in
  (map (fun c => {| w_conn := c; w_data := message;
                    w_ok := bool_decide (c ∉ failing) |}) targets,
   map (fun _ => logSendError)
       (filter (fun c => c ∈ failing) targets)).

(** Where one [handleClient] goroutine stands: before line 26, between line
    26 and the registration, in its read loop, or returned. *)
Inductive pc :=
| PcStart
| PcHasID (clientID : string)
| PcLoop (clientID : string)
| PcDone.

Record World := {
  server : Server;
  handlers : gmap Conn pc;
  writes : list Write;
  logs : list string }.

Definition init : World :=
  {| server := NewServer; handlers := ∅; writes := []; logs := [] |}.

(** The atomic actions of the relay: the listener accepts a connection
    and starts its goroutine; a goroutine computes its identity, registers, reads
    a message and broadcasts it, or sees its read fail. *)
Inductive event :=
| EvAccept (conn : Conn)
| EvComputeID (conn : Conn)
| EvRegister (conn : Conn)
| EvMessage (conn : Conn) (message : string) (failing : gset Conn)
| EvReadErr (conn : Conn).

Definition setHandler (w : World) (conn : Conn) (p : pc) : World :=
  {| server := server w; handlers := <[conn := p]> (handlers w);
     writes := writes w; logs := logs w |}.

Definition step (w : World) (ev : event) : option World :=
  match ev with
  | EvAccept conn =>
      match handlers w !! conn with
      | None => Some (setHandler w conn PcStart)
      | Some _ => None
      end
  | EvComputeID conn =>
      match handlers w !! conn with
      | Some PcStart => Some (setHandler w conn (PcHasID (clientID (server w))))
      | _ => None
      end
  | EvRegister conn =>
      match handlers w !! conn with
      | Some (PcHasID id) =>
          Some {| server := register (server w) conn id;
                  handlers := <[conn := PcLoop id]> (handlers w);
                  writes := writes w; logs := logs w |}
      | _ => None
      end
  | EvMessage conn message failing =>
      match handlers w !! conn with
      | Some (PcLoop id) =>
          let (ws, ls) :=
            broadcast (server w) (id ++ "," ++ message) failing in
          Some {| server := server w; handlers := handlers w;
                  writes := writes w ++ ws; logs := logs w ++ ls |}
      | _ => None
      end
  | EvReadErr conn =>
      match handlers w !! conn with
      | Some (PcLoop id) =>
          Some {| server := unregister (server w) conn;
                  handlers := <[conn := PcDone]> (handlers w);
                  writes := writes w; logs := logs w ++ [logReadError] |}
      | _ => None
      end
  end.

Fixpoint run (w : World) (evs : list event) : option World :=
  match evs with
  | [] => Some w
  | ev :: evs' =>
      match step w ev with
      | Some w' => run w' evs'
      | None => None
      end
  end.

(** The identity an event hands out, if it is a registration. *)
Definition issuedBy (w : World) (ev : event) : list string :=
  match ev with
  | EvRegister conn =>
      match handlers w !! conn with
      | Some (PcHasID id) => [id]
      | _ => []
      end
  | _ => []
  end.

(** The identities handed out by a run, oldest first. *)
Fixpoint issued (w : World) (evs : list event) : list string :=
  match evs with
  | [] => []
  | ev :: evs' =>
      match step w ev with
      | Some w' => issuedBy w ev ++ issued w' evs'
      | None => []
      end
  end.

End Relay.

(** * Strings, digits and the three parsers *)

Module TextFacts.
Import GoStrings Strconv Fmt.

Lemma append_cons (c : ascii) (s t : string) :
  (String c s ++ t)%string = String c (s ++ t).
Proof. reflexivity. Qed.

Lemma append_nil_l (s : string) : ("" ++ s)%string = s.
Proof. reflexivity. Qed.

Lemma append_nil_r (s : string) : (s ++ "")%string = s.
Proof. induction s as [|c s IH]; [done|]. by rewrite append_cons, IH. Qed.

Lemma append_assoc (s t u : string) :
  ((s ++ t) ++ u)%string = (s ++ (t ++ u))%string.
Proof. induction s as [|c s IH]; [done|]. by rewrite !append_cons, IH. Qed.

Lemma list_ascii_of_string_app (s t : string) :
  list_ascii_of_string (s ++ t)
  = list_ascii_of_string s ++ list_ascii_of_string t.
Proof.
  induction s as [|c s IH]; [done|]. rewrite append_cons. simpl. by rewrite IH.
Qed.

(** Every byte of a string passes a test. *)
Fixpoint allChars (P : ascii → bool) (s : string) : bool :=
match s with
| EmptyString => true
| String c rest => P c && allChars P rest
end.

Lemma allChars_app (P : ascii → bool) (s t : string) :
  allChars P (s ++ t) = allChars P s && allChars P t.
Proof.
  induction s as [|c s IH]; [done|].
  rewrite append_cons. simpl. by rewrite IH, andb_assoc.
Qed.

Lemma allChars_impl (P Q : ascii → bool) (s : string) :
  (∀ c, P c = true → Q c = true) →
  allChars P s = true → allChars Q s = true.
Proof.
  intros HPQ. induction s as [|c s IH]; [done|]. simpl.
  rewrite !andb_true_iff. intros [? ?]. auto.
Qed.

(** *** [Split] *)

Definition notSep (sep c : ascii) : bool := negb (Ascii.eqb c sep).

Lemma Split_no_sep (sep : ascii) (s : string) :
  allChars (notSep sep) s = true → Split s sep = [s].
Proof.
  induction s as [|c s IH]; [done|]. simpl. unfold notSep at 1.
  rewrite andb_true_iff, negb_true_iff. intros [Hc Hs].
  by rewrite Hc, (IH Hs).
Qed.

Lemma Split_app (sep : ascii) (s t : string) :
  allChars (notSep sep) s = true →
  Split (s ++ String sep t) sep = s :: Split t sep.
Proof.
  induction s as [|c s IH]; intros Hs.
  - rewrite append_nil_l. simpl. by rewrite Ascii.eqb_refl.
  - simpl in Hs. unfold notSep at 1 in Hs.
    apply andb_true_iff in Hs as [Hc Hs]. apply negb_true_iff in Hc.
    rewrite append_cons. simpl. by rewrite Hc, (IH Hs).
Qed.

(** *** [TrimSpace] *)

(** A printable ASCII byte other than the space. *)
Definition solid (c : ascii) : bool :=
  ((33 <=? N_of_ascii c) && (N_of_ascii c <=? 126))%N.

Lemma solid_not_space (c : ascii) :
  solid c = true →
  asciiSpace c = false
  ∧ (∀ b, isSpace2 (N_of_ascii c) b = false)
  ∧ (∀ b, isSpace2 b (N_of_ascii c) = false)
  ∧ (∀ b b', isSpace3 (N_of_ascii c) b b' = false)
  ∧ (∀ b b', isSpace3 b b' (N_of_ascii c) = false).
Proof.
  unfold solid, isSpace2, isSpace3. intros H.
  apply andb_true_iff in H as [Hlo Hhi].
  apply N.leb_le in Hlo, Hhi.
  assert (Hsp : asciiSpace c = false).
  { destruct c as [[] [] [] [] [] [] [] []]; try reflexivity;
      vm_compute in Hlo; vm_compute in Hhi; try done. }
  split; [done|].
  repeat split; intros;
    repeat match goal with
    | |- context [(?a =? ?b)%N] =>
        destruct (N.eqb_spec a b); try lia; simpl
    | |- context [(?a <=? ?b)%N] =>
        destruct (N.leb_spec a b); try lia; simpl
    end; rewrite ?andb_false_r, ?orb_false_r; try reflexivity.
Qed.

Lemma trimLeft_solid (c : ascii) (l : list ascii) :
  solid c = true → trimLeft (c :: l) = c :: l.
Proof.
  intros (Hsp & H2 & _ & H3 & _)%solid_not_space. simpl. rewrite Hsp.
  destruct l as [|c2 [|c3 l]]; [done|by rewrite H2|by rewrite H2, H3].
Qed.

Lemma trimLeftRev_solid (c : ascii) (l : list ascii) :
  solid c = true → trimLeftRev (c :: l) = c :: l.
Proof.
  intros (Hsp & _ & H2 & _ & H3)%solid_not_space. simpl. rewrite Hsp.
  destruct l as [|c2 [|c3 l]]; [done|by rewrite H2|by rewrite H2, H3].
Qed.

(** A line that starts and ends with a solid byte loses its final
    newline and nothing else. *)
Lemma TrimSpace_line (c0 cl : ascii) (mid : string) :
  solid c0 = true → solid cl = true →
  TrimSpace (String c0 (mid ++ String cl (String "010" "")))
  = String c0 (mid ++ String cl "").
Proof.
  intros H0 Hl. unfold TrimSpace, trimRight.
  cbn [list_ascii_of_string]. rewrite trimLeft_solid by done.
  rewrite list_ascii_of_string_app. cbn [list_ascii_of_string].
  change (c0 :: list_ascii_of_string mid ++ [cl; "010"%char])
    with ((c0 :: list_ascii_of_string mid) ++ [cl; "010"%char]).
  rewrite rev_app_distr.
  change (rev [cl; "010"%char]) with ["010"%char; cl].
  change (trimLeftRev (["010"%char; cl] ++ rev (c0 :: list_ascii_of_string mid)))
    with (trimLeftRev (cl :: rev (c0 :: list_ascii_of_string mid))).
  rewrite trimLeftRev_solid by done.
  change (cl :: rev (c0 :: list_ascii_of_string mid))
    with ([cl] ++ rev (c0 :: list_ascii_of_string mid)).
  rewrite rev_app_distr, rev_involutive. simpl.
  rewrite <- (string_of_list_ascii_of_string (String c0 (mid ++ String cl ""))).
  f_equal. cbn [list_ascii_of_string].
  by rewrite list_ascii_of_string_app.
Qed.

(** *** Decimal digits *)

(** The number a run of digits adds to an accumulator. *)
Fixpoint digitsVal (s : string) (acc : N) : N :=
match s with
| EmptyString => acc
| String c rest => digitsVal rest (acc * 10 + digitVal c)%N
end.

Lemma digitsVal_app (s t : string) (acc : N) :
  digitsVal (s ++ t) acc = digitsVal t (digitsVal s acc).
Proof.
  revert acc. induction s as [|c s IH]; intros acc; [done|].
  rewrite append_cons. simpl. apply IH.
Qed.

Lemma readDigits_digitsVal (s : string) (acc : N) :
  allChars isDigit s = true → readDigits s acc = Some (digitsVal s acc).
Proof.
  revert acc. induction s as [|c s IH]; intros acc; [done|]. simpl.
  rewrite andb_true_iff. intros [Hc Hs]. rewrite Hc. by apply IH.
Qed.

Lemma digitChar_spec (d : N) :
  (d < 10)%N →
  isDigit (digitChar d) = true ∧ digitVal (digitChar d) = d.
Proof.
  intros Hd. unfold isDigit, digitVal, digitChar.
  rewrite N_ascii_embedding by lia.
  split; [|lia].
  apply andb_true_iff. split; apply N.leb_le; lia.
Qed.

(** What a digit is not. *)
Lemma isDigit_cases (c : ascii) :
  isDigit c = true →
  solid c = true
  ∧ Ascii.eqb c "_" = false ∧ Ascii.eqb c "." = false
  ∧ Ascii.eqb c "+" = false ∧ Ascii.eqb c "-" = false
  ∧ Ascii.eqb c "," = false ∧ Ascii.eqb c ";" = false
  ∧ (lower c =? 120)%N = false
  ∧ (Ascii.eqb c "0" = true → digitVal c = 0%N).
Proof.
  destruct c as [[] [] [] [] [] [] [] []]; intros H;
    try discriminate H; repeat split; try reflexivity; try discriminate.
Qed.

Lemma formatUintAux_spec (fuel : nat) (n : N) (acc : string) :
  (0 < fuel)%nat → (n < 10 ^ N.of_nat fuel)%N →
  ∃ ds c,
    formatUintAux fuel n acc = (String c ds ++ acc)%string
    ∧ allChars isDigit (String c ds) = true
    ∧ ∀ a, digitsVal (String c ds) a
           = (a * 10 ^ N.of_nat (String.length (String c ds)) + n)%N.
Proof.
  revert n acc. induction fuel as [|fuel IH]; intros n acc Hfuel Hn; [lia|].
  cbn [formatUintAux]. destruct (N.ltb_spec n 10) as [Hlt|Hge].
  - exists "", (digitChar n).
    destruct (digitChar_spec n Hlt) as [Hd Hv].
    split; [done|]. split; [simpl; by rewrite Hd|].
    intros a. simpl. rewrite Hv. change (10 ^ N.of_nat 1)%N with 10%N. lia.
  - assert (Hq : (n / 10 < 10 ^ N.of_nat fuel)%N).
    { apply N.Div0.div_lt_upper_bound.
      replace (N.of_nat (S fuel)) with (N.succ (N.of_nat fuel)) in Hn by lia.
      rewrite N.pow_succ_r' in Hn. lia. }
    assert (Hfuel' : (0 < fuel)%nat).
    { destruct fuel; [|lia]. simpl in Hq.
      assert (1 ≤ n / 10)%N by (apply N.div_le_lower_bound; lia). lia. }
    assert (Hm : (n mod 10 < 10)%N) by (apply N.mod_lt; lia).
    destruct (digitChar_spec _ Hm) as [Hd Hv].
    destruct (IH (n / 10)%N (String (digitChar (n mod 10)) acc) Hfuel' Hq)
      as (ds & c & Heq & Hall & Hval).
    exists (ds ++ String (digitChar (n mod 10)) "")%string, c.
    split; [|split].
    + rewrite Heq, !append_cons. f_equal.
      by rewrite append_assoc, append_cons, append_nil_l.
    + simpl in Hall. apply andb_true_iff in Hall as [Hc Hds].
      simpl. rewrite Hc, allChars_app, Hds. simpl. by rewrite Hd.
    + intros a.
      change (String c (ds ++ String (digitChar (n mod 10)) ""))%string
        with (String c ds ++ String (digitChar (n mod 10)) "")%string.
      rewrite digitsVal_app, Hval. simpl digitsVal at 1. rewrite Hv.
      replace (String.length (String c ds ++ String (digitChar (n mod 10)) ""))
        with (S (String.length (String c ds))).
      2:{ clear. generalize (String c ds). intros s.
          induction s as [|x s IH]; [done|].
          rewrite append_cons. simpl. by rewrite <- IH. }
      replace (N.of_nat (S (String.length (String c ds))))
        with (N.succ (N.of_nat (String.length (String c ds)))) by lia.
      rewrite N.pow_succ_r'. cbn [String.length].
      pose proof (N.div_mod n 10 ltac:(lia)). lia.
Qed.

Lemma formatUint_spec (n : N) :
  ∃ ds c,
    formatUint n = String c ds
    ∧ allChars isDigit (String c ds) = true
    ∧ ∀ a, digitsVal (String c ds) a
           = (a * 10 ^ N.of_nat (String.length (String c ds)) + n)%N.
Proof.
  unfold formatUint.
  destruct (formatUintAux_spec (S (N.to_nat (N.log2 n))) n "")
    as (ds & c & Heq & Hall & Hval); [lia| |].
  - replace (N.of_nat (S (N.to_nat (N.log2 n)))) with (N.succ (N.log2 n))
      by lia.
    destruct (N.eq_dec n 0%N) as [->|Hn]; [done|].
    pose proof (N.log2_spec n ltac:(lia)) as [_ Hlog].
    eapply N.lt_le_trans; [exact Hlog|].
    apply N.pow_le_mono_l. lia.
  - exists ds, c. rewrite append_nil_r in Heq. auto.
Qed.

Lemma formatUint_value (n : N) : digitsVal (formatUint n) 0 = n.
Proof.
  destruct (formatUint_spec n) as (ds & c & -> & _ & Hval).
  rewrite Hval. lia.
Qed.

(** *** [Atoi] and [ParseBool] read back what [%d] and [%v] print *)

Lemma pickSign_digit (c : ascii) (s : string) :
  isDigit c = true → pickSign (String c s) = (None, String c s).
Proof.
  destruct c as [[] [] [] [] [] [] [] []]; intros H;
    try discriminate H; reflexivity.
Qed.

Lemma digitsVal_le (s : string) (acc : N) : (acc ≤ digitsVal s acc)%N.
Proof.
  revert acc. induction s as [|c s IH]; intros acc; simpl; [lia|].
  specialize (IH (acc * 10 + digitVal c)%N). lia.
Qed.

Lemma parseUintLoop_digits (s : string) (acc : N) :
  allChars isDigit s = true → (digitsVal s acc ≤ maxUint64)%N →
  parseUintLoop s acc = (digitsVal s acc, None).
Proof.
  revert acc. induction s as [|c s IH]; intros acc; [done|].
  cbn [allChars parseUintLoop digitsVal].
  rewrite andb_true_iff. intros [Hc Hs] Hle. rewrite Hc.
  pose proof (digitsVal_le s (acc * 10 + digitVal c)%N) as Hmono.
  assert (Hacc : (acc * 10 + digitVal c ≤ maxUint64)%N) by lia.
  change (maxUint64 / 10 + 1)%N with 1844674407370955162%N.
  unfold maxUint64 in Hacc.
  destruct (N.leb_spec 1844674407370955162 acc) as [Hbig|_]; [lia|].
  cbv zeta.
  destruct (N.ltb_spec maxUint64 (acc * 10 + digitVal c)) as [Hbig|_];
    [unfold maxUint64 in Hbig; lia|].
  by apply IH.
Qed.

Lemma Atoi_signed_digits (sign : option bool) (digits s : string) :
  digits ≠ "" → allChars isDigit digits = true →
  pickSign s = (sign, digits) →
  let neg := match sign with Some true => true | _ => false end in
  let v := if neg then (- Z.of_N (digitsVal digits 0))%Z
           else Z.of_N (digitsVal digits 0) in
  (minInt ≤ v ≤ maxInt)%Z →
  Atoi s = (v, None).
Proof.
  intros Hne Hall Hsign neg v Hv. unfold Atoi.
  assert (Hle : (digitsVal digits 0 ≤ 2 ^ 63)%N).
  { unfold v, minInt, maxInt in Hv. destruct neg; lia. }
  destruct ((0 <? String.length s) && (String.length s <? 19))%nat.
  - rewrite Hsign, (readDigits_digitsVal _ _ Hall).
    destruct digits as [|c digits]; [done|].
    unfold v, neg. by destruct sign as [[]|].
  - unfold ParseInt. rewrite Hsign.
    assert (Hs : s ≠ "").
    { intros ->. cbn in Hsign. congruence. }
    destruct s as [|c0 s]; [done|].
    unfold ParseUint.
    rewrite parseUintLoop_digits by (try done; unfold maxUint64; lia).
    destruct digits as [|c digits]; [done|].
    fold neg. unfold v, minInt, maxInt in Hv.
    destruct neg.
    + destruct (N.ltb_spec (2 ^ 63) (digitsVal (String c digits) 0));
        [lia|]. reflexivity.
    + destruct (N.leb_spec (2 ^ 63) (digitsVal (String c digits) 0));
        [lia|]. reflexivity.
Qed.

Lemma Atoi_formatInt (z : Z) :
  (minInt ≤ z ≤ maxInt)%Z → Atoi (formatInt z) = (z, None).
Proof.
  intros Hz. unfold formatInt.
  pose proof (formatUint_value (Z.abs_N z)) as Hval.
  destruct (formatUint_spec (Z.abs_N z)) as (ds & c & Heq & Hall & _).
  destruct (Z.ltb_spec z 0) as [Hneg|Hpos].
  - rewrite (Atoi_signed_digits (Some true) (formatUint (Z.abs_N z)));
      rewrite ?Hval; try done.
    + f_equal. lia.
    + rewrite Heq. discriminate.
    + by rewrite Heq.
    + lia.
  - rewrite (Atoi_signed_digits None (formatUint (Z.abs_N z)));
      rewrite ?Hval; try done.
    + f_equal. lia.
    + rewrite Heq. discriminate.
    + by rewrite Heq.
    + rewrite Heq. apply pickSign_digit.
      simpl in Hall. by apply andb_true_iff in Hall as [Hc _].
    + lia.
Qed.

Lemma ParseBool_formatBool (b : bool) :
  ParseBool (formatBool b) = (b, None).
Proof. by destruct b. Qed.

(** *** [ParseFloat] reads back what [%.2f] prints *)

Lemma special_digit (c : ascii) (s : string) :
  isDigit c = true →
  special (String c s) = None ∧ special (String "-" (String c s)) = None.
Proof.
  destruct c as [[] [] [] [] [] [] [] []]; intros H;
    try discriminate H; split; reflexivity.
Qed.

(** The mantissa state is well formed: no digit counted, no value. *)
Definition goodMant (st : mantState) : Prop :=
  (nd st = 0%Z → mantissa st = 0%N) ∧ (0 ≤ nd st)%Z.

Definition stepDigit (c : ascii) (st : mantState) : mantState :=
  if (Ascii.eqb c "0" && (nd st =? 0)%Z)%bool
  then mantLeadingZero st else mantDigit 10 (digitVal c) st.

Lemma readMantissa_digit (c : ascii) (rest : string) (st : mantState) :
  isDigit c = true →
  readMantissa false (String c rest) st
  = readMantissa false rest (stepDigit c st).
Proof.
  intros Hc. destruct (isDigit_cases c Hc) as (_ & Hu & Hd & _).
  cbn [readMantissa]. rewrite Hu, Hd, Hc. unfold stepDigit.
  by destruct (Ascii.eqb c "0" && (nd st =? 0)%Z)%bool.
Qed.

Lemma stepDigit_spec (c : ascii) (st : mantState) :
  isDigit c = true → goodMant st →
  goodMant (stepDigit c st)
  ∧ mantissa (stepDigit c st) = (mantissa st * 10 + digitVal c)%N
  ∧ sawdot (stepDigit c st) = sawdot st
  ∧ underscores (stepDigit c st) = underscores st
  ∧ sawdigits (stepDigit c st) = true
  ∧ (dp (stepDigit c st) - nd (stepDigit c st) = dp st - nd st - 1)%Z.
Proof.
  intros Hc [Hzero Hnd]. unfold stepDigit, goodMant.
  destruct (isDigit_cases c Hc) as (_ & _ & _ & _ & _ & _ & _ & _ & Hval).
  destruct (Ascii.eqb c "0") eqn:Hc0; simpl.
  - destruct (Z.eqb_spec (nd st) 0) as [Hnd0|Hnd0]; simpl.
    + rewrite (Hval eq_refl), (Hzero Hnd0). repeat split; auto; lia.
    + repeat split; auto; lia.
  - repeat split; auto; lia.
Qed.

Lemma readMantissa_digits (ds rest : string) (st : mantState) :
  allChars isDigit ds = true → goodMant st →
  ∃ st',
    readMantissa false (ds ++ rest) st = readMantissa false rest st'
    ∧ goodMant st'
    ∧ mantissa st' = digitsVal ds (mantissa st)
    ∧ sawdot st' = sawdot st
    ∧ underscores st' = underscores st
    ∧ (sawdigits st = true ∨ ds ≠ "" → sawdigits st' = true)
    ∧ (dp st' - nd st' = dp st - nd st - Z.of_nat (String.length ds))%Z.
Proof.
  revert st. induction ds as [|c ds IH]; intros st Hall Hgood.
  - exists st. rewrite append_nil_l. simpl.
    repeat split; try apply Hgood; try lia. by intros [?|?].
  - simpl in Hall. apply andb_true_iff in Hall as [Hc Hds].
    destruct (stepDigit_spec c st Hc Hgood)
      as (Hgood1 & Hm1 & Hdot1 & Hus1 & Hsd1 & Hdp1).
    destruct (IH (stepDigit c st) Hds Hgood1)
      as (st' & Hrun & Hgood' & Hm' & Hdot' & Hus' & Hsd' & Hdp').
    exists st'. rewrite append_cons, readMantissa_digit by done.
    split; [done|]. split; [done|]. split; [|split; [|split; [|split]]].
    + simpl. by rewrite Hm', Hm1.
    + congruence.
    + congruence.
    + intros _. apply Hsd'. by left.
    + cbn [String.length]. lia.
Qed.

Lemma hasHexPrefix_none (c x : ascii) (r : string) :
  (lower x =? 120)%N = false → hasHexPrefix (String c (String x r)) = None.
Proof.
  intros Hx. unfold hasHexPrefix.
  destruct c as [[] [] [] [] [] [] [] []]; try reflexivity.
  destruct r; [reflexivity|]. by rewrite Hx.
Qed.

Lemma hundredths_digits (n : N) :
  ((n / 100 * 10 + (n / 10) mod 10) * 10 + n mod 10 = n)%N.
Proof.
  pose proof (N.div_mod n 10 ltac:(lia)) as H1.
  pose proof (N.div_mod (n / 10) 10 ltac:(lia)) as H2.
  rewrite N.Div0.div_div in H2. change (10 * 10)%N with 100%N in H2. lia.
Qed.

Lemma readMantissa_dot (rest : string) (st : mantState) :
  sawdot st = false →
  readMantissa false (String "." rest) st
  = readMantissa false rest (mantDot st).
Proof. intros H. cbn [readMantissa]. by rewrite H. Qed.

(** The digits of [fixed2 n], read as a mantissa: the value is [n], two
    digits after the point. *)
Lemma readMantissa_fixed2 (n : N) :
  ∃ st,
    readMantissa false (fixed2 n) mantInit = (st, "")
    ∧ mantissa st = n ∧ sawdot st = true ∧ sawdigits st = true
    ∧ underscores st = false ∧ (dp st - nd st = -2)%Z.
Proof.
  unfold fixed2.
  destruct (formatUint_spec (n / 100)) as (ds & c & -> & Hall & Hval).
  assert (Hgood0 : goodMant mantInit) by (split; simpl; [done|lia]).
  destruct (readMantissa_digits (String c ds)
              (String "." (String (digitChar ((n / 10) mod 10))
                             (String (digitChar (n mod 10)) "")))
              mantInit Hall Hgood0)
    as (st1 & Hrun1 & Hgood1 & Hm1 & Hdot1 & Hus1 & Hsd1 & Hdp1).
  simpl in Hdot1, Hus1, Hdp1.
  rewrite Hrun1, (readMantissa_dot _ _ Hdot1).
  assert (Hd1 : ((n / 10) mod 10 < 10)%N) by (apply N.mod_lt; lia).
  assert (Hd2 : (n mod 10 < 10)%N) by (apply N.mod_lt; lia).
  destruct (digitChar_spec _ Hd1) as [Hc1 Hv1].
  destruct (digitChar_spec _ Hd2) as [Hc2 Hv2].
  assert (Hgood2 : goodMant (mantDot st1)) by exact Hgood1.
  assert (Hall2 : allChars isDigit
                    (String (digitChar ((n / 10) mod 10))
                       (String (digitChar (n mod 10)) "")) = true).
  { simpl. by rewrite Hc1, Hc2. }
  destruct (readMantissa_digits _ "" (mantDot st1) Hall2 Hgood2)
    as (st3 & Hrun3 & Hgood3 & Hm3 & Hdot3 & Hus3 & Hsd3 & Hdp3).
  rewrite append_nil_r in Hrun3. rewrite Hrun3. exists st3.
  split; [done|]. split; [|split; [|split; [|split]]].
  - rewrite Hm3. simpl. rewrite Hv1, Hv2, Hm1, Hval. simpl mantissa.
    rewrite N.mul_0_l, N.add_0_l. apply hundredths_digits.
  - by rewrite Hdot3.
  - apply Hsd3. right. discriminate.
  - rewrite Hus3. exact Hus1.
  - rewrite Hdp3. simpl. lia.
Qed.

Lemma readUnsigned_fixed2 (neg : bool) (n : N) :
  readUnsigned neg (fixed2 n)
  = Some {| r_mantissa := n;
            r_exp := if (n =? 0)%N then 0%Z else (-2)%Z;
            r_neg := neg; r_hex := false; r_underscores := false;
            r_rest := "" |}.
Proof.
  destruct (readMantissa_fixed2 n) as (st & Hrun & Hm & Hdot & Hsd & Hus & Hdp).
  unfold readUnsigned.
  assert (Hhex : hasHexPrefix (fixed2 n) = None).
  { unfold fixed2.
    destruct (formatUint_spec (n / 100)) as (ds & c & -> & Hall & _).
    simpl in Hall. apply andb_true_iff in Hall as [_ Hds].
    destruct ds as [|x ds]; rewrite append_cons.
    - rewrite append_nil_l. by apply hasHexPrefix_none.
    - rewrite append_cons. apply hasHexPrefix_none.
      simpl in Hds. apply andb_true_iff in Hds as [Hx _].
      by destruct (isDigit_cases x Hx) as (_ & _ & _ & _ & _ & _ & _ & ? & _). }
  rewrite Hhex, Hrun, Hsd, Hdot, Hus, Hm. simpl.
  do 2 f_equal. destruct (n =? 0)%N; [done|]. lia.
Qed.

Lemma fixed2_first (n : N) :
  ∃ c rest, fixed2 n = String c rest ∧ isDigit c = true.
Proof.
  unfold fixed2.
  destruct (formatUint_spec (n / 100)) as (ds & c & -> & Hall & _).
  simpl in Hall. apply andb_true_iff in Hall as [Hc _].
  rewrite append_cons. eauto.
Qed.

Lemma decimalToFloat_zero_exp (neg : bool) (n : N) :
  decimalToFloat neg n (if (n =? 0)%N then 0%Z else (-2)%Z)
  = decimalToFloat neg n (-2).
Proof. by destruct n. Qed.

Lemma ParseFloat_fixed2 (neg : bool) (n : N) :
  fst (ParseFloat ((if neg then "-" else "") ++ fixed2 n))
  = decimalToFloat neg n (-2).
Proof.
  destruct (fixed2_first n) as (c & rest & Heq & Hc).
  destruct (special_digit c rest Hc) as [Hsp Hsn].
  destruct (isDigit_cases c Hc) as (_ & _ & _ & Hplus & Hminus & _).
  pose proof (readUnsigned_fixed2 neg n) as Hread.
  unfold ParseFloat. destruct neg.
  - change ("-" ++ fixed2 n)%string with (String "-" (fixed2 n)).
    rewrite Heq, Hsn, <- Heq.
    change (readFloat (String "-" (fixed2 n)))
      with (readUnsigned true (fixed2 n)).
    rewrite Hread. simpl. apply decimalToFloat_zero_exp.
  - rewrite append_nil_l, Heq, Hsp.
    unfold readFloat. rewrite Hplus, Hminus, <- Heq, Hread. simpl.
    apply decimalToFloat_zero_exp.
Qed.

(** [ParseFloat] of what [%.2f] prints. *)
Lemma ParseFloat_formatFloat2 (x : float64) :
  fst (ParseFloat (formatFloat2 x)) = round2 x.
Proof.
  destruct x as [s|s| |s m e].
  - by destruct s.
  - by destruct s.
  - reflexivity.
  - apply ParseFloat_fixed2.
Qed.

(** [round100] is a nearest integer to [m * 2 ^ e * 100]: below the
    point it is off by at most one half. *)
Lemma round100_nearest (m : positive) (e : Z) :
  if (0 <=? e)%Z
  then Z.of_N (round100 m e) = (Zpos m * 2 ^ e * 100)%Z
  else (2 * Z.abs (Z.of_N (round100 m e) * 2 ^ (- e) - Zpos m * 100)
        ≤ 2 ^ (- e))%Z.
Proof.
  unfold round100. destruct (Z.leb_spec 0 e) as [He|He].
  - rewrite !N2Z.inj_mul, N2Z.inj_pow, Z2N.id by lia. reflexivity.
  - set (den := (2 ^ Z.to_N (- e))%N). set (num := (N.pos m * 100)%N).
    assert (Hden : (2 ^ (- e))%Z = Z.of_N den).
    { unfold den. rewrite N2Z.inj_pow, Z2N.id by lia. reflexivity. }
    assert (Hnum : (Z.pos m * 100)%Z = Z.of_N num) by (unfold num; lia).
    rewrite Hden, Hnum.
    assert (Hpos : (0 < den)%N).
    { unfold den. apply N.neq_0_lt_0, N.pow_nonzero. lia. }
    pose proof (N.div_mod num den ltac:(lia)) as Hdm.
    pose proof (N.mod_lt num den ltac:(lia)) as Hlt.
    set (q := (num / den)%N) in *. set (r := (num mod den)%N) in *.
    destruct (N.compare_spec (2 * r) den) as [Heq|Hl|Hg];
      [destruct (N.even q)| |]; nia.
Qed.

(** *** The model against values Go is known to give *)

Example ParseFloat_samples :
  ParseFloat "0.1" = (S754_finite false 7205759403792794 (-56), None)
  ∧ ParseFloat "1e23" = (S754_finite false 5960464477539062 24, None)
  ∧ ParseFloat "1.7976931348623157e308"
    = (S754_finite false 9007199254740991 971, None)
  ∧ ParseFloat "1e400" = (S754_infinity false, Some ErrRange)
  ∧ ParseFloat "2e-324" = (S754_zero false, None)
  ∧ ParseFloat "0x1p-2" = ParseFloat "0.25"
  ∧ ParseFloat "1_23.50_0e+1_2" = ParseFloat "1.235e+14"
  ∧ ParseFloat "123.5e+12_" = (S754_zero false, Some ErrSyntax)
  ∧ ParseFloat "-Infinity" = (S754_infinity true, None)
  ∧ ParseFloat "infinit" = (S754_zero false, Some ErrSyntax)
  ∧ ParseFloat "1 " = (S754_zero false, Some ErrSyntax).
Proof. repeat split; vm_compute; reflexivity. Qed.

Example formatFloat2_samples :
  formatFloat2 (fst (ParseFloat "0.125")) = "0.12"
  ∧ formatFloat2 (fst (ParseFloat "0.375")) = "0.38"
  ∧ formatFloat2 (fst (ParseFloat "2.675")) = "2.67"
  ∧ formatFloat2 (fst (ParseFloat "999.995")) = "1000.00"
  ∧ formatFloat2 (fst (ParseFloat "-0.001")) = "-0.00"
  ∧ formatFloat2 (fst (ParseFloat "1e22")) = "10000000000000000000000.00".
Proof. repeat split; vm_compute; reflexivity. Qed.

Example Atoi_samples :
  Atoi "007" = (7%Z, None)
  ∧ Atoi "-" = (0%Z, Some ErrSyntax)
  ∧ Atoi "1_0" = (0%Z, Some ErrSyntax)
  ∧ Atoi "9223372036854775808" = (maxInt, Some ErrRange)
  ∧ Atoi "-9223372036854775808" = (minInt, None)
  ∧ Atoi "18446744073709551615x" = (0%Z, Some ErrSyntax)
  ∧ Atoi "99999999999999999999x" = (maxInt, Some ErrRange)
  ∧ Atoi "-99999999999999999999x" = (minInt, Some ErrRange).
Proof. repeat split; vm_compute; reflexivity. Qed.

Example TrimSpace_samples :
  TrimSpace (String "009" (String " " ("a b" ++ String "013" (String "010" ""))))
  = "a b"
  ∧ TrimSpace (String "194" (String "160" ("x" ++ String "226" (String "128"
                 (String "137" ""))))) = "x"
  ∧ Split "a,b,,c" "," = ["a"; "b"; ""; "c"]
  ∧ Split "" "," = [""].
Proof. repeat split; vm_compute; reflexivity. Qed.

(** *** The bytes of a field *)

Definition fieldChar (c : ascii) : bool :=
  solid c && notSep "," c && notSep ";" c.

Lemma isDigit_fieldChar (c : ascii) : isDigit c = true → fieldChar c = true.
Proof.
  intros (Hs & _ & _ & _ & _ & Hc & Hsc & _)%isDigit_cases.
  unfold fieldChar, notSep. by rewrite Hs, Hc, Hsc.
Qed.

Lemma formatUint_fieldChars (n : N) :
  allChars fieldChar (formatUint n) = true ∧ formatUint n ≠ "".
Proof.
  destruct (formatUint_spec n) as (ds & c & -> & Hall & _).
  split; [|discriminate].
  eapply allChars_impl; [apply isDigit_fieldChar | exact Hall].
Qed.

Lemma formatInt_fieldChars (z : Z) :
  allChars fieldChar (formatInt z) = true ∧ formatInt z ≠ "".
Proof.
  unfold formatInt.
  destruct (formatUint_fieldChars (Z.abs_N z)) as [H Hne].
  destruct (z <? 0)%Z; [|done]. split; [|discriminate].
  simpl. by rewrite H.
Qed.

Lemma fixed2_fieldChars (n : N) : allChars fieldChar (fixed2 n) = true.
Proof.
  unfold fixed2. destruct (formatUint_fieldChars (n / 100)) as [H _].
  rewrite allChars_app, H. simpl.
  assert (Hd1 : ((n / 10) mod 10 < 10)%N) by (apply N.mod_lt; lia).
  assert (Hd2 : (n mod 10 < 10)%N) by (apply N.mod_lt; lia).
  destruct (digitChar_spec _ Hd1) as [Hc1 _].
  destruct (digitChar_spec _ Hd2) as [Hc2 _].
  by rewrite (isDigit_fieldChar _ Hc1), (isDigit_fieldChar _ Hc2).
Qed.

Lemma formatFloat2_fieldChars (x : float64) :
  allChars fieldChar (formatFloat2 x) = true.
Proof.
  destruct x as [s|s| |s m e]; try (by destruct s); [done|].
  simpl. destruct s.
  - change ("-" ++ fixed2 (round100 m e))%string
      with (String "-" (fixed2 (round100 m e))).
    simpl. by rewrite fixed2_fieldChars.
  - rewrite append_nil_l. apply fixed2_fieldChars.
Qed.

Lemma fieldChars_split (s : string) :
  allChars fieldChar s = true →
  allChars solid s = true
  ∧ allChars (notSep ",") s = true ∧ allChars (notSep ";") s = true.
Proof.
  intros H. repeat split; (eapply allChars_impl; [|exact H]);
    unfold fieldChar; intros c Hc;
    apply andb_true_iff in Hc as [Hc ?];
    apply andb_true_iff in Hc as [? ?]; done.
Qed.

(** A string that is not empty has a first and a last byte. *)
Lemma last_char (s : string) :
  s ≠ "" → ∃ s' cl, s = (s' ++ String cl "")%string.
Proof.
  induction s as [|c s IH]; [done|]. intros _.
  destruct s as [|c' s'].
  - by exists "", c.
  - destruct IH as (t & cl & Heq); [discriminate|].
    exists (String c t), cl. by rewrite append_cons, <- Heq.
Qed.

(** A line made of two fields with anything in between loses its final
    newline and nothing else. *)
Lemma TrimSpace_fields (a mid b : string) :
  a ≠ "" → b ≠ "" → allChars solid a = true → allChars solid b = true →
  TrimSpace (a ++ mid ++ b ++ String "010" "") = (a ++ mid ++ b)%string.
Proof.
  intros Ha Hb Hsa Hsb.
  destruct a as [|c0 a']; [done|].
  destruct (last_char b Hb) as (b' & cl & ->).
  simpl in Hsa. apply andb_true_iff in Hsa as [Hc0 _].
  rewrite allChars_app in Hsb. apply andb_true_iff in Hsb as [_ Hcl].
  simpl in Hcl. rewrite andb_true_r in Hcl.
  replace (String c0 a' ++ mid ++ (b' ++ String cl "") ++ String "010" "")%string
    with (String c0 ((a' ++ mid ++ b') ++ String cl (String "010" ""))).
  2:{ by rewrite !append_cons, !append_assoc. }
  rewrite TrimSpace_line by done.
  by rewrite !append_cons, !append_assoc.
Qed.

End TextFacts.

(** * Properties of the relay *)

Module RelayFacts.
Import Relay.

(** C9.  Removing an endpoint from the registry twice leaves the
    registry as removing it once does, and removing an endpoint that is
    not registered leaves the registry as it is: [unregister] has no
    error result. *)
Theorem unregister_idempotent (s : Server) (conn : Conn) :
  unregister (unregister s conn) conn = unregister s conn
  ∧ (clients s !! conn = None → unregister s conn = s).
Proof.
  unfold unregister; destruct s as [m]; simpl; split.
  - f_equal. apply map_eq; intros k.
    destruct (decide (k = conn)) as [->|Hne];
      [by rewrite !lookup_delete_eq | by rewrite !lookup_delete_ne].
  - intros Hnone. f_equal. by apply delete_id.
Qed.

Lemma unregister_idempotent_witness :
  unregister (unregister NewServer 7%positive) 7%positive
    = unregister NewServer 7%positive
  ∧ unregister NewServer 7%positive = NewServer.
Proof.
  split.
  - exact (proj1 (unregister_idempotent NewServer 7%positive)).
  - apply (proj2 (unregister_idempotent NewServer 7%positive)).
    reflexivity.
Defined.

(** *** The fan-out *)

Lemma writes_conn (message : string) (failing : gset Conn) (l : list Conn) :
  w_conn <$> map (λ c, {| w_conn := c; w_data := message;
                          w_ok := bool_decide (c ∉ failing) |}) l = l.
Proof.
  induction l as [|c l IH]; [done|].
  change (c :: (w_conn <$> map (λ c, {| w_conn := c; w_data := message;
            w_ok := bool_decide (c ∉ failing) |}) l) = c :: l).
  by f_equal.
Qed.

Lemma writes_data (message : string) (failing : gset Conn) (l : list Conn) :
  Forall (λ wr, w_data wr = message
                ∧ w_ok wr = bool_decide (w_conn wr ∉ failing))
    (map (λ c, {| w_conn := c; w_data := message;
                  w_ok := bool_decide (c ∉ failing) |}) l).
Proof. induction l as [|c l IH]; simpl; constructor; auto. Qed.

Lemma broadcast_writes (s : Server) (message : string) (failing : gset Conn) :
  let ws := (broadcast s message failing).1 in
  Forall (λ wr, w_data wr = message
                ∧ w_ok wr = bool_decide (w_conn wr ∉ failing)) ws
  ∧ NoDup (w_conn <$> ws)
  ∧ (∀ c, c ∈ w_conn <$> ws ↔ c ∈ snapshot s).
Proof.
  unfold broadcast, snapshot; simpl.
  split; [|split].
  - apply writes_data.
  - rewrite writes_conn. apply NoDup_fst_map_to_list.
  - intros c. rewrite writes_conn.
    rewrite elem_of_dom, list_elem_of_fmap. split.
    + intros [[k v] [-> Hin]]. apply elem_of_map_to_list in Hin. eauto.
    + intros [v Hv]. exists (c, v). split; [done|].
      by apply elem_of_map_to_list.
Qed.

Lemma broadcast_logs (s : Server) (message : string) (failing : gset Conn) :
  (broadcast s message failing).2
  = replicate
      (length (filter (λ wr, w_ok wr = false)
                      (broadcast s message failing).1))
      logSendError.
Proof.
  unfold broadcast; simpl.
  induction ((map_to_list (clients s)).*1) as [|c l IH]; simpl; [done|].
  rewrite !filter_cons; simpl.
  destruct (decide (c ∈ failing)) as [Hin|Hout].
  - rewrite bool_decide_eq_false_2 by auto.
    rewrite decide_True by done. simpl. by rewrite IH.
  - rewrite bool_decide_eq_true_2 by auto.
    rewrite decide_False by done. exact IH.
Qed.

(** A goroutine in its read loop is registered under the identity it
    computed: only the goroutine itself adds or removes its endpoint. *)
Definition looping_registered (w : World) : Prop :=
  ∀ conn id, handlers w !! conn = Some (PcLoop id) →
             clients (server w) !! conn = Some id.

Lemma step_looping_registered (w w' : World) (ev : event) :
  looping_registered w → step w ev = Some w' → looping_registered w'.
Proof.
  intros Hinv Hstep c id. destruct ev as [k|k|k|k message failing|k]; simpl in Hstep.
  - destruct (handlers w !! k) eqn:Hk; [done|]. simplify_eq; simpl.
    destruct (decide (k = c)) as [->|Hne].
    + by rewrite lookup_insert_eq.
    + rewrite lookup_insert_ne by done. apply Hinv.
  - destruct (handlers w !! k) as [[]|] eqn:Hk; try done. simplify_eq; simpl.
    destruct (decide (k = c)) as [->|Hne].
    + by rewrite lookup_insert_eq.
    + rewrite lookup_insert_ne by done. apply Hinv.
  - destruct (handlers w !! k) as [[|id'|id'|]|] eqn:Hk; try done.
    simplify_eq; simpl.
    destruct (decide (k = c)) as [->|Hne].
    + rewrite !lookup_insert_eq. congruence.
    + rewrite !lookup_insert_ne by done. apply Hinv.
  - destruct (handlers w !! k) as [[|id'|id'|]|] eqn:Hk; try done.
    simplify_eq; simpl. apply Hinv.
  - destruct (handlers w !! k) as [[|id'|id'|]|] eqn:Hk; try done.
    simplify_eq; simpl.
    destruct (decide (k = c)) as [->|Hne].
    + by rewrite lookup_insert_eq.
    + rewrite lookup_insert_ne, lookup_delete_ne by done. apply Hinv.
Qed.

Lemma run_looping_registered (evs : list event) (w w' : World) :
  looping_registered w → run w evs = Some w' → looping_registered w'.
Proof.
  revert w. induction evs as [|ev evs IH]; simpl; intros w Hinv Hrun.
  - by simplify_eq.
  - destruct (step w ev) as [w1|] eqn:Hstep; [|done].
    eauto using step_looping_registered.
Qed.

Lemma init_looping_registered : looping_registered init.
Proof. intros c id. unfold init; simpl. by rewrite lookup_empty. Qed.

(** C7.  In every state the relay can reach, a record read from a
    connection whose goroutine is in its loop is broadcast as one message,
    the sender's identity, a comma and the raw record; it is written
    once to each endpoint of the registry, no endpoint twice, the sender
    among them; the registry is left as it was, so that an endpoint
    whose write failed stays registered, and each failed write adds one
    line to the log. *)
Theorem relay_fans_out (evs : list event) (w : World) (conn : Conn)
    (id message : string) (failing : gset Conn) :
  run init evs = Some w →
  handlers w !! conn = Some (PcLoop id) →
  ∃ w' ws,
    step w (EvMessage conn message failing) = Some w'
    ∧ writes w' = writes w ++ ws
    ∧ Forall (λ wr, w_data wr = (id ++ "," ++ message)%string
                    ∧ w_ok wr = bool_decide (w_conn wr ∉ failing)) ws
    ∧ NoDup (w_conn <$> ws)
    ∧ (∀ c, c ∈ w_conn <$> ws ↔ c ∈ snapshot (server w))
    ∧ conn ∈ w_conn <$> ws
    ∧ clients (server w) !! conn = Some id
    ∧ server w' = server w
    ∧ handlers w' = handlers w
    ∧ logs w' = logs w ++ replicate
                  (length (filter (λ wr, w_ok wr = false) ws)) logSendError.
Proof.
  intros Hrun Hloop.
  pose proof (run_looping_registered _ _ _ init_looping_registered Hrun
                conn id Hloop) as Hreg.
  pose proof (broadcast_writes (server w) (id ++ "," ++ message)%string
                failing) as (Hall & Hnd & Hdom).
  pose proof (broadcast_logs (server w) (id ++ "," ++ message)%string
                failing) as Hlogs.
  destruct (broadcast (server w) (id ++ "," ++ message)%string failing)
    as [ws ls] eqn:Hb.
  simpl in Hall, Hnd, Hdom, Hlogs.
  exists {| server := server w; handlers := handlers w;
            writes := writes w ++ ws; logs := logs w ++ ls |}, ws.
  split.
  { unfold step. rewrite Hloop, Hb. reflexivity. }
  cbn [writes server handlers logs].
  repeat split; auto.
  - by apply Hdom.
  - by apply Hdom.
  - apply Hdom. unfold snapshot. apply elem_of_dom. eauto.
  - by rewrite Hlogs.
Qed.

Definition threePlayers : list event :=
  [EvAccept 1%positive; EvComputeID 1%positive; EvRegister 1%positive;
   EvAccept 2%positive; EvComputeID 2%positive; EvRegister 2%positive;
   EvAccept 3%positive; EvComputeID 3%positive; EvRegister 3%positive].

Definition threePlayersWorld : World :=
  {| server := {| clients := {[ 1%positive := "player1";
                                2%positive := "player2";
                                3%positive := "player3" ]} |};
     handlers := {[ 1%positive := PcLoop "player1";
                 2%positive := PcLoop "player2";
                 3%positive := PcLoop "player3" ]};
     writes := []; logs := [] |}.

Lemma relay_fans_out_witness :
  ∃ w' ws,
    step threePlayersWorld
         (EvMessage 2%positive "1.00,2.00,3,true" {[3%positive]}) = Some w'
    ∧ writes w' = writes threePlayersWorld ++ ws
    ∧ Forall (λ wr, w_data wr = "player2,1.00,2.00,3,true"
                    ∧ w_ok wr = bool_decide (w_conn wr ∉ ({[3%positive]} : gset Conn))) ws
    ∧ NoDup (w_conn <$> ws)
    ∧ (∀ c, c ∈ w_conn <$> ws ↔ c ∈ snapshot (server threePlayersWorld))
    ∧ 2%positive ∈ w_conn <$> ws
    ∧ clients (server threePlayersWorld) !! 2%positive = Some "player2"
    ∧ server w' = server threePlayersWorld
    ∧ handlers w' = handlers threePlayersWorld
    ∧ logs w' = logs threePlayersWorld ++ replicate
                  (length (filter (λ wr, w_ok wr = false) ws)) logSendError.
Proof.
  apply (relay_fans_out threePlayers threePlayersWorld 2%positive
           "player2" "1.00,2.00,3,true" {[3%positive]}).
  - vm_compute. reflexivity.
  - vm_compute. reflexivity.
Defined.

(** *** After a read error *)

(** The goroutine of [conn] has returned and [conn] is not registered. *)
Definition gone (w : World) (conn : Conn) : Prop :=
  handlers w !! conn = Some PcDone ∧ clients (server w) !! conn = None.

Lemma step_gone (w w' : World) (ev : event) (conn : Conn) :
  gone w conn → step w ev = Some w' →
  gone w' conn
  ∧ ∃ ws, writes w' = writes w ++ ws ∧ Forall (λ wr, w_conn wr ≠ conn) ws.
Proof.
  intros [Hdone Hnone] Hstep.
  destruct ev as [k|k|k|k message failing|k]; unfold step in Hstep.
  - destruct (handlers w !! k) eqn:Hk; [done|]. simplify_eq.
    assert (k ≠ conn) by congruence.
    split; [split; simpl|exists []; by rewrite app_nil_r].
    + by rewrite lookup_insert_ne.
    + done.
  - destruct (handlers w !! k) as [[]|] eqn:Hk; try done. simplify_eq.
    assert (k ≠ conn) by congruence.
    split; [split; simpl|exists []; by rewrite app_nil_r].
    + by rewrite lookup_insert_ne.
    + done.
  - destruct (handlers w !! k) as [[|id|id|]|] eqn:Hk; try done. simplify_eq.
    assert (k ≠ conn) by congruence.
    split; [split; simpl|exists []; by rewrite app_nil_r].
    + by rewrite lookup_insert_ne.
    + by rewrite lookup_insert_ne.
  - destruct (handlers w !! k) as [[|id|id|]|] eqn:Hk; try done.
    pose proof (broadcast_writes (server w) (id ++ "," ++ message)%string
                  failing) as (_ & _ & Hdom).
    destruct (broadcast (server w) (id ++ "," ++ message)%string failing)
      as [ws ls] eqn:Hb.
    simplify_eq. split; [done|]. exists ws. split; [done|].
    simpl in Hdom. apply Forall_forall. intros wr Hwr Heq.
    assert (Hin : w_conn wr ∈ w_conn <$> ws)
      by (apply list_elem_of_fmap; eauto).
    apply Hdom in Hin. unfold snapshot in Hin.
    apply elem_of_dom in Hin as [v Hv]. simpl in Hnone. congruence.
  - destruct (handlers w !! k) as [[|id|id|]|] eqn:Hk; try done. simplify_eq.
    assert (k ≠ conn) by congruence.
    split; [split; simpl|exists []; by rewrite app_nil_r].
    + by rewrite lookup_insert_ne.
    + by rewrite lookup_delete_ne.
Qed.

Lemma run_gone (evs : list event) (w w' : World) (conn : Conn) :
  gone w conn → run w evs = Some w' →
  gone w' conn
  ∧ ∃ ws, writes w' = writes w ++ ws ∧ Forall (λ wr, w_conn wr ≠ conn) ws.
Proof.
  revert w. induction evs as [|ev evs IH]; simpl; intros w Hgone Hrun.
  - simplify_eq. split; [done|]. exists []. by rewrite app_nil_r.
  - destruct (step w ev) as [w1|] eqn:Hstep; [|done].
    destruct (step_gone _ _ _ _ Hgone Hstep) as (Hgone1 & ws1 & Hw1 & Hf1).
    destruct (IH _ Hgone1 Hrun) as (Hgone' & ws2 & Hw2 & Hf2).
    split; [done|]. exists (ws1 ++ ws2). split.
    + by rewrite Hw2, Hw1, app_assoc.
    + by apply Forall_app.
Qed.

(** C6.  When the read of a connection fails, its goroutine removes the
    endpoint from the registry and returns, without any write; from then
    on, whatever the relay does, the endpoint is in no snapshot of the
    registry and none of the writes the relay makes goes to it. *)
Theorem read_error_unregisters (w w1 w2 : World) (conn : Conn)
    (evs : list event) :
  step w (EvReadErr conn) = Some w1 →
  run w1 evs = Some w2 →
  handlers w1 !! conn = Some PcDone
  ∧ writes w1 = writes w
  ∧ (conn ∉ snapshot (server w1))
  ∧ (conn ∉ snapshot (server w2))
  ∧ handlers w2 !! conn = Some PcDone
  ∧ ∃ ws, writes w2 = writes w1 ++ ws
          ∧ Forall (λ wr, w_conn wr ≠ conn) ws.
Proof.
  intros Hstep Hrun. simpl in Hstep.
  destruct (handlers w !! conn) as [[|id|id|]|] eqn:Hk; try done.
  simplify_eq.
  set (w1 := {| server := unregister (server w) conn;
                handlers := <[conn := PcDone]> (handlers w);
                writes := writes w; logs := logs w ++ [logReadError] |}) in *.
  assert (Hgone : gone w1 conn).
  { split; simpl; [apply lookup_insert_eq | apply lookup_delete_eq]. }
  destruct (run_gone _ _ _ _ Hgone Hrun) as ([Hd2 Hn2] & ws & Hw & Hf).
  destruct Hgone as [Hd1 Hn1].
  unfold snapshot. rewrite !not_elem_of_dom. eauto 10.
Qed.

Lemma read_error_unregisters_witness :
  ∃ w1 w2,
    step threePlayersWorld (EvReadErr 1%positive) = Some w1
    ∧ run w1 [EvMessage 2%positive "1.00,2.00,3,true" ∅;
              EvAccept 4%positive] = Some w2
    ∧ (1%positive ∉ snapshot (server w2))
    ∧ ∃ ws, writes w2 = writes w1 ++ ws
            ∧ Forall (λ wr, w_conn wr ≠ 1%positive) ws.
Proof.
  eexists _, _.
  split; [reflexivity|]. split; [reflexivity|].
  pose proof (read_error_unregisters threePlayersWorld _ _ 1%positive
                [EvMessage 2%positive "1.00,2.00,3,true" ∅;
                 EvAccept 4%positive] eq_refl eq_refl) as H.
  split; [exact (proj1 (proj2 (proj2 (proj2 H))))|].
  exact (proj2 (proj2 (proj2 (proj2 (proj2 H))))).
Defined.

(** *** Identities *)

(** Two players connect, the first one leaves, a third one connects. *)
Definition rejoin : list event :=
  [EvAccept 1%positive; EvComputeID 1%positive; EvRegister 1%positive;
   EvAccept 2%positive; EvComputeID 2%positive; EvRegister 2%positive;
   EvReadErr 1%positive;
   EvAccept 3%positive; EvComputeID 3%positive; EvRegister 3%positive].

(** Two players connect at the same time: both goroutines read the size of
    the registry before either registers. *)
Definition race : list event :=
  [EvAccept 1%positive; EvAccept 2%positive;
   EvComputeID 1%positive; EvComputeID 2%positive;
   EvRegister 1%positive; EvRegister 2%positive].

(** C1 fails on the relay.  The identity is made from the size of the
    registry when the goroutine starts.  After a player has left, the next
    one to connect is given the identity of a player who is still
    registered; and two goroutines that start together are given the same
    identity. *)
Theorem identity_collision :
  issued init rejoin = ["player1"; "player2"; "player2"]
  ∧ (clients <$> (server <$> run init rejoin))
    = Some {[ 2%positive := "player2"; 3%positive := "player2" ]}
  ∧ issued init race = ["player1"; "player1"]
  ∧ (clients <$> (server <$> run init race))
    = Some {[ 1%positive := "player1"; 2%positive := "player1" ]}.
Proof. repeat split; vm_compute; reflexivity. Qed.

End RelayFacts.

(** * Properties of the client *)

Module ClientFacts.
Import GoStrings Strconv Fmt Client.

Lemma eqb_local_false (id : string) :
  id ≠ "local" → String.eqb id "local" = false.
Proof. intros H. by apply String.eqb_neq. Qed.

(** The entry of [d_id d] after [apply], for an identity that passes the
    test of line 211. *)
Lemma apply_lookup (g : Game) (d : Decoded) :
  d_id d ≠ "local" →
  otherPlayers (apply g d) !! d_id d
  = Some (setIsMoving (d_isMoving d)
            (setDirection (d_direction d)
               (setPosition {| X := d_x d; Y := d_y d |}
                  (default (NewCharacter (bodyTexture (localPlayer g))
                              (headTexture (localPlayer g))
                              {| X := d_x d; Y := d_y d |})
                           (otherPlayers g !! d_id d))))).
Proof.
  intros Hid. unfold apply. rewrite (eqb_local_false _ Hid). simpl.
  rewrite !lookup_alter_eq.
  destruct (otherPlayers g !! d_id d) as [c|] eqn:Hc; simpl.
  - by rewrite Hc.
  - by rewrite lookup_insert_eq.
Qed.

Lemma apply_lookup_ne (g : Game) (d : Decoded) (id : string) :
  id ≠ d_id d →
  otherPlayers (apply g d) !! id = otherPlayers g !! id.
Proof.
  intros Hne. unfold apply.
  destruct (String.eqb (d_id d) "local"); [done|]. simpl.
  rewrite !lookup_alter_ne by done.
  destruct (otherPlayers g !! d_id d); [done|].
  by rewrite lookup_insert_ne.
Qed.

(** The part of C3 that holds: a record whose identity is ["local"]
    changes nothing. *)
Lemma apply_local (g : Game) (d : Decoded) :
  d_id d = "local" → apply g d = g.
Proof. intros H. unfold apply. by rewrite H. Qed.

(** C10.  When a record that passes the two tests of the loop names an
    identity that has an entry, the entry afterwards has the position,
    direction and movement flag of the record and, for the textures, the
    two speeds, the frame index and the animation timer, what it had
    before. *)
Theorem update_keeps_other_fields (g : Game) (playerData : string)
    (d : Decoded) (c : Character) :
  decode playerData = Some d →
  d_id d ≠ "local" →
  otherPlayers g !! d_id d = Some c →
  otherPlayers (applyRecord g playerData) !! d_id d
  = Some {| bodyTexture := bodyTexture c;
            headTexture := headTexture c;
            position := {| X := d_x d; Y := d_y d |};
            moveSpeed := moveSpeed c;
            animationSpeed := animationSpeed c;
            frameIndex := frameIndex c;
            direction := d_direction d;
            timeSinceLastFrame := timeSinceLastFrame c;
            isMoving := d_isMoving d |}.
Proof.
  intros Hdec Hid Hc. unfold applyRecord. rewrite Hdec.
  rewrite (apply_lookup g d Hid), Hc. reflexivity.
Qed.

Definition demoGame : Game :=
  NewGame {| broken := false; attempts := [] |}
    1%positive 2%positive 3%positive [].

Definition demoCached : Game :=
  receiveMessage demoGame "player1,400.00,300.00,0,false".

Definition demoUpdate : Decoded :=
  {| d_id := "player1"; d_x := lit "1.50"; d_y := lit "2.25";
     d_direction := 3; d_isMoving := true |}.

Definition demoEntry : Character :=
  NewCharacter 1%positive 2%positive {| X := lit "400"; Y := lit "300" |}.

Lemma update_keeps_other_fields_witness :
  decode "player1,1.50,2.25,3,true" = Some demoUpdate
  ∧ otherPlayers demoCached !! "player1" = Some demoEntry
  ∧ otherPlayers (applyRecord demoCached "player1,1.50,2.25,3,true")
      !! "player1"
    = Some {| bodyTexture := 1%positive;
              headTexture := 2%positive;
              position := {| X := lit "1.50"; Y := lit "2.25" |};
              moveSpeed := lit "200.0";
              animationSpeed := lit "0.1";
              frameIndex := 0;
              direction := 3;
              timeSinceLastFrame := S754_zero false;
              isMoving := true |}.
Proof.
  assert (H1 : decode "player1,1.50,2.25,3,true" = Some demoUpdate)
    by (vm_compute; reflexivity).
  assert (H2 : otherPlayers demoCached !! d_id demoUpdate = Some demoEntry)
    by (vm_compute; reflexivity).
  assert (H3 : d_id demoUpdate ≠ "local") by discriminate.
  split; [exact H1|]. split; [exact H2|].
  exact (update_keeps_other_fields demoCached "player1,1.50,2.25,3,true"
           demoUpdate demoEntry H1 H3 H2).
Defined.

(** *** Which identities have an entry *)

Lemma apply_is_Some (g : Game) (d : Decoded) (id : string) :
  is_Some (otherPlayers (apply g d) !! id)
  ↔ is_Some (otherPlayers g !! id)
    ∨ (String.eqb (d_id d) "local" = false ∧ id = d_id d).
Proof.
  destruct (String.eqb (d_id d) "local") eqn:Hloc.
  - unfold apply. rewrite Hloc. naive_solver.
  - apply String.eqb_neq in Hloc.
    destruct (decide (id = d_id d)) as [->|Hne].
    + rewrite apply_lookup by done. naive_solver.
    + rewrite apply_lookup_ne by done. naive_solver.
Qed.

Lemma applyRecord_is_Some (g : Game) (playerData id : string) :
  is_Some (otherPlayers (applyRecord g playerData) !! id)
  ↔ is_Some (otherPlayers g !! id) ∨ updateOf playerData = Some id.
Proof.
  unfold applyRecord, updateOf. destruct (decode playerData) as [d|].
  - rewrite apply_is_Some.
    destruct (String.eqb (d_id d) "local"); naive_solver.
  - naive_solver.
Qed.

Lemma fold_applyRecord_is_Some (records : list string) (g : Game)
    (id : string) :
  is_Some (otherPlayers (fold_left applyRecord records g) !! id)
  ↔ is_Some (otherPlayers g !! id) ∨ id ∈ omap updateOf records.
Proof.
  revert g. induction records as [|r records IH]; intros g; simpl.
  - rewrite elem_of_nil. naive_solver.
  - rewrite IH, applyRecord_is_Some.
    destruct (updateOf r) as [id'|] eqn:Hr.
    + rewrite elem_of_cons. naive_solver.
    + naive_solver.
Qed.

Lemma receiveMessage_is_Some (g : Game) (message id : string) :
  is_Some (otherPlayers (receiveMessage g message) !! id)
  ↔ is_Some (otherPlayers g !! id) ∨ id ∈ updatesIn message.
Proof. apply fold_applyRecord_is_Some. Qed.

Lemma Update_others (g : Game) (keys : Keys) :
  otherPlayers (fst (Update g keys))
  = (λ player, CharacterUpdate player tickTime) <$> otherPlayers g.
Proof.
  unfold Update, handleInput, handleInputWrite; simpl.
  by destruct (pressKey _ _ _ _).
Qed.

Lemma step_is_Some (st : State) (ev : event) (id : string) :
  is_Some (otherPlayers (game (step st ev)) !! id)
  ↔ is_Some (otherPlayers (game st) !! id)
    ∨ id ∈ updatesOf (receiving st) [ev].
Proof.
  destruct ev as [keys|[message|]|]; unfold step; cbn [game receiving updatesOf].
  - rewrite Update_others, lookup_fmap, fmap_is_Some, elem_of_nil.
    naive_solver.
  - rewrite app_nil_r. destruct (receiving st); cbn [game].
    + apply receiveMessage_is_Some.
    + rewrite elem_of_nil. naive_solver.
  - rewrite elem_of_nil. naive_solver.
  - rewrite elem_of_nil. naive_solver.
Qed.

Lemma updatesOf_cons (r : bool) (ev : event) (evs : list event) :
  updatesOf r (ev :: evs)
  = updatesOf r [ev]
    ++ updatesOf (receiving (step {| game := demoGame; receiving := r |} ev))
         evs.
Proof.
  destruct ev as [keys|[message|]|]; simpl; try done.
  rewrite app_nil_r. by destruct r.
Qed.

Lemma step_receiving (st : State) (ev : event) (g : Game) :
  receiving (step st ev)
  = receiving (step {| game := g; receiving := receiving st |} ev).
Proof.
  destruct ev as [keys|[message|]|]; simpl; try done.
  destruct (receiving st) eqn:E; simpl; congruence.
Qed.

Lemma run_is_Some (evs : list event) (st : State) (id : string) :
  is_Some (otherPlayers (game (run st evs)) !! id)
  ↔ is_Some (otherPlayers (game st) !! id)
    ∨ id ∈ updatesOf (receiving st) evs.
Proof.
  revert st. induction evs as [|ev evs IH]; intros st.
  - simpl. rewrite elem_of_nil. naive_solver.
  - change (run st (ev :: evs)) with (run (step st ev) evs).
    rewrite IH, step_is_Some, (updatesOf_cons (receiving st) ev evs).
    rewrite elem_of_app, <- (step_receiving st ev demoGame). tauto.
Qed.

Lemma run_app (evs evs' : list event) (st : State) :
  run st (evs ++ evs') = run (run st evs) evs'.
Proof. apply fold_left_app. Qed.

(** *** What the events leave of an entry *)

Lemma CharacterUpdate_pose (c : Character) (dt : float64) :
  pose (CharacterUpdate c dt) = pose c.
Proof.
  unfold CharacterUpdate, updateAnimation.
  destruct (isMoving c) eqn:Hm; [destruct (SFleb _ _)|]; reflexivity.
Qed.

Lemma applyRecord_lookup_other (g : Game) (playerData id : string) :
  updateOf playerData ≠ Some id →
  otherPlayers (applyRecord g playerData) !! id = otherPlayers g !! id.
Proof.
  unfold applyRecord, updateOf. destruct (decode playerData) as [d|]; [|done].
  destruct (String.eqb (d_id d) "local") eqn:Hloc.
  - intros _. unfold apply. by rewrite Hloc.
  - intros Hne. apply apply_lookup_ne. congruence.
Qed.

Lemma fold_applyRecord_lookup_other (records : list string) (g : Game)
    (id : string) :
  id ∉ omap updateOf records →
  otherPlayers (fold_left applyRecord records g) !! id
  = otherPlayers g !! id.
Proof.
  revert g. induction records as [|r records IH]; intros g Hnot; [done|].
  simpl in *. destruct (updateOf r) as [id'|] eqn:Hr.
  - apply not_elem_of_cons in Hnot as [Hne Hnot].
    rewrite IH by done. apply applyRecord_lookup_other. congruence.
  - rewrite IH by done. apply applyRecord_lookup_other. congruence.
Qed.

Lemma step_pose (st : State) (ev : event) (id : string) (c : Character) :
  otherPlayers (game st) !! id = Some c →
  id ∉ updatesOf (receiving st) [ev] →
  ∃ c', otherPlayers (game (step st ev)) !! id = Some c'
        ∧ pose c' = pose c.
Proof.
  intros Hc Hnot. destruct ev as [keys|[message|]|]; simpl in Hnot;
    unfold step; cbn [game receiving].
  - rewrite Update_others, lookup_fmap, Hc. simpl.
    eexists. split; [done|]. apply CharacterUpdate_pose.
  - rewrite app_nil_r in Hnot. destruct (receiving st); simpl.
    + exists c. split; [|done]. unfold receiveMessage.
      by rewrite fold_applyRecord_lookup_other.
    + eauto.
  - eauto.
  - eauto.
Qed.

Lemma run_pose (evs : list event) (st : State) (id : string)
    (c : Character) :
  otherPlayers (game st) !! id = Some c →
  id ∉ updatesOf (receiving st) evs →
  ∃ c', otherPlayers (game (run st evs)) !! id = Some c'
        ∧ pose c' = pose c.
Proof.
  revert st c. induction evs as [|ev evs IH]; intros st c Hc Hnot.
  - exists c. done.
  - change (run st (ev :: evs)) with (run (step st ev) evs).
    rewrite (updatesOf_cons (receiving st) ev evs), not_elem_of_app in Hnot.
    destruct Hnot as [Hnot1 Hnot2].
    destruct (step_pose st ev id c Hc Hnot1) as (c1 & Hc1 & Hp1).
    rewrite <- (step_receiving st ev demoGame) in Hnot2.
    destruct (IH _ _ Hc1 Hnot2) as (c2 & Hc2 & Hp2).
    exists c2. split; [done|]. congruence.
Qed.

(** *** Received updates, said on the text alone

    What the claim calls an update for [id] that has been received and
    not filtered, without the decoder and without the state of the
    loop.  A record is for [id] when it has exactly five fields between
    commas, the first of them is [id], and [id] is not ["local"]; it is
    received when a successful read, with no failed read before it,
    returned a message that holds the record between semicolons. *)
Definition recordFor (playerData id : string) : Prop :=
  length (Split playerData ",") = 5%nat
  ∧ nth 0 (Split playerData ",") "" = id
  ∧ id ≠ "local".

Definition messageFor (message id : string) : Prop :=
  ∃ playerData,
    playerData ∈ Split (TrimSpace message) ";" ∧ recordFor playerData id.

Definition received (evs : list event) (id : string) : Prop :=
  ∃ before message after,
    evs = before ++ EvRead (ReadOK message) :: after
    ∧ (EvRead ReadErr ∉ before)
    ∧ messageFor message id.

Lemma updateOf_recordFor (playerData id : string) :
  updateOf playerData = Some id ↔ recordFor playerData id.
Proof.
  unfold updateOf, decode, recordFor.
  destruct (Nat.eqb_spec (length (Split playerData ",")) 5) as [Hlen|Hlen].
  - cbn [d_id].
    destruct (String.eqb (nth 0 (Split playerData ",") "") "local") eqn:Hloc.
    + apply String.eqb_eq in Hloc. split; [done|].
      intros (_ & <- & Hne). done.
    + apply String.eqb_neq in Hloc. split.
      * intros [= <-]. done.
      * intros (_ & <- & _). done.
  - split; [done|]. intros (? & _). done.
Qed.

Lemma updatesIn_messageFor (message id : string) :
  id ∈ updatesIn message ↔ messageFor message id.
Proof.
  unfold updatesIn, messageFor. rewrite list_elem_of_omap.
  split; intros (r & Hr & Hid); exists r; split; try done;
    by apply updateOf_recordFor.
Qed.

Lemma updatesOf_stopped (evs : list event) : updatesOf false evs = [].
Proof.
  induction evs as [|[keys|[message|]|] evs IH]; simpl; done.
Qed.

Lemma received_cons (ev : event) (evs : list event) (id : string) :
  received (ev :: evs) id
  ↔ (∃ message, ev = EvRead (ReadOK message) ∧ messageFor message id)
    ∨ (ev ≠ EvRead ReadErr ∧ received evs id).
Proof.
  split.
  - intros (before & message & after & Heq & Hno & Hfor).
    destruct before as [|ev' before]; simpl in Heq.
    + injection Heq as -> ->. left. eauto.
    + injection Heq as -> ->. apply not_elem_of_cons in Hno as [Hne Hno].
      right. split; [done|]. by exists before, message, after.
  - intros [(message & -> & Hfor)|(Hne & before & message & after & -> & Hno
                                    & Hfor)].
    + exists [], message, evs. split; [done|]. split; [|done].
      apply not_elem_of_nil.
    + exists (ev :: before), message, after. split; [done|].
      split; [|done]. apply not_elem_of_cons. done.
Qed.

Lemma updatesOf_received (evs : list event) (id : string) :
  id ∈ updatesOf true evs ↔ received evs id.
Proof.
  induction evs as [|ev evs IH].
  - simpl. split; [by intros ?%elem_of_nil|].
    intros (before & message & after & Heq & _).
    by destruct before.
  - rewrite received_cons, <- IH.
    destruct ev as [keys|[message|]|]; cbn [updatesOf].
    + split; [intros H; right; by split|].
      intros [(m & Hm & _)|[_ H]]; [discriminate|done].
    + rewrite elem_of_app, updatesIn_messageFor. split.
      * intros [H|H]; [left; eauto|right; by split].
      * intros [(m & [= <-] & H)|[_ H]]; auto.
    + rewrite updatesOf_stopped. split; [by intros ?%elem_of_nil|].
      intros [(m & Hm & _)|[Hne _]]; [discriminate|done].
    + split; [intros H; right; by split|].
      intros [(m & Hm & _)|[_ H]]; [discriminate|done].
Qed.

Lemma run_stopped (evs : list event) (st : State) :
  receiving st = false ∨ EvRead ReadErr ∈ evs →
  receiving (run st evs) = false.
Proof.
  revert st. induction evs as [|ev evs IH]; intros st H.
  - destruct H as [H|H]; [done|]. by apply elem_of_nil in H.
  - change (run st (ev :: evs)) with (run (step st ev) evs). apply IH.
    destruct H as [H|H].
    + left. destruct ev as [keys|[message|]|]; unfold step;
        cbn [receiving]; try done. by rewrite H.
    + apply elem_of_cons in H as [<-|H]; [by left|by right].
Qed.

(** C8.  Start from a new game and let the two loops of the client run
    through any events.  An identity has an entry in [otherPlayers]
    exactly when an update for it has been received: a record of five
    fields whose first field is the identity, other than ["local"], in a
    message read before any read failed.  Whatever happens next, an
    identity that has an entry keeps one; and as long as no further
    update for it is received, the entry keeps its position, direction
    and movement flag. *)
Theorem cache_entries (c0 : Conn) (body head tiles : Image)
    (tileLayers : list (list Z)) (evs evs' : list event) (id : string) :
  let st := run (start (NewGame c0 body head tiles tileLayers)) evs in
  (is_Some (otherPlayers (game st) !! id) ↔ received evs id)
  ∧ (is_Some (otherPlayers (game st) !! id) →
     is_Some (otherPlayers (game (run st evs')) !! id))
  ∧ (∀ c, otherPlayers (game st) !! id = Some c →
          EvRead ReadErr ∈ evs ∨ ¬ received evs' id →
          ∃ c', otherPlayers (game (run st evs')) !! id = Some c'
                ∧ pose c' = pose c).
Proof.
  intros st. split; [|split].
  - unfold st. rewrite run_is_Some, <- updatesOf_received. simpl.
    rewrite lookup_empty. split; [intros [[? ?]|?]; done | auto].
  - intros H. apply run_is_Some. auto.
  - intros c Hc Hnot. apply run_pose; [done|].
    destruct (receiving st) eqn:Hrec.
    + rewrite updatesOf_received. destruct Hnot as [Herr|Hnot]; [|done].
      unfold st in Hrec. rewrite run_stopped in Hrec by auto. done.
    + rewrite updatesOf_stopped. apply not_elem_of_nil.
Qed.

(** The decoder is what makes the entry: a record that the text says
    is for ["player1"], read by a new game, gives the entry. *)
Example cache_entries_sample :
  received [EvRead (ReadOK "player1,1.50,2.25,3,true")] "player1"
  ∧ is_Some (otherPlayers
               (game (run (start demoGame)
                        [EvRead (ReadOK "player1,1.50,2.25,3,true")]))
             !! "player1")
  ∧ ¬ received [EvRead ReadErr; EvRead (ReadOK "player1,1.50,2.25,3,true")]
        "player1".
Proof.
  split; [|split].
  - exists [], "player1,1.50,2.25,3,true", []. split; [done|].
    split; [apply not_elem_of_nil|].
    exists "player1,1.50,2.25,3,true". split.
    + vm_compute. by left.
    + repeat split; vm_compute; congruence.
  - vm_compute. eauto.
  - intros (before & message & after & Heq & Hno & _).
    destruct before as [|ev before]; [discriminate|].
    injection Heq as <- _. apply Hno. by left.
Qed.

(** *** The publisher *)

Lemma handleInput_write (g : Game) (keys : Keys) (dt : float64) :
  conn (handleInput g keys dt)
  = {| broken := broken (conn g);
       attempts := attempts (conn g)
                   ++ [encode (localPlayer (handleInput g keys dt))] |}.
Proof.
  unfold handleInput, handleInputWrite; simpl.
  by destruct (pressKey _ _ _ _).
Qed.

Lemma handleInput_breakConn (g : Game) (keys : Keys) (dt : float64) :
  handleInput (breakConn g) keys dt = breakConn (handleInput g keys dt).
Proof.
  unfold handleInput, handleInputWrite, breakConn; simpl.
  by destruct (pressKey _ _ _ _).
Qed.

Lemma handleInputWrite_error (g : Game) (keys : Keys) (dt : float64) :
  snd (handleInputWrite g keys dt)
  = if broken (conn g) then Some ErrConn else None.
Proof.
  unfold handleInputWrite; simpl. by destruct (pressKey _ _ _ _).
Qed.

Definition noKeys : Keys :=
  {| KeyUp := false; KeyDown := false; KeyLeft := false;
     KeyRight := false |}.

Definition brokenGame : Game := breakConn demoGame.

(** C5 fails on the client: on a broken connection the write of the
    tick fails, [Update] returns [nil] all the same, and the next tick
    writes again. *)
Lemma write_failure_is_dropped :
  snd (handleInputWrite brokenGame noKeys tickTime) = Some ErrConn
  ∧ snd (Update brokenGame noKeys) = None
  ∧ attempts (conn (fst (Update (fst (Update brokenGame noKeys)) noKeys)))
    = [String.append "400.00,300.00,0,false" (String "010" "");
       String.append "400.00,300.00,0,false" (String "010" "")].
Proof. repeat split; vm_compute; reflexivity. Qed.

(** C5 as the client has it.  Every tick makes one write, of the record
    of the local player, and drops its result: [Update] returns [nil]
    whether or not the write failed, and the game after the tick is the
    same on a broken connection as on a working one. *)
Theorem update_drops_write_result (g : Game) (keys : Keys) :
  snd (Update g keys) = None
  ∧ conn (fst (Update g keys))
    = {| broken := broken (conn g);
         attempts := attempts (conn g)
                     ++ [encode (localPlayer (handleInput g keys tickTime))] |}
  ∧ snd (handleInputWrite g keys tickTime)
    = (if broken (conn g) then Some ErrConn else None)
  ∧ fst (Update (breakConn g) keys) = breakConn (fst (Update g keys)).
Proof.
  split; [done|]. split; [|split].
  - unfold Update; simpl. apply handleInput_write.
  - apply handleInputWrite_error.
  - unfold Update; simpl. rewrite handleInput_breakConn.
    unfold breakConn; simpl. reflexivity.
Qed.

End ClientFacts.

(** * The codec: line 151 against lines 203 to 209 *)

Module CodecFacts.
Import GoStrings Strconv Fmt Client TextFacts.

(** The three parsers give their zero value on a syntax error. *)
Lemma ParseFloat_syntax (s : string) :
  snd (ParseFloat s) = Some ErrSyntax → fst (ParseFloat s) = S754_zero false.
Proof.
  unfold ParseFloat. destruct (special s) as [[f n]|].
  - destruct (n =? String.length s)%nat; [discriminate|done].
  - destruct (readFloat s) as [r|]; [|done].
    destruct (negb (String.eqb (r_rest r) "")); [done|].
    destruct (r_underscores r && negb (underscoreOK s))%bool; [done|].
    simpl. by destruct (isInf _).
Qed.

Lemma Atoi_syntax (s : string) :
  snd (Atoi s) = Some ErrSyntax → fst (Atoi s) = 0%Z.
Proof.
  unfold Atoi, ParseInt.
  destruct ((0 <? String.length s) && (String.length s <? 19))%nat.
  - destruct (pickSign s) as [[[]|] [|c rest]];
      try destruct (readDigits _ _); done.
  - destruct s as [|c0 s]; [done|].
    destruct (pickSign _) as [sign rest].
    destruct (ParseUint rest) as [un [[]|]]; try done;
      destruct (negb _ && _)%bool; try discriminate;
      destruct (_ && _)%bool; discriminate.
Qed.

(** Without an error the value is an [int]. *)
Lemma readDigits_bound (s : string) (acc n : N) :
  readDigits s acc = Some n →
  (n < (acc + 1) * 10 ^ N.of_nat (String.length s))%N.
Proof.
  revert acc. induction s as [|c s IH]; intros acc; cbn [readDigits].
  - intros [= <-]. simpl. lia.
  - destruct (isDigit c) eqn:Hc; [|done]. intros H%IH.
    assert (Hd : (digitVal c ≤ 9)%N).
    { unfold isDigit in Hc. apply andb_true_iff in Hc as [_ Hc].
      apply N.leb_le in Hc. unfold digitVal. lia. }
    cbn [String.length]. rewrite Nat2N.inj_succ, N.pow_succ_r'.
    eapply N.lt_le_trans; [exact H|]. nia.
Qed.

Lemma Atoi_ok (s : string) :
  snd (Atoi s) = None → (minInt ≤ fst (Atoi s) ≤ maxInt)%Z.
Proof.
  unfold Atoi, ParseInt.
  destruct ((0 <? String.length s) && (String.length s <? 19))%nat eqn:Hlen.
  - apply andb_true_iff in Hlen as [_ Hlen]. apply Nat.ltb_lt in Hlen.
    assert (Hrest : (String.length (pickSign s).2 ≤ 18)%nat).
    { destruct s as [|c s]; [simpl; lia|].
      destruct c as [[] [] [] [] [] [] [] []]; simpl in *; lia. }
    destruct (pickSign s) as [sign rest]. simpl in Hrest.
    assert (Hbound : ∀ n, readDigits rest 0 = Some n → (n < 10 ^ 18)%N).
    { intros n Hn%readDigits_bound.
      eapply N.lt_le_trans; [exact Hn|].
      rewrite N.add_0_l, N.mul_1_l. apply N.pow_le_mono_r; lia. }
    destruct sign as [[]|], rest as [|c rest]; try done;
      destruct (readDigits _ _) as [n|] eqn:Hn; try done; intros _;
      specialize (Hbound n eq_refl); unfold minInt, maxInt; simpl fst; lia.
  - destruct s as [|c0 s]; [done|].
    destruct (pickSign _) as [sign rest].
    clear Hlen. unfold minInt, maxInt.
    destruct (ParseUint rest) as [un [[]|]]; [done| |];
      destruct sign as [[]|]; cbn [negb andb];
      try (destruct (N.ltb_spec (2 ^ 63) un); cbn [fst snd];
           [discriminate|lia]);
      destruct (N.leb_spec (2 ^ 63) un); cbn [fst snd];
      try discriminate; lia.
Qed.

(** A value out of range is the largest or the smallest [int]. *)
Lemma Atoi_range (s : string) :
  snd (Atoi s) = Some ErrRange →
  fst (Atoi s) = maxInt ∨ fst (Atoi s) = minInt.
Proof.
  unfold Atoi, ParseInt.
  destruct ((0 <? String.length s) && (String.length s <? 19))%nat.
  - destruct (pickSign s) as [[[]|] [|c rest]];
      try destruct (readDigits _ _); done.
  - destruct s as [|c0 s]; [done|].
    destruct (pickSign _) as [sign rest].
    destruct (ParseUint rest) as [un [[]|]]; try done;
      (destruct (negb _ && _)%bool; [by left|]);
      (destruct (_ && _)%bool; [by right|done]).
Qed.

(** A position out of range is an infinity. *)
Lemma ParseFloat_range (s : string) :
  snd (ParseFloat s) = Some ErrRange → isInf (fst (ParseFloat s)) = true.
Proof.
  unfold ParseFloat. destruct (special s) as [[f n]|].
  - by destruct (n =? String.length s)%nat.
  - destruct (readFloat s) as [r|]; [|done].
    destruct (negb (String.eqb (r_rest r) "")); [done|].
    destruct (r_underscores r && negb (underscoreOK s))%bool; [done|].
    simpl. by destruct (isInf _).
Qed.

Lemma ParseBool_error (s : string) :
  snd (ParseBool s) ≠ None → fst (ParseBool s) = false.
Proof.
  unfold ParseBool.
  destruct (_ || _ || _ || _ || _ || _)%bool; [done|].
  by destruct (_ || _ || _ || _ || _ || _)%bool.
Qed.

(** C2 fails on the client: a position that is not a number, a facing
    code that is out of range and a movement flag that is not a boolean
    all decode, to 0, to the code itself and to [false]. *)
Lemma garbage_fields_decode :
  decode "player1,abc,300.00,9,maybe"
  = Some {| d_id := "player1"; d_x := S754_zero false; d_y := lit "300";
            d_direction := 9; d_isMoving := false |}
  ∧ snd (ParseFloat "abc") = Some ErrSyntax
  ∧ snd (ParseBool "maybe") = Some ErrSyntax.
Proof. repeat split; vm_compute; reflexivity. Qed.

(** C2 as the client has it.  [decode] gives nothing exactly when the
    record does not split into five fields.  A record of five fields
    always gives a state: the identity is the first field, the other
    four are what the parsers return, errors dropped.  So a position
    with a syntax error is 0 and one out of range an infinity; a facing
    code with a syntax error is 0, one whose digits overflow is the
    largest or the smallest [int], and one that parses is kept whatever
    its value; a movement flag that does not parse is [false]. *)
Theorem decode_drops_parse_errors (playerData : string) :
  let data := Split playerData "," in
  (decode playerData = None ↔ length data ≠ 5%nat)
  ∧ ∀ d, decode playerData = Some d →
      d_id d = nth 0 data ""
      ∧ d_x d = fst (ParseFloat (nth 1 data ""))
      ∧ d_y d = fst (ParseFloat (nth 2 data ""))
      ∧ d_direction d = fst (Atoi (nth 3 data ""))
      ∧ d_isMoving d = fst (ParseBool (nth 4 data ""))
      ∧ (snd (ParseFloat (nth 1 data "")) = Some ErrSyntax →
         d_x d = S754_zero false)
      ∧ (snd (ParseFloat (nth 2 data "")) = Some ErrSyntax →
         d_y d = S754_zero false)
      ∧ (snd (Atoi (nth 3 data "")) = Some ErrSyntax → d_direction d = 0%Z)
      ∧ (snd (ParseBool (nth 4 data "")) ≠ None → d_isMoving d = false)
      ∧ (snd (ParseFloat (nth 1 data "")) = Some ErrRange →
         isInf (d_x d) = true)
      ∧ (snd (ParseFloat (nth 2 data "")) = Some ErrRange →
         isInf (d_y d) = true)
      ∧ (snd (Atoi (nth 3 data "")) = Some ErrRange →
         d_direction d = maxInt ∨ d_direction d = minInt)
      ∧ (snd (Atoi (nth 3 data "")) = None →
         (minInt ≤ d_direction d ≤ maxInt)%Z).
Proof.
  intros data. unfold decode. fold data.
  destruct (Nat.eqb_spec (length data) 5) as [Hlen|Hlen].
  - split; [split; [discriminate|done]|].
    intros d [= <-]. simpl.
    repeat split;
      auto using ParseFloat_syntax, Atoi_syntax, ParseBool_error,
        ParseFloat_range, Atoi_range; by apply Atoi_ok.
  - split; [done|]. discriminate.
Qed.

(** The overflow case on a record: the digits of the facing field run
    beyond [uint64] before the letter is reached, so the field is a range
    error and the state faces the largest [int]. *)
Example overflowing_direction_decodes :
  decode "player1,1.00,2.00,99999999999999999999x,true"
  = Some {| d_id := "player1"; d_x := lit "1"; d_y := lit "2";
            d_direction := maxInt; d_isMoving := true |}
  ∧ snd (Atoi "99999999999999999999x") = Some ErrRange
  ∧ decode "player1,1.00,2.00,9x,true"
    = Some {| d_id := "player1"; d_x := lit "1"; d_y := lit "2";
              d_direction := 0; d_isMoving := true |}.
Proof. repeat split; vm_compute; reflexivity. Qed.

(** *** The round trip *)

(** The record of a character, relayed under the identity [id], is read
    back by the receive loop as one record with the same identity,
    direction and movement flag, and the position rounded by [%.2f]. *)
Lemma decode_relayed_encode (id : string) (c : Character) :
  id ≠ "" → allChars fieldChar id = true →
  (minInt ≤ direction c ≤ maxInt)%Z →
  decode <$> Split (TrimSpace (id ++ "," ++ encode c)) ";"
  = [Some {| d_id := id;
             d_x := round2 (X (position c));
             d_y := round2 (Y (position c));
             d_direction := direction c;
             d_isMoving := isMoving c |}].
Proof.
  intros Hid Hidc Hdir. unfold encode.
  set (fx := formatFloat2 (X (position c))).
  set (fy := formatFloat2 (Y (position c))).
  set (fd := formatInt (direction c)).
  set (fb := formatBool (isMoving c)).
  destruct (fieldChars_split id Hidc) as (Hid1 & Hid2 & Hid3).
  destruct (fieldChars_split fx (formatFloat2_fieldChars _)) as (_ & Hx2 & Hx3).
  destruct (fieldChars_split fy (formatFloat2_fieldChars _)) as (_ & Hy2 & Hy3).
  destruct (formatInt_fieldChars (direction c)) as [Hdc _].
  destruct (fieldChars_split fd Hdc) as (_ & Hd2 & Hd3).
  assert (Hbc : allChars fieldChar fb = true ∧ fb ≠ "")
    by (unfold fb; by destruct (isMoving c)).
  destruct Hbc as [Hbc Hbne].
  destruct (fieldChars_split fb Hbc) as (Hb1 & Hb2 & Hb3).
  replace (id ++ "," ++ fx ++ "," ++ fy ++ "," ++ fd ++ "," ++ fb
           ++ String "010" "")%string
    with (id ++ ("," ++ fx ++ "," ++ fy ++ "," ++ fd ++ ",") ++ fb
          ++ String "010" "")%string
    by (by rewrite !append_assoc).
  rewrite TrimSpace_fields by done.
  set (whole := (id ++ ("," ++ fx ++ "," ++ fy ++ "," ++ fd ++ ",") ++ fb)%string).
  assert (Hsemi : allChars (notSep ";") whole = true).
  { unfold whole. rewrite !allChars_app, Hid3, Hx3, Hy3, Hd3, Hb3. done. }
  rewrite (Split_no_sep _ _ Hsemi). cbn [fmap list_fmap]. do 2 f_equal.
  assert (Hsplit : Split whole "," = [id; fx; fy; fd; fb]).
  { unfold whole. rewrite !append_assoc.
    change ("," ++ fx ++ "," ++ fy ++ "," ++ fd ++ "," ++ fb)%string
      with (String "," (fx ++ String "," (fy ++ String "," (fd ++ String "," fb)))).
    rewrite !Split_app by done. by rewrite Split_no_sep. }
  unfold decode. rewrite Hsplit. simpl.
  unfold fx, fy, fd, fb.
  by rewrite !ParseFloat_formatFloat2, Atoi_formatInt, ParseBool_formatBool.
Qed.

Lemma clientID_fieldChars (s : Relay.Server) :
  Relay.clientID s ≠ "" ∧ allChars fieldChar (Relay.clientID s) = true.
Proof.
  unfold Relay.clientID. split; [discriminate|].
  destruct (formatInt_fieldChars (Z.of_nat (size (Relay.clients s) + 1)))
    as [H _].
  by rewrite allChars_app, H.
Qed.

Lemma round2_finite (x : float64) :
  isFinite x = true →
  round2 x = decimalToFloat (signOf x) (hundredths x) (-2).
Proof. by destruct x. Qed.

(** C4 fails as it is worded: the record of line 151 has four fields,
    the receive loop wants five, and gives nothing. *)
Lemma bare_record_is_skipped :
  encode (localPlayer ClientFacts.demoGame)
  = String.append "400.00,300.00,0,false" (String "010" "")
  ∧ decode <$> Split (TrimSpace (encode (localPlayer ClientFacts.demoGame))) ";"
    = [None].
Proof. split; vm_compute; reflexivity. Qed.

(** C4 with the relay in between.  Take a character whose coordinates
    are finite and whose direction is one of 0, 1, 2, 3.  The record of
    line 151, once the relay has put an identity and a comma in front of
    it, is read back by lines 200 to 209 as one record; it has that
    identity, the same direction, the same movement flag, and each
    coordinate [x] comes back as the [float64] nearest to [n / 100], with
    the sign of [x], where [n] is the integer nearest to [100 * |x|]. *)
Theorem decode_encode_roundtrip (s : Relay.Server) (c : Character) :
  isFinite (X (position c)) = true →
  isFinite (Y (position c)) = true →
  (0 ≤ direction c ≤ 3)%Z →
  decode <$> Split (TrimSpace (Relay.clientID s ++ "," ++ encode c)) ";"
  = [Some {| d_id := Relay.clientID s;
             d_x := decimalToFloat (signOf (X (position c)))
                      (hundredths (X (position c))) (-2);
             d_y := decimalToFloat (signOf (Y (position c)))
                      (hundredths (Y (position c))) (-2);
             d_direction := direction c;
             d_isMoving := isMoving c |}].
Proof.
  intros Hx Hy Hdir. destruct (clientID_fieldChars s) as [Hne Hall].
  rewrite <- (round2_finite _ Hx), <- (round2_finite _ Hy).
  apply decode_relayed_encode; try done. unfold minInt, maxInt. lia.
Qed.

(** A character at (0.125, -300.5), looking down, moving. *)
Definition demoMover : Character :=
  setIsMoving true
    (setDirection 2
       (setPosition {| X := lit "0.125"; Y := lit "-300.5" |}
          ClientFacts.demoEntry)).

Lemma decode_encode_roundtrip_witness :
  encode demoMover = String.append "0.12,-300.50,2,true" (String "010" "")
  ∧ decode <$> Split (TrimSpace (Relay.clientID Relay.NewServer ++ ","
                                 ++ encode demoMover)) ";"
    = [Some {| d_id := "player1"; d_x := lit "0.12"; d_y := lit "-300.5";
               d_direction := 2; d_isMoving := true |}].
Proof.
  split; [vm_compute; reflexivity|].
  rewrite (decode_encode_roundtrip Relay.NewServer demoMover
             eq_refl eq_refl ltac:(simpl; lia)).
  vm_compute. reflexivity.
Defined.

(** The round trip loses what [%.2f] does not print: 0.125 comes back
    as 0.12. *)
Lemma roundtrip_is_lossy :
  round2 (lit "0.125") = lit "0.12" ∧ lit "0.12" ≠ lit "0.125".
Proof. split; [vm_compute; reflexivity | vm_compute; discriminate]. Qed.

End CodecFacts.

(** * The client behind the relay *)


Module SystemFacts.
Import GoStrings Strconv Fmt.

(** The first player connects, registers, and sends the record of its
    first tick. *)
Definition firstTick : list Relay.event :=
  [Relay.EvAccept 1%positive; Relay.EvComputeID 1%positive;
   Relay.EvRegister 1%positive;
   Relay.EvMessage 1%positive
     (Client.encode (Client.localPlayer ClientFacts.demoGame)) ∅].

Definition echo : string :=
  String.append "player1,400.00,300.00,0,false" (String "010" "").

Lemma clientID_not_local (s : Relay.Server) : Relay.clientID s ≠ "local".
Proof. unfold Relay.clientID. rewrite TextFacts.append_cons. discriminate. Qed.

(** Whatever the registry holds when the identity is computed, the
    record comes back to the client as an update for that identity: the
    test of line 211 never stops a record the relay wrote. *)
Lemma relayed_record_is_an_update (s : Relay.Server) (g : Client.Game)
    (c : Client.Character) :
  (minInt ≤ Client.direction c ≤ maxInt)%Z →
  Client.updatesIn (Relay.clientID s ++ "," ++ Client.encode c)
  = [Relay.clientID s]
  ∧ is_Some (Client.otherPlayers
               (Client.receiveMessage g
                  (Relay.clientID s ++ "," ++ Client.encode c))
             !! Relay.clientID s).
Proof.
  intros Hdir.
  destruct (CodecFacts.clientID_fieldChars s) as [Hne Hall].
  pose proof (CodecFacts.decode_relayed_encode _ c Hne Hall Hdir) as Hdec.
  assert (Hup : Client.updatesIn (Relay.clientID s ++ "," ++ Client.encode c)
                = [Relay.clientID s]).
  { unfold Client.updatesIn.
    destruct (Split _ ";") as [|r [|r' l]]; try discriminate Hdec.
    injection Hdec as Hr. simpl. unfold Client.updateOf. rewrite Hr.
    cbn [Client.d_id].
    assert (Hloc : String.eqb (Relay.clientID s) "local" = false)
      by (apply String.eqb_neq, clientID_not_local).
    by rewrite Hloc. }
  split; [done|].
  apply ClientFacts.receiveMessage_is_Some. right. rewrite Hup.
  apply list_elem_of_In. by left.
Qed.

(** C3 fails on the two programs together.  The relay writes the
    record back to its sender under the identity ["player1"]; no
    identity the relay makes is ["local"], so the receive loop of the
    sender keeps the record and makes a cache entry for the sender
    itself. *)
Theorem own_echo_is_cached :
  (Relay.writes <$> Relay.run Relay.init firstTick)
  = Some [{| Relay.w_conn := 1%positive; Relay.w_data := echo;
             Relay.w_ok := true |}]
  ∧ Client.updatesIn echo = ["player1"]
  ∧ Client.pose
    <$> Client.otherPlayers
          (Client.receiveMessage ClientFacts.demoGame echo) !! "player1"
    = Some (Client.pose (Client.localPlayer ClientFacts.demoGame)).
Proof. repeat split; vm_compute; reflexivity. Qed.

End SystemFacts.

(** * More on the relay: the life of a connection *)

Module RelayRuns.
Import Fmt Relay TextFacts RelayFacts.

(** The connection whose goroutine (or whose accept) an event is. *)
Definition connOf (ev : event) : Conn :=
  match ev with
  | EvAccept c | EvComputeID c | EvRegister c | EvMessage c _ _
  | EvReadErr c => c
  end.

(** Every entry of the registry belongs to a goroutine in its read
    loop, under the identity that goroutine computed. *)
Definition registered_looping (w : World) : Prop :=
  ∀ conn id, clients (server w) !! conn = Some id →
             handlers w !! conn = Some (PcLoop id).

Lemma step_registered_looping (w w' : World) (ev : event) :
  registered_looping w → step w ev = Some w' → registered_looping w'.
Proof.
  intros Hinv Hstep c id.
  destruct ev as [k|k|k|k message failing|k]; unfold step in Hstep.
  - destruct (handlers w !! k) eqn:Hk; [done|]. simplify_eq; simpl.
    intros Hc. destruct (decide (k = c)) as [->|Hne].
    + apply Hinv in Hc. congruence.
    + rewrite lookup_insert_ne by done. by apply Hinv.
  - destruct (handlers w !! k) as [[]|] eqn:Hk; try done. simplify_eq; simpl.
    intros Hc. destruct (decide (k = c)) as [->|Hne].
    + apply Hinv in Hc. congruence.
    + rewrite lookup_insert_ne by done. by apply Hinv.
  - destruct (handlers w !! k) as [[|id'|id'|]|] eqn:Hk; try done.
    simplify_eq; simpl. destruct (decide (k = c)) as [->|Hne].
    + rewrite !lookup_insert_eq. congruence.
    + rewrite !lookup_insert_ne by done. apply Hinv.
  - destruct (handlers w !! k) as [[|id'|id'|]|] eqn:Hk; try done.
    destruct (broadcast _ _ _) as [ws ls]. simplify_eq; simpl. apply Hinv.
  - destruct (handlers w !! k) as [[|id'|id'|]|] eqn:Hk; try done.
    simplify_eq; simpl. destruct (decide (k = c)) as [->|Hne].
    + by rewrite lookup_delete_eq.
    + rewrite lookup_delete_ne, lookup_insert_ne by done. apply Hinv.
Qed.

Lemma run_registered_looping (evs : list event) (w w' : World) :
  registered_looping w → run w evs = Some w' → registered_looping w'.
Proof.
  revert w. induction evs as [|ev evs IH]; simpl; intros w Hinv Hrun.
  - by simplify_eq.
  - destruct (step w ev) as [w1|] eqn:Hstep; [|done].
    eauto using step_registered_looping.
Qed.

(** X1.  In every state the relay can reach, the registry holds exactly
    the connections whose goroutine is in its read loop, each under the
    identity that goroutine computed at line 26. *)
Theorem registry_is_the_read_loops (evs : list event) (w : World)
    (conn : Conn) (id : string) :
  run init evs = Some w →
  (clients (server w) !! conn = Some id
   ↔ handlers w !! conn = Some (PcLoop id)).
Proof.
  intros Hrun. split.
  - apply (run_registered_looping evs init w); [|done].
    intros c i. unfold init; simpl. by rewrite lookup_empty.
  - apply (run_looping_registered evs init w); [|done].
    apply init_looping_registered.
Qed.

Lemma registry_is_the_read_loops_witness :
  clients (server threePlayersWorld) !! 2%positive = Some "player2"
  ↔ handlers threePlayersWorld !! 2%positive = Some (PcLoop "player2").
Proof.
  apply (registry_is_the_read_loops threePlayers).
  vm_compute. reflexivity.
Defined.

(** *** Connections do not interfere *)

Lemma step_other_conn (w w' : World) (ev : event) (conn : Conn) :
  connOf ev ≠ conn → step w ev = Some w' →
  handlers w' !! conn = handlers w !! conn
  ∧ clients (server w') !! conn = clients (server w) !! conn.
Proof.
  intros Hne Hstep.
  destruct ev as [k|k|k|k message failing|k]; unfold step in Hstep;
    simpl in Hne.
  - destruct (handlers w !! k) eqn:Hk; [done|]. simplify_eq; simpl.
    by rewrite lookup_insert_ne.
  - destruct (handlers w !! k) as [[]|] eqn:Hk; try done. simplify_eq; simpl.
    by rewrite lookup_insert_ne.
  - destruct (handlers w !! k) as [[|id'|id'|]|] eqn:Hk; try done.
    simplify_eq; simpl. by rewrite !lookup_insert_ne.
  - destruct (handlers w !! k) as [[|id'|id'|]|] eqn:Hk; try done.
    destruct (broadcast _ _ _) as [ws ls]. by simplify_eq.
  - destruct (handlers w !! k) as [[|id'|id'|]|] eqn:Hk; try done.
    simplify_eq; simpl. by rewrite lookup_insert_ne, lookup_delete_ne.
Qed.

(** When an event can happen, given where the goroutine of its
    connection stands. *)
Definition enabledAt (ev : event) (p : option pc) : Prop :=
  match ev, p with
  | EvAccept _, None => True
  | EvComputeID _, Some PcStart => True
  | EvRegister _, Some (PcHasID _) => True
  | EvMessage _ _ _, Some (PcLoop _) => True
  | EvReadErr _, Some (PcLoop _) => True
  | _, _ => False
  end.

Lemma step_enabled (w : World) (ev : event) :
  is_Some (step w ev) ↔ enabledAt ev (handlers w !! connOf ev).
Proof.
  destruct ev as [k|k|k|k message failing|k]; unfold step; simpl;
    destruct (handlers w !! k) as [[|id'|id'|]|];
    try destruct (broadcast _ _ _); split;
    first [done | by intros [? ?] | eauto].
Qed.

(** X2.  What the relay does for other connections (accepting them,
    registering them, broadcasting their records, unregistering them
    when their read fails) changes neither where the goroutine of a
    connection stands nor its entry in the registry, and enables or
    disables none of its actions: a connection that fails stops no other
    one from being served. *)
Theorem other_connections_do_not_interfere (evs : list event)
    (w w' : World) (conn : Conn) :
  Forall (λ ev, connOf ev ≠ conn) evs →
  run w evs = Some w' →
  handlers w' !! conn = handlers w !! conn
  ∧ clients (server w') !! conn = clients (server w) !! conn
  ∧ ∀ ev, connOf ev = conn → (is_Some (step w' ev) ↔ is_Some (step w ev)).
Proof.
  assert (Hrun : ∀ evs w w',
            Forall (λ ev, connOf ev ≠ conn) evs → run w evs = Some w' →
            handlers w' !! conn = handlers w !! conn
            ∧ clients (server w') !! conn = clients (server w) !! conn).
  { clear. induction evs as [|ev evs IH]; simpl; intros w w' Hall Hrun.
    - by simplify_eq.
    - destruct (step w ev) as [w1|] eqn:Hstep; [|done].
      apply Forall_cons in Hall as [Hne Hall].
      destruct (step_other_conn _ _ _ _ Hne Hstep) as [H1 H2].
      destruct (IH _ _ Hall Hrun) as [H3 H4].
      split; congruence. }
  intros Hall Hr. destruct (Hrun _ _ _ Hall Hr) as [Hh Hc].
  split; [done|]. split; [done|].
  intros ev Hev.
  pose proof (step_enabled w ev) as E1.
  pose proof (step_enabled w' ev) as E2.
  rewrite Hev in E1, E2. rewrite Hh in E2. by rewrite E1, E2.
Qed.

Lemma other_connections_do_not_interfere_witness :
  ∃ w',
    run threePlayersWorld
      [EvMessage 1%positive "1.00,2.00,3,true" ∅; EvReadErr 1%positive;
       EvAccept 4%positive] = Some w'
    ∧ handlers w' !! 2%positive = Some (PcLoop "player2")
    ∧ clients (server w') !! 2%positive = Some "player2".
Proof.
  eexists. split; [reflexivity|].
  pose proof (other_connections_do_not_interfere
                [EvMessage 1%positive "1.00,2.00,3,true" ∅;
                 EvReadErr 1%positive; EvAccept 4%positive]
                threePlayersWorld _ 2%positive
                ltac:(repeat constructor; discriminate) eq_refl)
    as (Hh & Hc & _).
  split; [exact Hh | exact Hc].
Defined.

(** *** The life of one connection *)

(** Where a goroutine can be later, given where it is now. *)
Definition follows (p q : pc) : Prop :=
  match p with
  | PcStart => True
  | PcHasID id => q = PcHasID id ∨ q = PcLoop id ∨ q = PcDone
  | PcLoop id => q = PcLoop id ∨ q = PcDone
  | PcDone => q = PcDone
  end.

Lemma follows_refl (p : pc) : follows p p.
Proof. destruct p; simpl; auto. Qed.

Lemma follows_trans (p q r : pc) : follows p q → follows q r → follows p r.
Proof.
  destruct p; simpl; [done| | |]; intros Hq Hr.
  - destruct Hq as [->|[->| ->]]; simpl in Hr; tauto.
  - destruct Hq as [->| ->]; simpl in Hr; tauto.
  - by subst.
Qed.

Lemma step_follows (w w' : World) (ev : event) (conn : Conn) (p : pc) :
  handlers w !! conn = Some p → step w ev = Some w' →
  ∃ q, handlers w' !! conn = Some q ∧ follows p q.
Proof.
  intros Hp Hstep. destruct (decide (connOf ev = conn)) as [Heq|Hne].
  - destruct ev as [k|k|k|k message failing|k]; simpl in Heq; subst k;
      unfold step in Hstep; rewrite Hp in Hstep.
    + done.
    + destruct p; try done. simplify_eq; simpl.
      rewrite lookup_insert_eq. eauto.
    + destruct p; try done. simplify_eq; simpl.
      rewrite lookup_insert_eq. eexists. split; [done|]. simpl. auto.
    + destruct p; try done. destruct (broadcast _ _ _). simplify_eq; simpl.
      exists (PcLoop clientID0). split; [done|]. simpl. auto.
    + destruct p; try done. simplify_eq; simpl.
      rewrite lookup_insert_eq. eexists. split; [done|]. simpl. auto.
  - destruct (step_other_conn _ _ _ _ Hne Hstep) as [Hh _].
    exists p. rewrite Hh. split; [done|]. apply follows_refl.
Qed.

(** X3.  A connection keeps one identity for its whole life: the
    identity computed at line 26 is the one it is registered under and
    the one every later broadcast of its records carries, until its read
    fails; after that its goroutine has returned for good. *)
Theorem identity_is_kept (evs : list event) (w w' : World) (conn : Conn)
    (p : pc) :
  handlers w !! conn = Some p →
  run w evs = Some w' →
  ∃ q, handlers w' !! conn = Some q ∧ follows p q.
Proof.
  revert w p. induction evs as [|ev evs IH]; simpl; intros w p Hp Hrun.
  - simplify_eq. exists p. split; [done|]. apply follows_refl.
  - destruct (step w ev) as [w1|] eqn:Hstep; [|done].
    destruct (step_follows _ _ _ _ _ Hp Hstep) as (q1 & Hq1 & Hf1).
    destruct (IH _ _ Hq1 Hrun) as (q & Hq & Hf).
    exists q. split; [done|]. by eapply follows_trans.
Qed.

Lemma identity_is_kept_witness :
  ∃ w' q,
    run threePlayersWorld
      [EvMessage 2%positive "1.00,2.00,3,true" ∅; EvReadErr 1%positive;
       EvAccept 4%positive; EvComputeID 4%positive] = Some w'
    ∧ handlers w' !! 2%positive = Some q
    ∧ (q = PcLoop "player2" ∨ q = PcDone).
Proof.
  eexists.
  destruct (identity_is_kept
              [EvMessage 2%positive "1.00,2.00,3,true" ∅;
               EvReadErr 1%positive; EvAccept 4%positive;
               EvComputeID 4%positive]
              threePlayersWorld _ 2%positive (PcLoop "player2")
              eq_refl eq_refl) as (q & Hq & Hf).
  exists q. split; [reflexivity|]. split; [exact Hq | exact Hf].
Defined.

(** *** Players who join one after the other *)

(** One player joins: accepted, identity computed, registered. *)
Definition joinOne (conn : Conn) : list event :=
  [EvAccept conn; EvComputeID conn; EvRegister conn].

(** [Sprintf("player%d", n)]. *)
Definition playerName (n : nat) : string :=
  "player" ++ formatInt (Z.of_nat n).

Lemma playerName_inj (a b : nat) : playerName a = playerName b → a = b.
Proof.
  unfold playerName, formatInt. intros H.
  apply (String.app_inj "player") in H.
  destruct (Z.ltb_spec (Z.of_nat a) 0); [lia|].
  destruct (Z.ltb_spec (Z.of_nat b) 0); [lia|].
  apply (f_equal (λ s, digitsVal s 0)) in H.
  rewrite !formatUint_value in H. lia.
Qed.

Lemma relay_run_app (evs evs' : list event) (w : World) :
  run w (evs ++ evs') = match run w evs with
                        | Some w1 => run w1 evs'
                        | None => None
                        end.
Proof.
  revert w. induction evs as [|ev evs IH]; intros w; [done|].
  simpl. destruct (step w ev); [apply IH | done].
Qed.

Lemma issued_app (evs evs' : list event) (w w1 : World) :
  run w evs = Some w1 →
  issued w (evs ++ evs') = issued w evs ++ issued w1 evs'.
Proof.
  revert w. induction evs as [|ev evs IH]; intros w Hrun; simpl in *.
  - by simplify_eq.
  - destruct (step w ev) as [w2|]; [|done].
    by rewrite (IH _ Hrun), app_assoc.
Qed.

Lemma run_cons (ev : event) (evs : list event) (w : World) :
  run w (ev :: evs) = match step w ev with
                      | Some w' => run w' evs
                      | None => None
                      end.
Proof. reflexivity. Qed.

Lemma issued_cons (ev : event) (evs : list event) (w : World) :
  issued w (ev :: evs) = match step w ev with
                         | Some w' => issuedBy w ev ++ issued w' evs
                         | None => []
                         end.
Proof. reflexivity. Qed.

Lemma join_one (w : World) (conn : Conn) :
  handlers w !! conn = None →
  run w (joinOne conn)
  = Some {| server := register (server w) conn (clientID (server w));
            handlers := <[conn := PcLoop (clientID (server w))]> (handlers w);
            writes := writes w; logs := logs w |}
  ∧ issued w (joinOne conn) = [clientID (server w)].
Proof.
  intros Hnone.
  set (id := clientID (server w)).
  set (wa := setHandler w conn PcStart).
  set (wb := setHandler wa conn (PcHasID id)).
  assert (Ha : step w (EvAccept conn) = Some wa)
    by (unfold step; by rewrite Hnone).
  assert (Hb : step wa (EvComputeID conn) = Some wb)
    by (unfold step, wa; simpl; by rewrite lookup_insert_eq).
  assert (Hlb : handlers wb !! conn = Some (PcHasID id))
    by (unfold wb; simpl; by rewrite lookup_insert_eq).
  assert (Hc : step wb (EvRegister conn)
               = Some {| server := register (server w) conn id;
                         handlers := <[conn := PcLoop id]> (handlers w);
                         writes := writes w; logs := logs w |}).
  { unfold step. rewrite Hlb. unfold wb, wa. simpl.
    by rewrite !insert_insert_eq. }
  unfold joinOne. split.
  - rewrite run_cons, Ha. cbv beta iota.
    rewrite run_cons, Hb. cbv beta iota.
    by rewrite run_cons, Hc.
  - rewrite issued_cons, Ha. cbv beta iota.
    rewrite issued_cons, Hb. cbv beta iota.
    rewrite issued_cons, Hc. cbv beta iota.
    unfold issuedBy. by rewrite Hlb.
Qed.

Lemma sequential_joins_from (conns : list Conn) (w : World) :
  NoDup conns →
  Forall (λ c, handlers w !! c = None ∧ clients (server w) !! c = None)
    conns →
  ∃ w',
    run w (flat_map joinOne conns) = Some w'
    ∧ issued w (flat_map joinOne conns)
      = playerName <$> seq (S (size (clients (server w)))) (length conns)
    ∧ size (clients (server w'))
      = (size (clients (server w)) + length conns)%nat
    ∧ (∀ i c, conns !! i = Some c →
         clients (server w') !! c
         = Some (playerName (S (size (clients (server w)) + i))))
    ∧ (∀ c, c ∉ conns →
         clients (server w') !! c = clients (server w) !! c).
Proof.
  revert w. induction conns as [|c conns IH]; intros w Hnd Hfresh.
  - exists w. simpl. rewrite Nat.add_0_r. repeat split; auto.
    intros i c H. by rewrite lookup_nil in H.
  - apply NoDup_cons in Hnd as [Hc Hnd].
    apply Forall_cons in Hfresh as [[Hh Hcl] Hfresh].
    destruct (join_one w c Hh) as [Hrun1 Hiss1].
    set (w1 := {| server := register (server w) c (clientID (server w));
                  handlers := <[c := PcLoop (clientID (server w))]> (handlers w);
                  writes := writes w; logs := logs w |}) in *.
    assert (Hsize1 : size (clients (server w1))
                     = S (size (clients (server w)))).
    { simpl. by apply map_size_insert_None. }
    assert (Hfresh1 : Forall (λ k, handlers w1 !! k = None
                                   ∧ clients (server w1) !! k = None) conns).
    { apply Forall_forall. intros k Hk.
      rewrite Forall_forall in Hfresh. destruct (Hfresh k Hk) as [? ?].
      assert (c ≠ k) by (intros ->; done).
      simpl. by rewrite !lookup_insert_ne. }
    destruct (IH w1 Hnd Hfresh1) as (w' & Hrun & Hiss & Hsize & Hlook & Hout).
    exists w'. change (flat_map joinOne (c :: conns))
      with (joinOne c ++ flat_map joinOne conns).
    rewrite relay_run_app, Hrun1, (issued_app _ _ _ _ Hrun1), Hiss1, Hiss, Hsize1.
    split; [done|]. split; [|split; [|split]].
    + simpl. f_equal. unfold clientID, playerName. do 3 f_equal. lia.
    + rewrite Hsize, Hsize1. simpl. lia.
    + intros [|i] k Hk; simpl in Hk.
      * simplify_eq. rewrite (Hout k Hc). simpl. rewrite lookup_insert_eq.
        unfold clientID, playerName. do 4 f_equal. lia.
      * rewrite (Hlook i k Hk), Hsize1. do 2 f_equal. lia.
    + intros k Hk. apply not_elem_of_cons in Hk as [Hne Hk].
      rewrite (Hout k Hk). simpl. by rewrite lookup_insert_ne.
Qed.

(** X4.  When players join a fresh relay one after the other and none
    has left, the [i]-th one is registered as ["player" i], and the
    identities handed out are pairwise distinct. *)
Theorem sequential_joins_are_distinct (conns : list Conn) :
  NoDup conns →
  ∃ w,
    run init (flat_map joinOne conns) = Some w
    ∧ issued init (flat_map joinOne conns)
      = playerName <$> seq 1 (length conns)
    ∧ NoDup (issued init (flat_map joinOne conns))
    ∧ size (clients (server w)) = length conns
    ∧ ∀ i c, conns !! i = Some c →
        clients (server w) !! c = Some (playerName (S i)).
Proof.
  intros Hnd.
  destruct (sequential_joins_from conns init Hnd)
    as (w & Hrun & Hiss & Hsize & Hlook & _).
  { apply Forall_forall. intros c _. unfold init; simpl.
    by rewrite !lookup_empty. }
  exists w. split; [done|]. split; [exact Hiss|]. split; [|split].
  - rewrite Hiss. apply NoDup_fmap_2; [|apply NoDup_seq].
    intros a b. apply playerName_inj.
  - exact Hsize.
  - exact Hlook.
Qed.

Lemma sequential_joins_are_distinct_witness :
  ∃ w,
    run init (flat_map joinOne [5%positive; 3%positive; 8%positive]) = Some w
    ∧ issued init (flat_map joinOne [5%positive; 3%positive; 8%positive])
      = ["player1"; "player2"; "player3"]
    ∧ clients (server w) !! 8%positive = Some "player3".
Proof.
  destruct (sequential_joins_are_distinct [5%positive; 3%positive; 8%positive])
    as (w & Hrun & Hiss & _ & _ & Hlook).
  { repeat constructor; set_solver. }
  exists w. split; [exact Hrun|]. split; [exact Hiss|].
  exact (Hlook 2%nat 8%positive eq_refl).
Defined.

End RelayRuns.

(** * More on the client: keys, invariants, what is published *)

Module ClientRuns.
Import GoStrings Strconv Fmt Client TextFacts ClientFacts.

(** The direction the arrow keys leave: the tests of [handleInput] run
    in the order up, down, left, right, and the last one that is pressed
    wins. *)
Definition keyDirection (keys : Keys) (old : Z) : Z :=
  if KeyRight keys then 3
  else if KeyLeft keys then 1
  else if KeyDown keys then 2
  else if KeyUp keys then 0
  else old.

Definition anyKey (keys : Keys) : bool :=
  KeyUp keys || KeyDown keys || KeyLeft keys || KeyRight keys.

Lemma handleInput_fields (g : Game) (keys : Keys) (dt : float64) :
  isMoving (localPlayer (handleInput g keys dt)) = anyKey keys
  ∧ direction (localPlayer (handleInput g keys dt))
    = keyDirection keys (direction (localPlayer g))
  ∧ bodyTexture (localPlayer (handleInput g keys dt))
    = bodyTexture (localPlayer g)
  ∧ headTexture (localPlayer (handleInput g keys dt))
    = headTexture (localPlayer g)
  ∧ moveSpeed (localPlayer (handleInput g keys dt))
    = moveSpeed (localPlayer g)
  ∧ animationSpeed (localPlayer (handleInput g keys dt))
    = animationSpeed (localPlayer g)
  ∧ frameIndex (localPlayer (handleInput g keys dt))
    = frameIndex (localPlayer g)
  ∧ timeSinceLastFrame (localPlayer (handleInput g keys dt))
    = timeSinceLastFrame (localPlayer g)
  ∧ otherPlayers (handleInput g keys dt) = otherPlayers g
  ∧ tilesImage (handleInput g keys dt) = tilesImage g
  ∧ layers (handleInput g keys dt) = layers g.
Proof.
  destruct keys as [[] [] [] []]; unfold handleInput, handleInputWrite;
    simpl; repeat split.
Qed.

(** X5.  After [handleInput] the local player is moving exactly when an
    arrow key is pressed; it faces the direction of the pressed key that
    is tested last (right, else left, else down, else up) and keeps its
    direction when no key is pressed.  Textures, speeds, frame and timer
    of the local player, the cache, the tiles and the layers are left as
    they were. *)
Theorem arrow_keys_set_direction (g : Game) (keys : Keys) (dt : float64) :
  let g' := handleInput g keys dt in
  isMoving (localPlayer g') = anyKey keys
  ∧ direction (localPlayer g') = keyDirection keys (direction (localPlayer g))
  ∧ bodyTexture (localPlayer g') = bodyTexture (localPlayer g)
  ∧ headTexture (localPlayer g') = headTexture (localPlayer g)
  ∧ moveSpeed (localPlayer g') = moveSpeed (localPlayer g)
  ∧ animationSpeed (localPlayer g') = animationSpeed (localPlayer g)
  ∧ frameIndex (localPlayer g') = frameIndex (localPlayer g)
  ∧ timeSinceLastFrame (localPlayer g') = timeSinceLastFrame (localPlayer g)
  ∧ otherPlayers g' = otherPlayers g
  ∧ tilesImage g' = tilesImage g
  ∧ layers g' = layers g.
Proof.
  intros g'. unfold g', handleInput, handleInputWrite, pressKey.
  destruct keys as [u d l r].
  cbn [KeyUp KeyDown KeyLeft KeyRight].
  destruct u, d, l, r; unfold anyKey, keyDirection; simpl; repeat split.
Qed.

(** *** What every reachable game satisfies *)

(** The animation fields of a character are those [NewCharacter] and
    [updateAnimation] can leave. *)
Definition animOK (c : Character) : Prop :=
  (0 ≤ frameIndex c ≤ 4)%Z
  ∧ moveSpeed c = lit "200.0" ∧ animationSpeed c = lit "0.1".

Definition gameOK (body head : Image) (g : Game) : Prop :=
  animOK (localPlayer g)
  ∧ (0 ≤ direction (localPlayer g) ≤ 3)%Z
  ∧ bodyTexture (localPlayer g) = body
  ∧ headTexture (localPlayer g) = head
  ∧ ∀ id c, otherPlayers g !! id = Some c →
      animOK c ∧ bodyTexture c = body ∧ headTexture c = head.

Lemma next_frame (f : Z) :
  (0 ≤ f ≤ 4)%Z → (0 ≤ Z.rem (wrapInt (f + 1)) 5 ≤ 4)%Z.
Proof.
  intros Hf.
  assert (Hcases : f = 0%Z ∨ f = 1%Z ∨ f = 2%Z ∨ f = 3%Z ∨ f = 4%Z) by lia.
  destruct Hcases as [->|[->|[->|[->| ->]]]]; vm_compute; split; discriminate.
Qed.

Lemma updateAnimation_animOK (c : Character) (dt : float64) :
  animOK c →
  animOK (updateAnimation c dt)
  ∧ bodyTexture (updateAnimation c dt) = bodyTexture c
  ∧ headTexture (updateAnimation c dt) = headTexture c
  ∧ direction (updateAnimation c dt) = direction c.
Proof.
  intros (Hf & Hm & Ha). unfold updateAnimation, animOK.
  destruct (isMoving c); [destruct (SFleb _ _)|]; simpl;
    repeat split; auto using next_frame; try apply next_frame; try lia;
    try apply Hf.
Qed.

Lemma Update_gameOK (body head : Image) (g : Game) (keys : Keys) :
  gameOK body head g → gameOK body head (fst (Update g keys)).
Proof.
  intros (Hlp & Hdir & Hb & Hh & Hothers).
  pose proof (handleInput_fields g keys tickTime)
    as (_ & Hd' & Hb' & Hh' & Hms' & Has' & Hf' & _ & Ho' & _).
  assert (Hlp' : animOK (localPlayer (handleInput g keys tickTime))).
  { destruct Hlp as (? & ? & ?). unfold animOK.
    rewrite Hf', Hms', Has'. auto. }
  destruct (updateAnimation_animOK _ tickTime Hlp') as (H1 & H2 & H3 & H4).
  unfold Update, CharacterUpdate, gameOK; simpl.
  split; [done|]. split; [|split; [|split]].
  - rewrite H4, Hd'. unfold keyDirection.
    destruct (KeyRight keys), (KeyLeft keys), (KeyDown keys), (KeyUp keys);
      lia.
  - congruence.
  - congruence.
  - intros id c. rewrite Ho', lookup_fmap.
    destruct (otherPlayers g !! id) as [c1|] eqn:Hc1; [|done].
    intros [= <-]. destruct (Hothers id c1 Hc1) as (Hok & Hb1 & Hh1).
    destruct (updateAnimation_animOK c1 tickTime Hok) as (? & ? & ? & _).
    repeat split; try apply H; congruence.
Qed.

Lemma apply_gameOK (body head : Image) (g : Game) (d : Decoded) :
  gameOK body head g → gameOK body head (apply g d).
Proof.
  intros Hg. destruct (String.eqb (d_id d) "local") eqn:Hloc.
  - unfold apply. by rewrite Hloc.
  - apply String.eqb_neq in Hloc.
    destruct Hg as (Hlp & Hdir & Hb & Hh & Hothers).
    assert (Hframe : localPlayer (apply g d) = localPlayer g).
    { unfold apply. by destruct (String.eqb _ _). }
    unfold gameOK. rewrite Hframe.
    split; [done|]. split; [done|]. split; [done|]. split; [done|].
    intros id c. destruct (decide (id = d_id d)) as [->|Hne].
    + rewrite (apply_lookup g d Hloc). intros [= <-].
      destruct (otherPlayers g !! d_id d) as [c1|] eqn:Hc1; simpl.
      * destruct (Hothers _ _ Hc1) as ((? & ? & ?) & ? & ?).
        unfold animOK; simpl. auto.
      * unfold animOK; simpl. repeat split; auto; lia.
    + rewrite (apply_lookup_ne g d id Hne). apply Hothers.
Qed.

Lemma receiveMessage_gameOK (body head : Image) (g : Game)
    (message : string) :
  gameOK body head g → gameOK body head (receiveMessage g message).
Proof.
  unfold receiveMessage. generalize (Split (TrimSpace message) ";").
  intros records. revert g.
  induction records as [|r records IH]; intros g Hg; [done|].
  simpl. apply IH. unfold applyRecord.
  destruct (decode r); [by apply apply_gameOK | done].
Qed.

Lemma step_gameOK (body head : Image) (st : State) (ev : event) :
  gameOK body head (game st) → gameOK body head (game (step st ev)).
Proof.
  intros Hg. destruct ev as [keys|[message|]|]; unfold step; cbn [game].
  - by apply Update_gameOK.
  - destruct (receiving st); cbn [game]; [|done].
    by apply receiveMessage_gameOK.
  - done.
  - exact Hg.
Qed.

Lemma run_gameOK (body head : Image) (evs : list event) (st : State) :
  gameOK body head (game st) → gameOK body head (game (run st evs)).
Proof.
  revert st. induction evs as [|ev evs IH]; intros st Hg; [done|].
  change (run st (ev :: evs)) with (run (step st ev) evs).
  apply IH. by apply step_gameOK.
Qed.

(** X6.  Whatever the keys, the ticks and the messages, the local
    player always faces one of the directions 0, 1, 2, 3; every
    character of the game, local or cached, has a frame index between 0
    and 4, the move speed 200 and the animation speed 0.1 it was created
    with, and the two textures the game was created with. *)
Theorem characters_stay_well_formed (c0 : Conn) (body head tiles : Image)
    (tileLayers : list (list Z)) (evs : list event) :
  let g := game (run (start (NewGame c0 body head tiles tileLayers)) evs) in
  (0 ≤ direction (localPlayer g) ≤ 3)%Z
  ∧ (0 ≤ frameIndex (localPlayer g) ≤ 4)%Z
  ∧ moveSpeed (localPlayer g) = lit "200.0"
  ∧ animationSpeed (localPlayer g) = lit "0.1"
  ∧ bodyTexture (localPlayer g) = body
  ∧ headTexture (localPlayer g) = head
  ∧ ∀ id c, otherPlayers g !! id = Some c →
      (0 ≤ frameIndex c ≤ 4)%Z
      ∧ moveSpeed c = lit "200.0" ∧ animationSpeed c = lit "0.1"
      ∧ bodyTexture c = body ∧ headTexture c = head.
Proof.
  intros g.
  assert (Hg : gameOK body head g).
  { apply run_gameOK. unfold gameOK, animOK; simpl.
    repeat split; try lia. all: by rewrite lookup_empty in *. }
  destruct Hg as ((Hf & Hm & Ha) & Hd & Hb & Hh & Ho).
  repeat split; try apply Hf; try apply Hd; auto;
    destruct (Ho _ _ H) as ((? & ? & ?) & ? & ?); auto; lia.
Qed.

(** *** The receive loop only touches the cache *)

Lemma apply_frame (g : Game) (d : Decoded) :
  localPlayer (apply g d) = localPlayer g ∧ conn (apply g d) = conn g
  ∧ tilesImage (apply g d) = tilesImage g ∧ layers (apply g d) = layers g.
Proof. unfold apply. by destruct (String.eqb _ _). Qed.

Lemma receiveMessage_frame (g : Game) (message : string) :
  localPlayer (receiveMessage g message) = localPlayer g
  ∧ conn (receiveMessage g message) = conn g
  ∧ tilesImage (receiveMessage g message) = tilesImage g
  ∧ layers (receiveMessage g message) = layers g.
Proof.
  unfold receiveMessage. generalize (Split (TrimSpace message) ";").
  intros records. revert g.
  induction records as [|r records IH]; intros g; [done|].
  simpl. destruct (IH (applyRecord g r)) as (-> & -> & -> & ->).
  unfold applyRecord. destruct (decode r); [apply apply_frame | done].
Qed.

(** X7.  Whatever it reads, the receive loop changes nothing but the
    cache: the local player, the connection (nothing is ever written
    from this loop), the tiles and the layers are as they were. *)
Theorem receive_loop_only_touches_cache (g : Game)
    (reads : list readResult) :
  localPlayer (receiveUpdates g reads) = localPlayer g
  ∧ conn (receiveUpdates g reads) = conn g
  ∧ tilesImage (receiveUpdates g reads) = tilesImage g
  ∧ layers (receiveUpdates g reads) = layers g.
Proof.
  revert g. induction reads as [|[message|] reads IH]; intros g; [done| |done].
  simpl. destruct (IH (receiveMessage g message)) as (-> & -> & -> & ->).
  apply receiveMessage_frame.
Qed.

(** X8.  The receive loop handles the messages read before the first
    read error, in order, and nothing that comes after it; the client as
    a transition system does the same. *)
Theorem receive_loop_stops_at_first_error (g : Game)
    (messages : list string) (rest : list readResult) :
  receiveUpdates g ((ReadOK <$> messages) ++ ReadErr :: rest)
  = fold_left receiveMessage messages g
  ∧ game (run (start g)
            (EvRead <$> ((ReadOK <$> messages) ++ ReadErr :: rest)))
    = fold_left receiveMessage messages g
  ∧ receiving (run (start g)
                 (EvRead <$> ((ReadOK <$> messages) ++ ReadErr :: rest)))
    = false.
Proof.
  assert (Hdead : ∀ reads g,
            run {| game := g; receiving := false |} (EvRead <$> reads)
            = {| game := g; receiving := false |}).
  { induction reads as [|[m|] reads IH]; intros g0; [done| |];
      change (run ?st (EvRead <$> ?r :: reads))
        with (run (step st (EvRead r)) (EvRead <$> reads)); simpl; apply IH. }
  unfold start. revert g.
  induction messages as [|m messages IH]; intros g.
  - split; [done|].
    change (run ?st (EvRead <$> ([] ++ ReadErr :: rest)))
      with (run (step st (EvRead ReadErr)) (EvRead <$> rest)).
    simpl. by rewrite Hdead.
  - destruct (IH (receiveMessage g m)) as (H1 & H2 & H3).
    split; [exact H1|].
    change (run ?st (EvRead <$> ((ReadOK <$> m :: messages) ++ ReadErr :: rest)))
      with (run (step st (EvRead (ReadOK m)))
              (EvRead <$> ((ReadOK <$> messages) ++ ReadErr :: rest))).
    simpl. split; [exact H2 | exact H3].
Qed.

(** *** The identity ["local"] *)

Lemma applyRecord_no_local (g : Game) (playerData : string) :
  otherPlayers g !! "local" = None →
  otherPlayers (applyRecord g playerData) !! "local" = None.
Proof.
  intros Hg. unfold applyRecord. destruct (decode playerData) as [d|]; [|done].
  destruct (String.eqb (d_id d) "local") eqn:Hloc.
  - apply String.eqb_eq in Hloc. by rewrite (apply_local g d Hloc).
  - apply String.eqb_neq in Hloc.
    rewrite (apply_lookup_ne g d "local"); [done|congruence].
Qed.

Lemma step_no_local (st : State) (ev : event) :
  otherPlayers (game st) !! "local" = None →
  otherPlayers (game (step st ev)) !! "local" = None.
Proof.
  intros Hg. destruct ev as [keys|[message|]|]; unfold step; cbn [game].
  - destruct (handleInput_fields (game st) keys tickTime)
      as (_ & _ & _ & _ & _ & _ & _ & _ & Ho & _).
    unfold Update; simpl. by rewrite Ho, lookup_fmap, Hg.
  - destruct (receiving st); cbn [game]; [|done].
    unfold receiveMessage. generalize (Split (TrimSpace message) ";").
    intros records. revert Hg. generalize (game st).
    induction records as [|r records IH]; intros g Hg; [done|].
    simpl. apply IH. by apply applyRecord_no_local.
  - done.
  - exact Hg.
Qed.

(** X22.  The cache never holds an entry under the identity ["local"]:
    whatever is received, with whatever identity, from a new game on. *)
Theorem cache_has_no_local_entry (c0 : Conn) (body head tiles : Image)
    (tileLayers : list (list Z)) (evs : list event) :
  otherPlayers (game (run (start (NewGame c0 body head tiles tileLayers))
                        evs))
  !! "local" = None.
Proof.
  assert (Hgen : ∀ st, otherPlayers (game st) !! "local" = None →
                       otherPlayers (game (run st evs)) !! "local" = None).
  { induction evs as [|ev evs IH]; intros st Hst; [done|].
    change (run st (ev :: evs)) with (run (step st ev) evs).
    apply IH. by apply step_no_local. }
  apply Hgen. unfold start, NewGame; simpl. apply lookup_empty.
Qed.

(** *** What is published *)

Fixpoint ticks (evs : list event) : nat :=
  match evs with
  | [] => O
  | EvTick _ :: evs' => S (ticks evs')
  | _ :: evs' => ticks evs'
  end.

(** A record of line 151 for a character that faces one of the four
    directions. *)
Definition validRecord (r : string) : Prop :=
  ∃ c, r = encode c ∧ (0 ≤ direction c ≤ 3)%Z.

Lemma step_attempts (body head : Image) (st : State) (ev : event) :
  gameOK body head (game st) →
  ∃ records,
    attempts (conn (game (step st ev)))
    = attempts (conn (game st)) ++ records
    ∧ length records = ticks [ev]
    ∧ Forall validRecord records.
Proof.
  intros Hg. destruct ev as [keys|[message|]|]; unfold step; cbn [game].
  - exists [encode (localPlayer (handleInput (game st) keys tickTime))].
    split; [|split; [done|]].
    + unfold Update; simpl. by rewrite handleInput_write.
    + constructor; [|constructor]. eexists. split; [done|].
      pose proof (handleInput_fields (game st) keys tickTime)
        as (_ & Hd & _). rewrite Hd.
      destruct Hg as (_ & Hdir & _). unfold keyDirection.
      destruct (KeyRight keys), (KeyLeft keys), (KeyDown keys), (KeyUp keys);
        lia.
  - exists []. rewrite app_nil_r. split; [|done].
    destruct (receiving st); cbn [game]; [|done].
    by destruct (receiveMessage_frame (game st) message) as (_ & -> & _).
  - exists []. by rewrite app_nil_r.
  - exists []. by rewrite app_nil_r.
Qed.

Lemma ticks_cons (ev : event) (evs : list event) :
  ticks (ev :: evs) = (ticks [ev] + ticks evs)%nat.
Proof. by destruct ev. Qed.

Lemma run_attempts (body head : Image) (evs : list event) (st : State) :
  gameOK body head (game st) →
  ∃ records,
    attempts (conn (game (run st evs)))
    = attempts (conn (game st)) ++ records
    ∧ length records = ticks evs
    ∧ Forall validRecord records.
Proof.
  revert st. induction evs as [|ev evs IH]; intros st Hg.
  - exists []. by rewrite app_nil_r.
  - change (run st (ev :: evs)) with (run (step st ev) evs).
    destruct (step_attempts body head st ev Hg) as (r1 & Ha1 & Hl1 & Hv1).
    destruct (IH (step st ev) (step_gameOK _ _ _ _ Hg))
      as (r2 & Ha2 & Hl2 & Hv2).
    exists (r1 ++ r2). split; [|split].
    + by rewrite Ha2, Ha1, app_assoc.
    + rewrite length_app, ticks_cons. lia.
    + by apply Forall_app.
Qed.

(** X9.  From a new game, whatever happens, the client writes exactly
    one record per tick and none otherwise (not when it receives, not
    when the connection breaks), and every record it writes is the
    record of a character that faces one of the directions 0, 1, 2, 3. *)
Theorem one_valid_record_per_tick (c0 : Conn) (body head tiles : Image)
    (tileLayers : list (list Z)) (evs : list event) :
  ∃ records,
    attempts (conn (game (run (start (NewGame c0 body head tiles tileLayers))
                           evs)))
    = attempts c0 ++ records
    ∧ length records = ticks evs
    ∧ Forall validRecord records.
Proof.
  apply (run_attempts body head). unfold gameOK, animOK; simpl.
  repeat split; try lia. all: by rewrite lookup_empty in *.
Qed.

(** *** Updates of the cache, composed *)

Lemma game_eq (g1 g2 : Game) :
  localPlayer g1 = localPlayer g2 → otherPlayers g1 = otherPlayers g2 →
  conn g1 = conn g2 → tilesImage g1 = tilesImage g2 →
  layers g1 = layers g2 → g1 = g2.
Proof. destruct g1, g2; simpl; intros; by subst. Qed.

(** X10.  The first record for an identity creates its entry: the record's
    position, direction and movement flag, the textures of the local
    player, move speed 200, animation speed 0.1, frame 0 and a timer at 0. *)
Theorem first_update_creates_entry (g : Game) (playerData : string)
    (d : Decoded) :
  decode playerData = Some d →
  d_id d ≠ "local" →
  otherPlayers g !! d_id d = None →
  otherPlayers (applyRecord g playerData) !! d_id d
  = Some {| bodyTexture := bodyTexture (localPlayer g);
            headTexture := headTexture (localPlayer g);
            position := {| X := d_x d; Y := d_y d |};
            moveSpeed := lit "200.0";
            animationSpeed := lit "0.1";
            frameIndex := 0;
            direction := d_direction d;
            timeSinceLastFrame := S754_zero false;
            isMoving := d_isMoving d |}.
Proof.
  intros Hdec Hid Hnone. unfold applyRecord. rewrite Hdec.
  rewrite (apply_lookup g d Hid), Hnone. reflexivity.
Qed.

Lemma first_update_creates_entry_witness :
  otherPlayers (applyRecord demoGame "player1,1.50,2.25,3,true") !! "player1"
  = Some {| bodyTexture := 1%positive;
            headTexture := 2%positive;
            position := {| X := lit "1.50"; Y := lit "2.25" |};
            moveSpeed := lit "200.0";
            animationSpeed := lit "0.1";
            frameIndex := 0;
            direction := 3;
            timeSinceLastFrame := S754_zero false;
            isMoving := true |}.
Proof.
  assert (H1 : decode "player1,1.50,2.25,3,true" = Some demoUpdate)
    by (vm_compute; reflexivity).
  assert (H2 : otherPlayers demoGame !! d_id demoUpdate = None)
    by (vm_compute; reflexivity).
  assert (H3 : d_id demoUpdate ≠ "local") by discriminate.
  exact (first_update_creates_entry demoGame "player1,1.50,2.25,3,true"
           demoUpdate H1 H3 H2).
Defined.

Lemma apply_supersedes (g : Game) (d1 d2 : Decoded) :
  d_id d1 = d_id d2 → apply (apply g d1) d2 = apply g d2.
Proof.
  intros Hid. destruct (String.eqb (d_id d2) "local") eqn:Hloc.
  - rewrite (apply_local g d2), (apply_local _ d2), (apply_local g d1);
      try done; apply String.eqb_eq; congruence.
  - apply String.eqb_neq in Hloc.
    assert (Hloc1 : d_id d1 ≠ "local") by congruence.
    destruct (apply_frame g d1) as (Hl1 & Hc1 & Ht1 & Hy1).
    destruct (apply_frame g d2) as (Hl2 & Hc2 & Ht2 & Hy2).
    destruct (apply_frame (apply g d1) d2) as (Hl3 & Hc3 & Ht3 & Hy3).
    apply game_eq; try congruence.
    apply map_eq. intros id. destruct (decide (id = d_id d2)) as [->|Hne].
    + rewrite (apply_lookup _ d2 Hloc), (apply_lookup g d2 Hloc), Hl1.
      rewrite <- Hid at 1. rewrite (apply_lookup g d1 Hloc1), Hid.
      by destruct (otherPlayers g !! d_id d2).
    + rewrite !(apply_lookup_ne _ d2 id Hne).
      apply apply_lookup_ne. congruence.
Qed.

(** X11.  A record supersedes an earlier record for the same identity:
    after both, the game is what the later one alone would have made of
    it.  In particular the same record twice is the same as once. *)
Theorem update_supersedes (g : Game) (r1 r2 : string) (d1 d2 : Decoded) :
  decode r1 = Some d1 → decode r2 = Some d2 → d_id d1 = d_id d2 →
  applyRecord (applyRecord g r1) r2 = applyRecord g r2.
Proof.
  intros H1 H2 Hid. unfold applyRecord. rewrite H1, H2.
  by apply apply_supersedes.
Qed.

Lemma update_supersedes_witness :
  applyRecord (applyRecord demoGame "player1,400.00,300.00,0,false")
    "player1,1.50,2.25,3,true"
  = applyRecord demoGame "player1,1.50,2.25,3,true".
Proof.
  apply (update_supersedes demoGame "player1,400.00,300.00,0,false"
           "player1,1.50,2.25,3,true"
           {| d_id := "player1"; d_x := lit "400.00"; d_y := lit "300.00";
              d_direction := 0; d_isMoving := false |}
           demoUpdate).
  - vm_compute. reflexivity.
  - vm_compute. reflexivity.
  - reflexivity.
Defined.

Lemma apply_commutes (g : Game) (d1 d2 : Decoded) :
  d_id d1 ≠ d_id d2 → apply (apply g d1) d2 = apply (apply g d2) d1.
Proof.
  intros Hne.
  destruct (String.eqb (d_id d1) "local") eqn:Hloc1.
  { apply String.eqb_eq in Hloc1.
    by rewrite (apply_local g d1), (apply_local (apply g d2) d1). }
  destruct (String.eqb (d_id d2) "local") eqn:Hloc2.
  { apply String.eqb_eq in Hloc2.
    by rewrite (apply_local g d2), (apply_local (apply g d1) d2). }
  apply String.eqb_neq in Hloc1, Hloc2.
  destruct (apply_frame g d1) as (Hl1 & Hc1 & Ht1 & Hy1).
  destruct (apply_frame g d2) as (Hl2 & Hc2 & Ht2 & Hy2).
  destruct (apply_frame (apply g d1) d2) as (Hl3 & Hc3 & Ht3 & Hy3).
  destruct (apply_frame (apply g d2) d1) as (Hl4 & Hc4 & Ht4 & Hy4).
  apply game_eq; try congruence.
  apply map_eq. intros id.
  destruct (decide (id = d_id d1)) as [->|Hn1].
  - rewrite (apply_lookup_ne _ d2 _ Hne), (apply_lookup g d1 Hloc1).
    rewrite (apply_lookup _ d1 Hloc1), Hl2.
    by rewrite (apply_lookup_ne g d2 _ Hne).
  - destruct (decide (id = d_id d2)) as [->|Hn2].
    + rewrite (apply_lookup _ d2 Hloc2), Hl1, (apply_lookup_ne g d1 _ Hn1).
      by rewrite (apply_lookup_ne _ d1 _ Hn1), (apply_lookup g d2 Hloc2).
    + by rewrite (apply_lookup_ne _ d2 _ Hn2), (apply_lookup_ne _ d1 _ Hn1),
        (apply_lookup_ne _ d1 _ Hn1), (apply_lookup_ne _ d2 _ Hn2).
Qed.

(** X12.  Two records that do not both decode to the same identity can
    be handled in either order: the game afterwards is the same. *)
Theorem updates_of_different_players_commute (g : Game) (r1 r2 : string) :
  (∀ d1 d2, decode r1 = Some d1 → decode r2 = Some d2 →
            d_id d1 ≠ d_id d2) →
  applyRecord (applyRecord g r1) r2 = applyRecord (applyRecord g r2) r1.
Proof.
  intros Hne. unfold applyRecord.
  destruct (decode r1) as [d1|]; destruct (decode r2) as [d2|]; try done.
  apply apply_commutes. by apply Hne.
Qed.

Lemma updates_of_different_players_commute_witness :
  applyRecord (applyRecord demoGame "player2,400.00,300.00,0,false")
    "player1,1.50,2.25,3,true"
  = applyRecord (applyRecord demoGame "player1,1.50,2.25,3,true")
      "player2,400.00,300.00,0,false".
Proof.
  apply (updates_of_different_players_commute demoGame
           "player2,400.00,300.00,0,false" "player1,1.50,2.25,3,true").
  intros d1 d2 H1 H2.
  assert (E1 : decode "player2,400.00,300.00,0,false"
               = Some {| d_id := "player2"; d_x := lit "400.00";
                         d_y := lit "300.00"; d_direction := 0;
                         d_isMoving := false |})
    by (vm_compute; reflexivity).
  assert (E2 : decode "player1,1.50,2.25,3,true" = Some demoUpdate)
    by (vm_compute; reflexivity).
  rewrite E1 in H1. rewrite E2 in H2.
  injection H1 as <-. injection H2 as <-. discriminate.
Defined.

(** *** The record on the wire *)

(** The four values line 151 prints. *)
Definition fields (c : Character) : list string :=
  [formatFloat2 (X (position c)); formatFloat2 (Y (position c));
   formatInt (direction c); formatBool (isMoving c)].

Lemma formatFloat2_nonempty (x : float64) : formatFloat2 x ≠ "".
Proof.
  assert (Hfixed : ∀ n, fixed2 n ≠ "").
  { intros n. unfold fixed2. destruct (formatUint (n / 100)); discriminate. }
  destruct x as [[]|[]| |[] m e]; simpl; try discriminate;
    rewrite ?append_nil_l; auto.
Qed.

Lemma TrimSpace_solid (s : string) :
  s ≠ "" → allChars solid s = true → TrimSpace (s ++ String "010" "") = s.
Proof.
  intros Hne Hs. destruct s as [|c0 s']; [done|].
  simpl in Hs. apply andb_true_iff in Hs as [Hc0 Hs'].
  destruct s' as [|c1 s''].
  - rewrite append_cons, append_nil_l.
    unfold TrimSpace, trimRight. cbn [list_ascii_of_string].
    rewrite trimLeft_solid by done.
    change (rev [c0; "010"%char]) with ["010"%char; c0].
    change (trimLeftRev ["010"%char; c0]) with (trimLeftRev [c0]).
    by rewrite trimLeftRev_solid.
  - destruct (last_char (String c1 s'')) as (mid & cl & Heq); [done|].
    rewrite Heq in Hs' |- *. rewrite allChars_app in Hs'.
    apply andb_true_iff in Hs' as [_ Hcl]. simpl in Hcl.
    rewrite andb_true_r in Hcl.
    rewrite append_cons, append_assoc.
    change (String cl "" ++ String "010" "")%string
      with (String cl (String "010" "")).
    by apply TrimSpace_line.
Qed.

(** X13.  The record the publisher writes is one line: the four values
    joined by commas and then the only newline.  No value is empty and
    none holds a comma, a semicolon, a blank or a control byte, so the
    line splits back into exactly these four fields, is a single record
    for the splitter on semicolons, and loses only its newline to
    [TrimSpace]. *)
Theorem record_is_one_line (c : Character) :
  encode c = (String.concat "," (fields c) ++ String "010" "")%string
  ∧ Forall (λ f, f ≠ "" ∧ allChars fieldChar f = true) (fields c)
  ∧ Split (String.concat "," (fields c)) "," = fields c
  ∧ Split (String.concat "," (fields c)) ";" = [String.concat "," (fields c)]
  ∧ TrimSpace (encode c) = String.concat "," (fields c).
Proof.
  unfold fields, encode. cbn [String.concat].
  set (fx := formatFloat2 (X (position c))).
  set (fy := formatFloat2 (Y (position c))).
  set (fd := formatInt (direction c)).
  set (fb := formatBool (isMoving c)).
  pose proof (formatFloat2_fieldChars (X (position c))) as Hx. fold fx in Hx.
  pose proof (formatFloat2_fieldChars (Y (position c))) as Hy. fold fy in Hy.
  destruct (formatInt_fieldChars (direction c)) as [Hd Hdne].
  fold fd in Hd, Hdne.
  assert (Hb : allChars fieldChar fb = true ∧ fb ≠ "")
    by (unfold fb; by destruct (isMoving c)).
  destruct Hb as [Hb Hbne].
  destruct (fieldChars_split fx Hx) as (Hx1 & Hx2 & Hx3).
  destruct (fieldChars_split fy Hy) as (Hy1 & Hy2 & Hy3).
  destruct (fieldChars_split fd Hd) as (Hd1 & Hd2 & Hd3).
  destruct (fieldChars_split fb Hb) as (Hb1 & Hb2 & Hb3).
  assert (Hsolid : allChars solid (fx ++ "," ++ fy ++ "," ++ fd ++ "," ++ fb)
                   = true).
  { rewrite !allChars_app, Hx1, Hy1, Hd1, Hb1. done. }
  assert (Hxne : fx ≠ "") by apply formatFloat2_nonempty.
  split; [by rewrite !append_assoc|]. split; [|split; [|split]].
  - repeat constructor; auto; apply formatFloat2_nonempty.
  - change (fx ++ "," ++ fy ++ "," ++ fd ++ "," ++ fb)%string
      with (fx ++ String "," (fy ++ String "," (fd ++ String "," fb)))%string.
    rewrite !Split_app by done. by rewrite Split_no_sep.
  - apply Split_no_sep.
    rewrite !allChars_app, Hx3, Hy3, Hd3, Hb3. done.
  - replace (fx ++ "," ++ fy ++ "," ++ fd ++ "," ++ fb ++ String "010" "")%string
      with ((fx ++ "," ++ fy ++ "," ++ fd ++ "," ++ fb) ++ String "010" "")%string
      by (by rewrite !append_assoc).
    apply TrimSpace_solid; [|done].
    destruct fx; [done|discriminate].
Qed.

(** *** Several records in one message *)

Lemma Split_concat (sep : ascii) (records : list string) :
  records ≠ [] →
  Forall (λ r, allChars (notSep sep) r = true) records →
  Split (String.concat (String sep "") records) sep = records.
Proof.
  induction records as [|r records IH]; [done|]. intros _ Hall.
  apply Forall_cons in Hall as [Hr Hall].
  destruct records as [|r' records].
  - simpl. by apply Split_no_sep.
  - change (String.concat (String sep "") (r :: r' :: records))
      with (r ++ String sep (String.concat (String sep "") (r' :: records)))%string.
    rewrite Split_app by done. f_equal. by apply IH.
Qed.

Lemma concat_solid (sep : ascii) (records : list string) :
  solid sep = true →
  Forall (λ r, allChars solid r = true) records →
  allChars solid (String.concat (String sep "") records) = true.
Proof.
  intros Hsep. induction records as [|r records IH]; [done|]. intros Hall.
  apply Forall_cons in Hall as [Hr Hall].
  destruct records as [|r' records]; [done|].
  change (String.concat (String sep "") (r :: r' :: records))
    with (r ++ String sep (String.concat (String sep "") (r' :: records)))%string.
  rewrite allChars_app, Hr. simpl. rewrite Hsep. by apply IH.
Qed.

(** X14.  A message that carries several records separated by
    semicolons is handled as these records one after the other, in the
    order of the message (records without blank, control or semicolon
    bytes, none of them empty). *)
Theorem batched_records_apply_in_order (g : Game) (records : list string) :
  records ≠ [] →
  Forall (λ r, r ≠ "" ∧ allChars solid r = true
               ∧ allChars (notSep ";") r = true) records →
  receiveMessage g (String.concat ";" records ++ String "010" "")
  = fold_left applyRecord records g.
Proof.
  intros Hne Hall. unfold receiveMessage.
  rewrite TrimSpace_solid.
  - rewrite Split_concat; [done|done|].
    eapply Forall_impl; [exact Hall|]. by intros r (_ & _ & ?).
  - destruct records as [|r records]; [done|].
    apply Forall_cons in Hall as [(Hr & _) _].
    destruct r as [|c r]; [done|].
    destruct records; simpl; discriminate.
  - apply concat_solid; [done|].
    eapply Forall_impl; [exact Hall|]. by intros r (_ & ? & _).
Qed.

Lemma batched_records_apply_in_order_witness :
  receiveMessage demoGame
    (String.concat ";" ["player1,1.50,2.25,3,true";
                        "player2,400.00,300.00,0,false"]
     ++ String "010" "")
  = fold_left applyRecord ["player1,1.50,2.25,3,true";
                           "player2,400.00,300.00,0,false"] demoGame.
Proof.
  apply (batched_records_apply_in_order demoGame
           ["player1,1.50,2.25,3,true"; "player2,400.00,300.00,0,false"]).
  - discriminate.
  - repeat constructor; discriminate.
Defined.

(** *** The pace of the animation *)

(** [n] calls of the method [Update] of [Character], one per tick. *)
Definition updates (n : nat) (c : Character) : Character :=
  Nat.iter n (λ c, CharacterUpdate c tickTime) c.

(** The timer after [n] ticks without a change of frame. *)
Definition timer (n : nat) : float64 :=
  Nat.iter n (λ t, fadd t tickTime) (S754_zero false).

Lemma updates_S (n : nat) (c : Character) :
  updates (S n) c = CharacterUpdate (updates n c) tickTime.
Proof. reflexivity. Qed.

Lemma timer_S (n : nat) : timer (S n) = SFadd prec emax (timer n) tickTime.
Proof. reflexivity. Qed.

Lemma timer_short (n : nat) :
  (n < 12)%nat → SFleb (lit "0.1") (timer (S n)) = false.
Proof.
  intros Hn. do 12 (destruct n as [|n]; [vm_compute; reflexivity|]). lia.
Qed.

Lemma timer_due : SFleb (lit "0.1") (timer 13) = true.
Proof. vm_compute. reflexivity. Qed.

Lemma updates_wait (c : Character) (n : nat) :
  isMoving c = true → animationSpeed c = lit "0.1" →
  timeSinceLastFrame c = S754_zero false →
  (n ≤ 12)%nat →
  updates n c = setAnimation (frameIndex c) (timer n) c.
Proof.
  intros Hm Ha Ht. induction n as [|n IH]; intros Hn.
  - destruct c; simpl in *. by subst.
  - rewrite updates_S, IH by lia.
    unfold CharacterUpdate, updateAnimation.
    cbn [setAnimation isMoving animationSpeed timeSinceLastFrame frameIndex
         bodyTexture headTexture position moveSpeed direction].
    rewrite Hm, Ha.
    rewrite <- timer_S. by rewrite timer_short by lia.
Qed.

(** X15.  A character that keeps moving shows each frame of its walk for
    thirteen ticks: for twelve ticks after a change of frame the frame
    stays, and the thirteenth tick moves to the next frame (modulo 5) and
    puts the timer back to 0.  Twelve ticks of 1/120 s add up to less
    than 0.1 in float64. *)
Theorem frame_lasts_thirteen_ticks (c : Character) :
  isMoving c = true → animationSpeed c = lit "0.1" →
  timeSinceLastFrame c = S754_zero false →
  (∀ n, (n ≤ 12)%nat → frameIndex (updates n c) = frameIndex c)
  ∧ updates 13 c
    = setAnimation (Z.rem (wrapInt (frameIndex c + 1)) 5) (S754_zero false) c.
Proof.
  intros Hm Ha Ht. split.
  - intros n Hn. by rewrite (updates_wait c n Hm Ha Ht Hn).
  - rewrite (updates_S 12), (updates_wait c 12 Hm Ha Ht) by lia.
    unfold CharacterUpdate, updateAnimation.
    cbn [setAnimation isMoving animationSpeed timeSinceLastFrame frameIndex
         bodyTexture headTexture position moveSpeed direction].
    rewrite Hm, Ha.
    rewrite <- (timer_S 12). by rewrite timer_due.
Qed.

Lemma frame_lasts_thirteen_ticks_witness :
  frameIndex
    (updates 12 (setIsMoving true (NewCharacter 1%positive 2%positive
                                     {| X := lit "400"; Y := lit "300" |})))
  = 0%Z
  ∧ frameIndex
      (updates 13 (setIsMoving true (NewCharacter 1%positive 2%positive
                                       {| X := lit "400"; Y := lit "300" |})))
    = 1%Z.
Proof.
  destruct (frame_lasts_thirteen_ticks
              (setIsMoving true (NewCharacter 1%positive 2%positive
                                   {| X := lit "400"; Y := lit "300" |})))
    as [Hwait Hnext]; [reflexivity|reflexivity|reflexivity|].
  split.
  - apply (Hwait 12%nat). lia.
  - rewrite Hnext. reflexivity.
Defined.

(** *** Keys that cancel *)

Lemma handleInputWriteWith_noFusion (g : Game) (keys : Keys)
    (deltaTime : float64) :
  handleInputWriteWith noFusion g keys deltaTime
  = handleInputWrite g keys deltaTime.
Proof. reflexivity. Qed.

(** What is left of a step forth and back of 200/120: nothing when the
    second product is rounded before it is added, and the rounding error
    of the product, -7 * 2^-56, when it is fused with the addition. *)
Definition drift (fused : bool) : float64 :=
  if fused then S754_finite true 7881299347898368 (-106)
  else S754_zero false.

Lemma step_back (fusedSub : bool) :
  mulSub fusedSub (S754_zero false) (lit "200.0") tickTime
  = S754_finite true 7505999378950827 (-52).
Proof. destruct fusedSub; vm_compute; reflexivity. Qed.

Lemma step_forth_and_back (fusedAdd : bool) :
  mulAdd fusedAdd (S754_finite true 7505999378950827 (-52))
    (lit "200.0") tickTime
  = drift fusedAdd.
Proof. destruct fusedAdd; vm_compute; reflexivity. Qed.

Lemma fadd_zero_r (x : float64) :
  x ≠ S754_zero true → fadd x (S754_zero false) = x.
Proof. destruct x as [[]|[]| |[] m e]; try done. Qed.

(** X16.  No arrow key pressed, or each pressed key's opposite pressed
    too, with move speed 200 and the tick of 1/120 s, whichever of the
    four products the build fuses.  A coordinate whose two keys are up
    stays as it is.  A coordinate whose two keys are both pressed has
    the remainder of a step back and a step forth added to it: nothing
    when the second product (lines 133, 143) is rounded before the
    addition, so the position is exactly unchanged on a build without
    fusion ([handleInput]); and -7 * 2^-56 when that product is fused
    with the addition.  The player is marked as moving as soon as one
    key is pressed.  (Coordinates other than the negative zero.) *)
Theorem opposite_keys_cancel (f : Fusion) (g : Game) (keys : Keys) :
  moveSpeed (localPlayer g) = lit "200.0" →
  KeyUp keys = KeyDown keys → KeyLeft keys = KeyRight keys →
  X (position (localPlayer g)) ≠ S754_zero true →
  Y (position (localPlayer g)) ≠ S754_zero true →
  let g' := fst (handleInputWriteWith f g keys tickTime) in
  position (localPlayer g')
  = {| X := fadd (X (position (localPlayer g)))
              (drift (KeyRight keys && fuseRight f));
       Y := fadd (Y (position (localPlayer g)))
              (drift (KeyDown keys && fuseDown f)) |}
  ∧ ((KeyRight keys && fuseRight f = false)%bool →
     X (position (localPlayer g')) = X (position (localPlayer g)))
  ∧ ((KeyDown keys && fuseDown f = false)%bool →
     Y (position (localPlayer g')) = Y (position (localPlayer g)))
  ∧ position (localPlayer (handleInput g keys tickTime))
    = position (localPlayer g)
  ∧ isMoving (localPlayer g') = anyKey keys.
Proof.
  intros Hms Hud Hlr Hx Hy g'.
  assert (Hgen : ∀ f',
            position (localPlayer
                        (fst (handleInputWriteWith f' g keys tickTime)))
            = {| X := fadd (X (position (localPlayer g)))
                        (drift (KeyRight keys && fuseRight f'));
                 Y := fadd (Y (position (localPlayer g)))
                        (drift (KeyDown keys && fuseDown f')) |}).
  { intros f'. clear g'.
    destruct keys as [u d l r]. simpl in Hud, Hlr. subst d l.
    destruct g as [lp others c tiles ls]. simpl in *.
    destruct lp as [bt ht [x y] ms asp fr dir t m]. simpl in *. subst ms.
    unfold handleInputWriteWith, pressKey.
    destruct u, r;
      cbn [KeyUp KeyDown KeyLeft KeyRight localPlayer setIsMoving
           setDirection setPosition moveSpeed position fst snd X Y connWrite
           conn bodyTexture headTexture animationSpeed frameIndex direction
           timeSinceLastFrame isMoving andb];
      rewrite ?step_back, ?step_forth_and_back; reflexivity. }
  pose proof (Hgen f) as Hpos. fold g' in Hpos.
  assert (Hmove : isMoving (localPlayer g') = anyKey keys).
  { unfold g', handleInputWriteWith, pressKey.
    destruct keys as [[] [] [] []]; reflexivity. }
  split; [exact Hpos|]. split; [|split; [|split]].
  - intros Hr. rewrite Hpos, Hr. simpl. by apply fadd_zero_r.
  - intros Hd. rewrite Hpos, Hd. simpl. by apply fadd_zero_r.
  - unfold handleInput.
    rewrite <- handleInputWriteWith_noFusion, (Hgen noFusion).
    simpl. rewrite !andb_false_r. simpl. rewrite !fadd_zero_r by done.
    by destruct (position (localPlayer g)).
  - exact Hmove.
Qed.

(** At (400, 0.25) with the four keys pressed: on a build that fuses
    every product the remainder is absorbed at 400 and moves the player
    off 0.25; on a build without fusion the player stays. *)
Definition nearOrigin : Game :=
  {| localPlayer :=
       setPosition {| X := lit "400"; Y := lit "0.25" |}
         (localPlayer demoGame);
     otherPlayers := ∅; conn := conn demoGame;
     tilesImage := tilesImage demoGame; layers := layers demoGame |}.

Lemma opposite_keys_cancel_witness :
  let keys := {| KeyUp := true; KeyDown := true;
                 KeyLeft := true; KeyRight := true |} in
  let fused := {| fuseUp := true; fuseDown := true;
                  fuseLeft := true; fuseRight := true |} in
  position (localPlayer (fst (handleInputWriteWith fused nearOrigin keys
                                tickTime)))
  = {| X := lit "400"; Y := S754_finite false 9007199254740988 (-55) |}
  ∧ position (localPlayer (handleInput nearOrigin keys tickTime))
    = {| X := lit "400"; Y := lit "0.25" |}.
Proof.
  intros keys fused.
  assert (Hms : moveSpeed (localPlayer nearOrigin) = lit "200.0")
    by (vm_compute; reflexivity).
  assert (Hx : X (position (localPlayer nearOrigin)) ≠ S754_zero true)
    by (vm_compute; discriminate).
  assert (Hy : Y (position (localPlayer nearOrigin)) ≠ S754_zero true)
    by (vm_compute; discriminate).
  split.
  - destruct (opposite_keys_cancel fused nearOrigin keys Hms eq_refl eq_refl
                Hx Hy) as (Hpos & _).
    rewrite Hpos. vm_compute. reflexivity.
  - destruct (opposite_keys_cancel noFusion nearOrigin keys Hms eq_refl
                eq_refl Hx Hy) as (_ & _ & _ & Hsame & _).
    rewrite Hsame. vm_compute. reflexivity.
Defined.

End ClientRuns.

(** * What the relay writes *)

Module RelayWrites.
Import Fmt Relay TextFacts RelayFacts RelayRuns.

(** Every goroutine in its read loop runs under an identity of [ids]. *)
Definition loopsUnder (w : World) (ids : list string) : Prop :=
  ∀ conn id, handlers w !! conn = Some (PcLoop id) → id ∈ ids.

(** [wr] is the relay of a message read during [evs], behind one of
    the identities [ids] and a comma. *)
Definition relayed (evs : list event) (ids : list string) (wr : Write)
  : Prop :=
  ∃ conn message failing id,
    EvMessage conn message failing ∈ evs ∧ id ∈ ids
    ∧ w_data wr = (id ++ "," ++ message)%string
    ∧ w_ok wr = bool_decide (w_conn wr ∉ failing).

Lemma relayed_mono (evs evs' : list event) (ids ids' : list string)
    (wr : Write) :
  evs ⊆ evs' → ids ⊆ ids' → relayed evs ids wr → relayed evs' ids' wr.
Proof.
  intros He Hi (conn & message & failing & id & H1 & H2 & H3 & H4).
  exists conn, message, failing, id. auto.
Qed.

Lemma step_relayed (w w' : World) (ev : event) (ids : list string) :
  loopsUnder w ids → step w ev = Some w' →
  loopsUnder w' (ids ++ issuedBy w ev)
  ∧ ∃ ws, writes w' = writes w ++ ws ∧ Forall (relayed [ev] ids) ws.
Proof.
  intros Hinv Hstep.
  destruct ev as [k|k|k|k message failing|k]; unfold step in Hstep;
    unfold issuedBy.
  - destruct (handlers w !! k) eqn:Hk; [done|]. simplify_eq; simpl.
    rewrite app_nil_r. split; [|exists []; by rewrite app_nil_r].
    intros c id; simpl. destruct (decide (k = c)) as [->|Hne].
    + by rewrite lookup_insert_eq.
    + rewrite lookup_insert_ne by done. apply Hinv.
  - destruct (handlers w !! k) as [[]|] eqn:Hk; try done. simplify_eq; simpl.
    rewrite app_nil_r. split; [|exists []; by rewrite app_nil_r].
    intros c id; simpl. destruct (decide (k = c)) as [->|Hne].
    + by rewrite lookup_insert_eq.
    + rewrite lookup_insert_ne by done. apply Hinv.
  - destruct (handlers w !! k) as [[|id'|id'|]|] eqn:Hk; try done.
    simplify_eq; simpl. split; [|exists []; by rewrite app_nil_r].
    intros c id; simpl. destruct (decide (k = c)) as [->|Hne].
    + rewrite lookup_insert_eq. intros [= ->].
      apply elem_of_app. right. by apply list_elem_of_singleton.
    + rewrite lookup_insert_ne by done. intros Hc.
      apply elem_of_app. left. by apply (Hinv c).
  - destruct (handlers w !! k) as [[|id'|id'|]|] eqn:Hk; try done.
    pose proof (broadcast_writes (server w) (id' ++ "," ++ message)%string
                  failing) as (Hall & _ & _).
    destruct (broadcast _ _ _) as [ws ls]. simplify_eq; simpl in *.
    rewrite app_nil_r. split; [exact Hinv|]. exists ws. split; [done|].
    eapply Forall_impl; [exact Hall|]. intros wr [Hd Hok].
    exists k, message, failing, id'. split; [|split; [|done]].
    + by apply list_elem_of_singleton.
    + by apply (Hinv k).
  - destruct (handlers w !! k) as [[|id'|id'|]|] eqn:Hk; try done.
    simplify_eq; simpl. rewrite app_nil_r.
    split; [|exists []; by rewrite app_nil_r].
    intros c id; simpl. destruct (decide (k = c)) as [->|Hne].
    + by rewrite lookup_insert_eq.
    + rewrite lookup_insert_ne by done. apply Hinv.
Qed.

Lemma run_relayed (evs : list event) (w w' : World) (ids : list string) :
  loopsUnder w ids → run w evs = Some w' →
  ∃ ws, writes w' = writes w ++ ws
        ∧ Forall (relayed evs (ids ++ issued w evs)) ws.
Proof.
  revert w ids. induction evs as [|ev evs IH]; intros w ids Hinv Hrun.
  - simpl in Hrun. simplify_eq. exists []. by rewrite app_nil_r.
  - rewrite run_cons in Hrun. rewrite issued_cons.
    destruct (step w ev) as [w1|] eqn:Hstep; [|done].
    destruct (step_relayed w w1 ev ids Hinv Hstep) as (Hinv1 & ws1 & Hw1 & H1).
    destruct (IH w1 _ Hinv1 Hrun) as (ws2 & Hw2 & H2).
    exists (ws1 ++ ws2). split; [by rewrite Hw2, Hw1, app_assoc|].
    apply Forall_app. split.
    + eapply Forall_impl; [exact H1|]. intros wr.
      apply relayed_mono; [|set_solver].
      intros x Hx. apply list_elem_of_singleton in Hx as ->. by left.
    + eapply Forall_impl; [exact H2|]. intros wr.
      apply relayed_mono; [set_solver|]. by rewrite app_assoc.
Qed.

(** X17.  The relay writes nothing of its own: whatever the
    interleaving, every write it has made carries a message it read
    from some connection during the run, unaltered, behind a comma and an
    identity it handed out at a registration of the run; the write is
    recorded as failed exactly when the endpoint was failing at that
    broadcast. *)
Theorem relay_only_forwards (evs : list event) (w : World) :
  run init evs = Some w →
  Forall (relayed evs (issued init evs)) (writes w).
Proof.
  intros Hrun.
  destruct (run_relayed evs init w [] ) as (ws & Hw & Hall); [|done|].
  - intros c id. unfold init; simpl. by rewrite lookup_empty.
  - rewrite Hw. exact Hall.
Qed.

Definition threeTalk : list event :=
  threePlayers
  ++ [EvMessage 2%positive "1.00,2.00,3,true" {[3%positive]};
      EvReadErr 3%positive;
      EvMessage 1%positive "4.00,5.00,1,false" ∅].

Lemma relay_only_forwards_witness :
  ∃ w, run init threeTalk = Some w
       ∧ length (writes w) = 5%nat
       ∧ Forall (relayed threeTalk (issued init threeTalk)) (writes w).
Proof.
  destruct (run init threeTalk) as [w|] eqn:Hrun;
    [|vm_compute in Hrun; discriminate].
  exists w. split; [reflexivity|]. split.
  - vm_compute in Hrun. injection Hrun as <-. reflexivity.
  - exact (relay_only_forwards threeTalk w Hrun).
Defined.

(** *** The numbers in the identities *)

(** Every identity a goroutine holds is [player<k>] for a [k] between 1
    and the number of connections accepted so far. *)
Definition numbered (w : World) : Prop :=
  ∀ conn p, handlers w !! conn = Some p →
    match p with
    | PcHasID id | PcLoop id =>
        ∃ k, id = playerName k ∧ (1 ≤ k ≤ size (handlers w))%nat
    | _ => True
    end.

Lemma registry_smaller (w : World) (conn : Conn) :
  registered_looping w → handlers w !! conn = Some PcStart →
  (size (clients (server w)) < size (handlers w))%nat.
Proof.
  intros Hreg Hk.
  assert (Hsub : dom (clients (server w)) ⊆ dom (delete conn (handlers w))).
  { intros c [id Hc]%elem_of_dom. apply Hreg in Hc. apply elem_of_dom.
    destruct (decide (c = conn)) as [->|Hne]; [congruence|].
    rewrite lookup_delete_ne by done. eauto. }
  apply subseteq_size in Hsub. rewrite !size_dom in Hsub.
  rewrite map_size_delete_Some in Hsub by eauto.
  assert (size (handlers w) ≠ 0%nat).
  { apply map_size_ne_0_lookup. eauto. }
  lia.
Qed.

Lemma numbered_weaken (w : World) (n : nat) (p : pc) :
  match p with
  | PcHasID id | PcLoop id =>
      ∃ k, id = playerName k ∧ (1 ≤ k ≤ size (handlers w))%nat
  | _ => True
  end →
  (size (handlers w) ≤ n)%nat →
  match p with
  | PcHasID id | PcLoop id => ∃ k, id = playerName k ∧ (1 ≤ k ≤ n)%nat
  | _ => True
  end.
Proof.
  destruct p as [|id|id|]; try done; intros (k & -> & Hk) Hn; exists k;
    (split; [done|lia]).
Qed.

Lemma step_numbered (w w' : World) (ev : event) :
  registered_looping w → numbered w → step w ev = Some w' →
  numbered w'
  ∧ (size (handlers w) ≤ size (handlers w'))%nat
  ∧ Forall (λ id, ∃ k, id = playerName k ∧ (1 ≤ k ≤ size (handlers w'))%nat)
      (issuedBy w ev).
Proof.
  intros Hreg Hinv Hstep.
  destruct ev as [k|k|k|k message failing|k]; unfold step in Hstep;
    unfold issuedBy.
  - destruct (handlers w !! k) eqn:Hk; [done|]. simplify_eq; simpl.
    rewrite map_size_insert_None by done.
    split; [|split; [lia|done]].
    intros c p; simpl. rewrite map_size_insert_None by done.
    destruct (decide (k = c)) as [->|Hne].
    + rewrite lookup_insert_eq. by intros [= <-].
    + rewrite lookup_insert_ne by done. intros Hc.
      apply (numbered_weaken w); [by apply (Hinv c)|lia].
  - destruct (handlers w !! k) as [[]|] eqn:Hk; try done.
    pose proof (registry_smaller w k Hreg Hk) as Hlt.
    simplify_eq; simpl. rewrite map_size_insert_Some by eauto.
    split; [|split; [lia|done]].
    intros c p; simpl. rewrite map_size_insert_Some by eauto.
    destruct (decide (k = c)) as [->|Hne].
    + rewrite lookup_insert_eq. intros [= <-].
      exists (size (clients (server w)) + 1)%nat. split; [done|lia].
    + rewrite lookup_insert_ne by done. apply Hinv.
  - destruct (handlers w !! k) as [[|id'|id'|]|] eqn:Hk; try done.
    simplify_eq; simpl. rewrite map_size_insert_Some by eauto.
    split; [|split; [lia|]].
    + intros c p; simpl. rewrite map_size_insert_Some by eauto.
      destruct (decide (k = c)) as [->|Hne].
      * rewrite lookup_insert_eq. intros [= <-]. exact (Hinv _ _ Hk).
      * rewrite lookup_insert_ne by done. apply Hinv.
    + constructor; [|done]. exact (Hinv _ _ Hk).
  - destruct (handlers w !! k) as [[|id'|id'|]|] eqn:Hk; try done.
    destruct (broadcast _ _ _) as [ws ls]. simplify_eq; simpl.
    split; [exact Hinv|]. split; [lia|done].
  - destruct (handlers w !! k) as [[|id'|id'|]|] eqn:Hk; try done.
    simplify_eq; simpl. rewrite map_size_insert_Some by eauto.
    split; [|split; [lia|done]].
    intros c p; simpl. rewrite map_size_insert_Some by eauto.
    destruct (decide (k = c)) as [->|Hne].
    + rewrite lookup_insert_eq. by intros [= <-].
    + rewrite lookup_insert_ne by done. apply Hinv.
Qed.

Lemma run_numbered (evs : list event) (w w' : World) :
  registered_looping w → numbered w → run w evs = Some w' →
  (size (handlers w) ≤ size (handlers w'))%nat
  ∧ Forall (λ id, ∃ k, id = playerName k ∧ (1 ≤ k ≤ size (handlers w'))%nat)
      (issued w evs).
Proof.
  revert w. induction evs as [|ev evs IH]; intros w Hreg Hinv Hrun.
  - simpl in Hrun. simplify_eq. split; [lia|constructor].
  - rewrite run_cons in Hrun. rewrite issued_cons.
    destruct (step w ev) as [w1|] eqn:Hstep; [|done].
    destruct (step_numbered w w1 ev Hreg Hinv Hstep) as (Hinv1 & Hle1 & H1).
    destruct (IH w1 (step_registered_looping _ _ _ Hreg Hstep) Hinv1 Hrun)
      as (Hle2 & H2).
    split; [lia|]. apply Forall_app. split; [|done].
    eapply Forall_impl; [exact H1|]. intros id (k & -> & Hk).
    exists k. split; [done|lia].
Qed.

(** X23.  Every identity the relay hands out is [player<k>] for a
    number [k] between 1 and the number of connections it has accepted:
    the numbers never run ahead of the connections, whatever the
    interleaving and however many have left. *)
Theorem identities_are_numbered (evs : list event) (w : World) :
  run init evs = Some w →
  Forall (λ id, ∃ k, id = playerName k ∧ (1 ≤ k ≤ size (handlers w))%nat)
    (issued init evs).
Proof.
  intros Hrun. apply (run_numbered evs init w); [| |done].
  - intros c id. unfold init; simpl. by rewrite lookup_empty.
  - intros c p. unfold init; simpl. by rewrite lookup_empty.
Qed.

Lemma identities_are_numbered_witness :
  Forall (λ id, ∃ k, id = playerName k ∧ (1 ≤ k ≤ 3)%nat)
    (issued init threePlayers).
Proof.
  assert (Hrun : run init threePlayers = Some threePlayersWorld)
    by (vm_compute; reflexivity).
  pose proof (identities_are_numbered threePlayers threePlayersWorld Hrun)
    as H.
  assert (Hsize : size (handlers threePlayersWorld) = 3%nat)
    by (vm_compute; reflexivity).
  rewrite Hsize in H. exact H.
Defined.

End RelayWrites.

(** * From the publisher to the caches *)

Module SystemRuns.
Import Strconv Fmt TextFacts.

(** Every identity a goroutine holds was made by line 26. *)
Definition idsMade (w : Relay.World) : Prop :=
  ∀ conn p, Relay.handlers w !! conn = Some p →
    match p with
    | Relay.PcHasID id | Relay.PcLoop id => ∃ s, id = Relay.clientID s
    | _ => True
    end.

Lemma step_idsMade (w w' : Relay.World) (ev : Relay.event) :
  idsMade w → Relay.step w ev = Some w' → idsMade w'.
Proof.
  intros Hinv Hstep c p.
  destruct ev as [k|k|k|k message failing|k]; unfold Relay.step in Hstep.
  - destruct (Relay.handlers w !! k) eqn:Hk; [done|]. simplify_eq; simpl.
    destruct (decide (k = c)) as [->|Hne].
    + rewrite lookup_insert_eq. by intros [= <-].
    + rewrite lookup_insert_ne by done. apply Hinv.
  - destruct (Relay.handlers w !! k) as [[]|] eqn:Hk; try done.
    simplify_eq; simpl. destruct (decide (k = c)) as [->|Hne].
    + rewrite lookup_insert_eq. intros [= <-]. eauto.
    + rewrite lookup_insert_ne by done. apply Hinv.
  - destruct (Relay.handlers w !! k) as [[|id'|id'|]|] eqn:Hk; try done.
    simplify_eq; simpl. destruct (decide (k = c)) as [->|Hne].
    + rewrite lookup_insert_eq. intros [= <-]. exact (Hinv _ _ Hk).
    + rewrite lookup_insert_ne by done. apply Hinv.
  - destruct (Relay.handlers w !! k) as [[|id'|id'|]|] eqn:Hk; try done.
    destruct (Relay.broadcast _ _ _) as [ws ls]. simplify_eq; simpl.
    apply Hinv.
  - destruct (Relay.handlers w !! k) as [[|id'|id'|]|] eqn:Hk; try done.
    simplify_eq; simpl. destruct (decide (k = c)) as [->|Hne].
    + rewrite lookup_insert_eq. by intros [= <-].
    + rewrite lookup_insert_ne by done. apply Hinv.
Qed.

Lemma run_idsMade (evs : list Relay.event) (w w' : Relay.World) :
  idsMade w → Relay.run w evs = Some w' → idsMade w'.
Proof.
  revert w. induction evs as [|ev evs IH]; simpl; intros w Hinv Hrun.
  - by simplify_eq.
  - destruct (Relay.step w ev) as [w1|] eqn:Hstep; [|done].
    eauto using step_idsMade.
Qed.

(** The message the relay makes of a publisher's record, received by a
    client: one update, for the relay's identity. *)
Lemma receive_relayed (id : string) (c : Client.Character)
    (g : Client.Game) :
  id ≠ "" → allChars fieldChar id = true → id ≠ "local" →
  (minInt ≤ Client.direction c ≤ maxInt)%Z →
  Client.receiveMessage g (id ++ "," ++ Client.encode c)
  = Client.apply g {| Client.d_id := id;
                      Client.d_x := round2 (Client.X (Client.position c));
                      Client.d_y := round2 (Client.Y (Client.position c));
                      Client.d_direction := Client.direction c;
                      Client.d_isMoving := Client.isMoving c |}.
Proof.
  intros Hne Hall Hloc Hdir.
  pose proof (CodecFacts.decode_relayed_encode id c Hne Hall Hdir) as Hdec.
  unfold Client.receiveMessage.
  destruct (GoStrings.Split _ ";") as [|r [|r' l]]; try discriminate Hdec.
  injection Hdec as Hr. simpl. unfold Client.applyRecord. by rewrite Hr.
Qed.

(** X18.  The two programs together.  In any state the relay can
    reach, when a publisher whose goroutine is in its read loop sends
    the record of a character, every endpoint of the registry is written
    one message, and a client that receives that message, whatever its
    game, afterwards holds under the sender's identity an entry with the
    character's direction and movement flag and its position rounded to
    two decimals; its other entries and its local player are as before. *)
Theorem published_state_reaches_the_caches (evs : list Relay.event)
    (w : Relay.World) (conn : Relay.Conn) (id : string)
    (c : Client.Character) (failing : gset Relay.Conn) (g : Client.Game) :
  Relay.run Relay.init evs = Some w →
  Relay.handlers w !! conn = Some (Relay.PcLoop id) →
  (minInt ≤ Client.direction c ≤ maxInt)%Z →
  ∃ w' ws,
    Relay.step w (Relay.EvMessage conn (Client.encode c) failing) = Some w'
    ∧ Relay.writes w' = Relay.writes w ++ ws
    ∧ (∀ target, target ∈ Relay.snapshot (Relay.server w) →
         ∃ wr, wr ∈ ws ∧ Relay.w_conn wr = target)
    ∧ ∀ wr, wr ∈ ws →
        let g' := Client.receiveMessage g (Relay.w_data wr) in
        Client.pose <$> Client.otherPlayers g' !! id
        = Some ({| Client.X := round2 (Client.X (Client.position c));
                   Client.Y := round2 (Client.Y (Client.position c)) |},
                Client.direction c, Client.isMoving c)
        ∧ (∀ id', id' ≠ id →
             Client.otherPlayers g' !! id' = Client.otherPlayers g !! id')
        ∧ Client.localPlayer g' = Client.localPlayer g.
Proof.
  intros Hrun Hloop Hdir.
  assert (Hmade : idsMade w).
  { eapply run_idsMade; [|exact Hrun].
    intros k p. unfold Relay.init; simpl. by rewrite lookup_empty. }
  destruct (Hmade conn _ Hloop) as [s ->].
  destruct (CodecFacts.clientID_fieldChars s) as [Hne Hall].
  pose proof (SystemFacts.clientID_not_local s) as Hloc.
  pose proof (RelayFacts.broadcast_writes (Relay.server w)
                (Relay.clientID s ++ "," ++ Client.encode c)%string failing)
    as (Hdata & _ & Hdom).
  unfold Relay.step. rewrite Hloop.
  destruct (Relay.broadcast _ _ _) as [ws ls]. simpl in Hdata, Hdom.
  eexists _, ws. split; [reflexivity|]. split; [reflexivity|]. split.
  - intros target Ht. apply Hdom in Ht.
    apply list_elem_of_fmap in Ht as (wr & -> & Hwr). eauto.
  - intros wr Hwr. rewrite Forall_forall in Hdata.
    destruct (Hdata wr Hwr) as [-> _]. cbv zeta.
    rewrite (receive_relayed _ c g Hne Hall Hloc Hdir).
    set (d := {| Client.d_id := Relay.clientID s;
                 Client.d_x := round2 (Client.X (Client.position c));
                 Client.d_y := round2 (Client.Y (Client.position c));
                 Client.d_direction := Client.direction c;
                 Client.d_isMoving := Client.isMoving c |}).
    split; [|split].
    + change (Relay.clientID s) with (Client.d_id d) at 1.
      rewrite (ClientFacts.apply_lookup g d Hloc). reflexivity.
    + intros id' Hid'. by apply (ClientFacts.apply_lookup_ne g d).
    + unfold Client.apply. by destruct (String.eqb _ _).
Qed.

Lemma published_state_reaches_the_caches_witness :
  ∃ w' ws,
    Relay.step RelayFacts.threePlayersWorld
      (Relay.EvMessage 1%positive
         (Client.encode (Client.localPlayer ClientFacts.demoGame)) ∅)
    = Some w'
    ∧ Relay.writes w' = Relay.writes RelayFacts.threePlayersWorld ++ ws
    ∧ (∀ target,
         target ∈ Relay.snapshot (Relay.server RelayFacts.threePlayersWorld) →
         ∃ wr, wr ∈ ws ∧ Relay.w_conn wr = target)
    ∧ ∀ wr, wr ∈ ws →
        let g' := Client.receiveMessage ClientFacts.demoGame
                    (Relay.w_data wr) in
        Client.pose <$> Client.otherPlayers g' !! "player1"
        = Some ({| Client.X :=
                     round2 (Client.X (Client.position
                               (Client.localPlayer ClientFacts.demoGame)));
                   Client.Y :=
                     round2 (Client.Y (Client.position
                               (Client.localPlayer ClientFacts.demoGame))) |},
                Client.direction (Client.localPlayer ClientFacts.demoGame),
                Client.isMoving (Client.localPlayer ClientFacts.demoGame))
        ∧ (∀ id', id' ≠ "player1" →
             Client.otherPlayers g' !! id'
             = Client.otherPlayers ClientFacts.demoGame !! id')
        ∧ Client.localPlayer g' = Client.localPlayer ClientFacts.demoGame.
Proof.
  apply (published_state_reaches_the_caches RelayFacts.threePlayers
           RelayFacts.threePlayersWorld 1%positive "player1"
           (Client.localPlayer ClientFacts.demoGame) ∅ ClientFacts.demoGame).
  - vm_compute. reflexivity.
  - vm_compute. reflexivity.
  - vm_compute. split; discriminate.
Defined.

End SystemRuns.

(** * What is drawn *)

Module RenderFacts.
Import Strconv Client Render ClientFacts ClientRuns.

Lemma wrapInt_small (z : Z) : (minInt ≤ z ≤ maxInt)%Z → wrapInt z = z.
Proof.
  unfold wrapInt, minInt, maxInt. intros Hz.
  rewrite Z.mod_small; lia.
Qed.

(** The cell of a sprite sheet in column [col] and row [row]. *)
Definition cell (col row : Z) : Rectangle :=
  {| MinX := 32 * col; MinY := 32 * row;
     MaxX := 32 * col + 32; MaxY := 32 * row + 32 |}.

Definition bodyRow (c : Character) : Z :=
  if isMoving c then (frameIndex c + 1)%Z else 0%Z.

Lemma CharacterDraw_cells (c : Character) (cameraOffset : Vector2f) :
  (0 ≤ frameIndex c ≤ 4)%Z → (0 ≤ direction c ≤ 3)%Z →
  CharacterDraw c cameraOffset
  = [ {| source := bodyTexture c; region := cell (direction c) (bodyRow c);
         tx := fsub (X (position c)) (X cameraOffset);
         ty := fsub (Y (position c)) (Y cameraOffset) |};
      {| source := headTexture c; region := cell 0 (direction c);
         tx := fsub (X (position c)) (X cameraOffset);
         ty := fsub (fsub (Y (position c)) (lit "16")) (Y cameraOffset) |} ].
Proof.
  intros Hf Hd. unfold CharacterDraw, bodyRow, cell, Rect, addInt, mulInt,
    frameWidth, frameHeight.
  assert (Heq : (if isMoving c then wrapInt (frameIndex c + 1) else 0%Z)
                = (if isMoving c then (frameIndex c + 1)%Z else 0%Z)).
  { destruct (isMoving c); [|done].
    by rewrite wrapInt_small by (unfold minInt, maxInt; lia). }
  rewrite Heq. clear Heq.
  set (row := if isMoving c then (frameIndex c + 1)%Z else 0%Z).
  assert (Hrow : (0 ≤ row ≤ 5)%Z) by (unfold row; destruct (isMoving c); lia).
  rewrite !(wrapInt_small (direction c + 1)) by (unfold minInt, maxInt; lia).
  rewrite !(wrapInt_small (row + 1)) by (unfold minInt, maxInt; lia).
  rewrite !(wrapInt_small (32 * _)) by (unfold minInt, maxInt; lia).
  assert (H1 : (32 * (direction c + 1) <? 32 * direction c)%Z = false)
    by (apply Z.ltb_ge; lia).
  assert (H2 : (32 * (row + 1) <? 32 * row)%Z = false)
    by (apply Z.ltb_ge; lia).
  assert (H3 : (32 <? 0)%Z = false) by done.
  rewrite H1, H2, H3.
  repeat f_equal; lia.
Qed.

Lemma NewGame_gameOK (c0 : Conn) (body head tiles : Image)
    (tileLayers : list (list Z)) :
  gameOK body head (NewGame c0 body head tiles tileLayers).
Proof.
  unfold gameOK, animOK; simpl.
  repeat split; try lia. all: by rewrite lookup_empty in *.
Qed.

(** X19.  Whatever has happened since the game was created, the local
    player is drawn with two calls, body then head, both at the same
    horizontal place and the head 16 above the body.  The body is the
    32 by 32 cell of the body sheet in the column of the direction
    (0 to 3) and in row 0 when standing, rows 1 to 5 (frame + 1) when
    moving; the head is the cell of the head sheet in column 0 and the
    row of the direction. *)
Theorem local_player_sprite (c0 : Conn) (body head tiles : Image)
    (tileLayers : list (list Z)) (evs : list event)
    (cameraOffset : Vector2f) :
  let lp := localPlayer
              (game (run (start (NewGame c0 body head tiles tileLayers))
                       evs)) in
  (0 ≤ direction lp ≤ 3)%Z
  ∧ (0 ≤ bodyRow lp ≤ 5)%Z
  ∧ (bodyRow lp = 0%Z ↔ isMoving lp = false)
  ∧ CharacterDraw lp cameraOffset
    = [ {| source := body; region := cell (direction lp) (bodyRow lp);
           tx := fsub (X (position lp)) (X cameraOffset);
           ty := fsub (Y (position lp)) (Y cameraOffset) |};
        {| source := head; region := cell 0 (direction lp);
           tx := fsub (X (position lp)) (X cameraOffset);
           ty := fsub (fsub (Y (position lp)) (lit "16"))
                   (Y cameraOffset) |} ].
Proof.
  intros lp.
  pose proof (run_gameOK body head evs
                (start (NewGame c0 body head tiles tileLayers))
                (NewGame_gameOK c0 body head tiles tileLayers)) as Hg.
  destruct Hg as ((Hf & _ & _) & Hd & Hb & Hh & _). fold lp in Hf, Hd, Hb, Hh.
  split; [done|]. split; [|split].
  - unfold bodyRow. destruct (isMoving lp); lia.
  - unfold bodyRow. destruct (isMoving lp); split; intros; try done; lia.
  - rewrite (CharacterDraw_cells lp cameraOffset Hf Hd). by rewrite Hb, Hh.
Qed.

(** *** The background *)

Lemma tileOrigin_grid (i : Z) :
  (0 ≤ i ≤ 2 ^ 56)%Z →
  tileOrigin i = ((256 * (i mod 3))%Z, (256 * (i / 3))%Z).
Proof.
  intros Hi. unfold tileOrigin, mulInt, tileSize.
  change xCount with 3%Z.
  rewrite Z.rem_mod_nonneg, Z.quot_div_nonneg by lia.
  assert (0 ≤ i mod 3 < 3)%Z by (apply Z.mod_pos_bound; lia).
  assert (0 ≤ i / 3 ≤ i)%Z.
  { split; [apply Z.div_pos; lia|]. apply Z.div_le_upper_bound; lia. }
  assert (3 * (i / 3) ≤ i)%Z by (apply Z.mul_div_le; lia).
  rewrite !wrapInt_small by (unfold minInt, maxInt; lia).
  f_equal; lia.
Qed.

(** X20.  The background is a grid three tiles wide: the tile at
    index [i] of a layer goes to column [i mod 3] and row [i / 3] of a
    grid of 256 pixels, so that the tiles of one layer never share a
    place and no tile starts right of x = 512.  The place depends on the
    index alone: every layer is drawn over the same places.  Each tile
    is one call, on the tiles image, in the order of the layer, of the
    256 by 256 square of the tiles image at column [tile mod 400] and
    row [tile / 400].  (For a layer of at most 2^56 tiles and a tile
    number that is not negative.) *)
Theorem background_is_a_grid (tilesImage : Image) (cameraOffset : Vector2f)
    (layer : list Z) (i : nat) (tile : Z) :
  (Z.of_nat (length layer) ≤ 2 ^ 56)%Z →
  layer !! i = Some tile →
  (0 ≤ tile ≤ maxInt)%Z →
  length (drawLayer tilesImage cameraOffset layer) = length layer
  ∧ drawLayer tilesImage cameraOffset layer !! i
    = Some {| source := tilesImage;
              region := {| MinX := 256 * (tile mod 400);
                           MinY := 256 * (tile / 400);
                           MaxX := 256 * (tile mod 400) + 256;
                           MaxY := 256 * (tile / 400) + 256 |};
              tx := fsub (floatOfInt (256 * (Z.of_nat i mod 3)))
                      (X cameraOffset);
              ty := fsub (floatOfInt (256 * (Z.of_nat i / 3)))
                      (Y cameraOffset) |}
  ∧ (0 ≤ 256 * (Z.of_nat i mod 3) ≤ 512)%Z
  ∧ ∀ j : nat, (j < length layer)%nat →
      tileOrigin (Z.of_nat j) = tileOrigin (Z.of_nat i) → j = i.
Proof.
  intros Hlen Hi Htile.
  pose proof (lookup_lt_Some _ _ _ Hi) as Hlt.
  split; [apply length_imap|].
  assert (Hmod : (0 ≤ Z.of_nat i mod 3 < 3)%Z)
    by (apply Z.mod_pos_bound; lia).
  split; [|split; [lia|]].
  - unfold drawLayer. rewrite list_lookup_imap, Hi. simpl.
    unfold drawTile. rewrite tileOrigin_grid by lia.
    unfold mulInt, addInt, tileXCount, tileSize, Rect.
    rewrite Z.rem_mod_nonneg, Z.quot_div_nonneg by lia.
    assert (0 ≤ tile mod 400 < 400)%Z by (apply Z.mod_pos_bound; lia).
    assert (0 ≤ tile / 400)%Z by (apply Z.div_pos; lia).
    assert (400 * (tile / 400) ≤ tile)%Z by (apply Z.mul_div_le; lia).
    unfold maxInt in Htile.
    rewrite !(wrapInt_small (_ * 256)) by (unfold minInt, maxInt; lia).
    rewrite !(wrapInt_small (_ + 256)) by (unfold minInt, maxInt; lia).
    assert (Hx : (tile mod 400 * 256 + 256 <? tile mod 400 * 256)%Z = false)
      by (apply Z.ltb_ge; lia).
    assert (Hy : (tile / 400 * 256 + 256 <? tile / 400 * 256)%Z = false)
      by (apply Z.ltb_ge; lia).
    rewrite Hx, Hy. do 2 f_equal. f_equal; lia.
  - intros j Hj. rewrite !tileOrigin_grid by lia. intros [= Hm Hd].
    pose proof (Z.div_mod (Z.of_nat j) 3) as Ej.
    pose proof (Z.div_mod (Z.of_nat i) 3) as Ei. lia.
Qed.

Lemma background_is_a_grid_witness :
  drawLayer 3%positive {| X := S754_zero false; Y := S754_zero false |}
    [0; 1; 2; 3; 4; 5; 6; 7; 8; 9]%Z !! 4%nat
  = Some {| source := 3%positive;
            region := {| MinX := 1024; MinY := 0;
                         MaxX := 1280; MaxY := 256 |};
            tx := floatOfInt 256; ty := floatOfInt 256 |}.
Proof.
  destruct (background_is_a_grid 3%positive
              {| X := S754_zero false; Y := S754_zero false |}
              [0; 1; 2; 3; 4; 5; 6; 7; 8; 9]%Z 4%nat 4%Z)
    as (_ & Hcall & _); [vm_compute; discriminate|reflexivity|
                         vm_compute; split; discriminate|].
  rewrite Hcall. vm_compute. reflexivity.
Defined.

(** *** The whole frame *)

Lemma drawLayer_sources (tilesImage : Image) (cameraOffset : Vector2f)
    (layer : list Z) :
  source <$> drawLayer tilesImage cameraOffset layer
  = replicate (length layer) tilesImage.
Proof.
  unfold drawLayer.
  assert (Hgen : ∀ f : nat → Z → DrawCall,
            (∀ i x, source (f i x) = tilesImage) →
            source <$> imap f layer = replicate (length layer) tilesImage).
  { induction layer as [|t layer IH]; intros f Hf; [done|].
    cbn [imap fmap list_fmap length replicate]. f_equal; [apply Hf|].
    apply IH. intros i x. apply Hf. }
  apply Hgen. intros i x. unfold drawTile. by destruct (tileOrigin _).
Qed.

Lemma drawBackground_sources (g : Game) (cameraOffset : Vector2f) :
  source <$> drawBackground g cameraOffset
  = replicate (length (concat (layers g))) (tilesImage g).
Proof.
  unfold drawBackground.
  induction (layers g) as [|layer ls IH]; [done|].
  cbn [flat_map concat]. rewrite fmap_app, IH, drawLayer_sources.
  by rewrite length_app, replicate_add.
Qed.

Lemma cached_sources (body head : Image) (cameraOffset : Vector2f)
    (l : list (string * Character)) :
  Forall (λ kv, bodyTexture kv.2 = body ∧ headTexture kv.2 = head) l →
  source <$> flat_map (λ kv, CharacterDraw kv.2 cameraOffset) l
  = concat (replicate (length l) [body; head]).
Proof.
  induction 1 as [|[k c] l [Hb Hh] _ IH]; [done|].
  cbn [flat_map length replicate concat]. rewrite fmap_app, IH.
  simpl in Hb, Hh. by rewrite <- Hb, <- Hh.
Qed.

Lemma step_tiles (st : State) (ev : event) :
  tilesImage (game (step st ev)) = tilesImage (game st)
  ∧ layers (game (step st ev)) = layers (game st).
Proof.
  destruct ev as [keys|[message|]|]; unfold step; cbn [game].
  - destruct (handleInput_fields (game st) keys tickTime)
      as (_ & _ & _ & _ & _ & _ & _ & _ & _ & Ht & Hl).
    unfold Update; simpl. by rewrite Ht, Hl.
  - destruct (receiving st); cbn [game]; [|done].
    by destruct (receiveMessage_frame (game st) message)
      as (_ & _ & -> & ->).
  - done.
  - done.
Qed.

Lemma run_tiles (evs : list event) (st : State) :
  tilesImage (game (run st evs)) = tilesImage (game st)
  ∧ layers (game (run st evs)) = layers (game st).
Proof.
  revert st. induction evs as [|ev evs IH]; intros st; [done|].
  change (run st (ev :: evs)) with (run (step st ev) evs).
  destruct (IH (step st ev)) as [-> ->]. apply step_tiles.
Qed.

Lemma drawBackground_length (g : Game) (cameraOffset : Vector2f) :
  length (drawBackground g cameraOffset) = length (concat (layers g)).
Proof.
  rewrite <- (length_fmap source), drawBackground_sources.
  apply length_replicate.
Qed.

(** X21.  Whatever has happened since the game was created, a frame is
    drawn in this order.  The first calls, as many as there are tiles,
    are the tiles of the layers, layer after layer, from the tiles
    image.  The next two calls are the local player, body then head.
    What follows is the cached players, each exactly once and each as
    its own two calls, body then head, in some order of the cache.  All
    calls are made with one camera offset, the position of the local
    player less (400, 300), and every character is drawn from the two
    images the game was created with. *)
Theorem frame_is_background_then_players (c0 : Conn)
    (body head tiles : Image) (tileLayers : list (list Z))
    (evs : list event) :
  let g := game (run (start (NewGame c0 body head tiles tileLayers)) evs) in
  let cameraOffset :=
    {| X := fsub (X (position (localPlayer g))) (lit "400");
       Y := fsub (Y (position (localPlayer g))) (lit "300") |} in
  let n := length (concat tileLayers) in
  ∃ cached : list (string * Character),
    cached ≡ₚ map_to_list (otherPlayers g)
    ∧ length (GameDraw g) = (n + 2 + 2 * size (otherPlayers g))%nat
    ∧ take n (GameDraw g)
      = flat_map (drawLayer tiles cameraOffset) tileLayers
    ∧ take 2 (drop n (GameDraw g)) = CharacterDraw (localPlayer g) cameraOffset
    ∧ drop (n + 2) (GameDraw g)
      = flat_map (λ kv, CharacterDraw kv.2 cameraOffset) cached
    ∧ source <$> GameDraw g
      = replicate n tiles
        ++ concat (replicate (1 + size (otherPlayers g)) [body; head]).
Proof.
  intros g cameraOffset n.
  pose proof (run_gameOK body head evs
                (start (NewGame c0 body head tiles tileLayers))
                (NewGame_gameOK c0 body head tiles tileLayers)) as Hg.
  fold g in Hg. destruct Hg as (_ & _ & Hb & Hh & Hothers).
  assert (Htiles : tilesImage g = tiles ∧ layers g = tileLayers)
    by exact (run_tiles evs (start (NewGame c0 body head tiles tileLayers))).
  destruct Htiles as [Ht Hl].
  assert (Hsrc : source <$> flat_map (λ kv, CharacterDraw kv.2 cameraOffset)
                              (map_to_list (otherPlayers g))
                 = concat (replicate (size (otherPlayers g)) [body; head])).
  { rewrite (cached_sources body head).
    - by rewrite length_map_to_list.
    - apply Forall_forall. intros [k c] Hin.
      apply elem_of_map_to_list in Hin.
      destruct (Hothers k c Hin) as (_ & ? & ?). done. }
  assert (Hlen : length (drawBackground g cameraOffset) = n).
  { rewrite drawBackground_length. unfold n. by rewrite Hl. }
  exists (map_to_list (otherPlayers g)). split; [done|].
  unfold GameDraw. fold cameraOffset.
  set (back := drawBackground g cameraOffset) in *.
  set (others := flat_map (λ kv, CharacterDraw kv.2 cameraOffset)
                   (map_to_list (otherPlayers g))) in *.
  split; [|split; [|split; [|split]]].
  - rewrite !length_app, Hlen.
    rewrite <- (length_fmap source others), Hsrc.
    assert (Hrep : ∀ k, length (concat (replicate k [body; head]))
                        = (2 * k)%nat).
    { induction k as [|k IH]; simpl; [done|]. rewrite IH. lia. }
    rewrite Hrep. unfold CharacterDraw. simpl. lia.
  - rewrite take_app_length' by done.
    unfold back, drawBackground. by rewrite Ht, Hl.
  - rewrite drop_app_length' by done.
    by rewrite (take_app_length' _ _ 2).
  - rewrite <- drop_drop, drop_app_length' by done.
    by rewrite (drop_app_length' _ _ 2).
  - rewrite !fmap_app, Hsrc. unfold back.
    rewrite drawBackground_sources, Ht, Hl. fold n. f_equal.
    unfold CharacterDraw; simpl. by rewrite Hb, Hh.
Qed.

(** The order is seen on a game with one cached player standing
    elsewhere than the local player: the call after the tiles is the
    local player's body, at (400, 300) on the screen, and the next but
    one is the cached player's. *)
Example frame_order_sample :
  tx <$> GameDraw (receiveMessage demoGame "player7,1.00,2.00,3,true")
  = [lit "400"; lit "400"; lit "1"; lit "1"].
Proof. vm_compute. reflexivity. Qed.

End RenderFacts.
